(** * LibCxxMap: the libc++ [std::map] data formatter

    A shallow embedding of
    [lldb/source/Plugins/Language/CPlusPlus/LibCxxMap.cpp] and the
    verification of its specification.

    The formatter walks a red-black tree that lives in the memory of an
    inspected process.  Everything it knows about that process comes
    through the [ValueObject], [CompilerType] and [Process] interfaces of
    the debugger, which are declared elsewhere: they are the operations of
    the class [Debugger] below, and every definition and theorem is
    parametric in them.  The loops of the source are [while] loops; they
    are embedded as recursive functions over a fuel that counts the
    executions of the loop body, a result [None] meaning that the fuel ran
    out before the loop ended. *)

From stdpp Require Import gmap strings list fin_maps pretty sorting.
From Stdlib Require Import ZArith Lia.

Local Open Scope Z_scope.

(** ** Machine integers *)

Definition UINT32_MAX : Z := 4294967295.
Definition LLDB_INVALID_ADDRESS : Z := 18446744073709551615.

(** Conversion to [uint32_t]. *)
Definition to_uint32 (z : Z) : Z := z mod 2 ^ 32.

(** [steps++] on a [size_t] (64 bits). *)
Definition size_t_succ (z : Z) : Z := (z + 1) mod 2 ^ 64.

(** [lldb::BasicType], the two members the formatter asks for. *)
Inductive BasicType := eBasicTypeVoid | eBasicTypeBool.

(** ** The debugger interfaces

    A [CompilerType] is [option TypeHandle]: [None] is the invalid
    (default-constructed or cleared) type, on which every query answers
    with the invalid type again.  A [ValueObjectSP] and a [ValueObject*]
    are both [option ValueObject]. *)

Class Debugger := {
  ValueObject : Type;
  TypeHandle : Type;
  TypeSystemClang : Type;
  Target : Type;
  (* ValueObject *)
  GetSP : ValueObject → option ValueObject;
  ResolveValue : ValueObject → option Z;
  GetErrorFail : ValueObject → bool;
  GetCompilerType : ValueObject → option TypeHandle;
  GetAddressByteSize : ValueObject → Z;
  GetSyntheticChildAtOffset :
    ValueObject → Z → option TypeHandle → option ValueObject;
  GetChildMemberWithName : ValueObject → string → option ValueObject;
  GetChildAtNamePath : ValueObject → list string → option ValueObject;
  GetValueForExpressionPath : ValueObject → string → option ValueObject;
  Dereference : ValueObject → option ValueObject * bool;
  Clone : ValueObject → string → option ValueObject;
  GetNumChildrenIgnoringErrors : ValueObject → Z;
  ValueObject_GetChildAtIndex : ValueObject → Z → option ValueObject;
  GetName : ValueObject → string;
  GetTargetSP : ValueObject → option Target;
  (* LibCxx.h *)
  GetFirstValueOfLibCXXCompressedPair : ValueObject → option ValueObject;
  (* CompilerType and TypeSystemClang *)
  GetTypeTemplateArgument : TypeHandle → Z → option TypeHandle;
  GetFieldAtIndex : TypeHandle → Z → option TypeHandle;
  GetTypedefedType : TypeHandle → option TypeHandle;
  GetClangTypeSystem : TypeHandle → option TypeSystemClang;
  GetBasicType : TypeSystemClang → BasicType → option TypeHandle;
  GetPointerType : TypeHandle → option TypeHandle;
  CreateStructForIdentifier :
    TypeSystemClang → string → list (string * option TypeHandle) →
    option TypeHandle;
  GetChildCompilerTypeAtIndex :
    TypeHandle → Z → option (option TypeHandle * Z);
  GetByteSize : TypeHandle → option Z;
  (* Process and value construction *)
  ReadMemory : Target → Z → Z → option (list Z);
  CreateValueObjectFromData :
    string → list Z → Target → ValueObject → option TypeHandle →
    option ValueObject;
}.

Section ValueObjectHelpers.
Context `{D : Debugger}.

(** Modelled from the spec: [ValueObject::GetValueAsUnsigned(fail_value)]
    is declared outside the source file; it answers the scalar the object
    resolves to, and [fail_value] when the object cannot be read. *)
Definition GetValueAsUnsigned (v : ValueObject) (fail_value : Z) : Z :=
  default fail_value (ResolveValue v).

(** The queries of a [CompilerType], which answer the invalid type on
    the invalid type. *)
Definition CompilerType_GetTypeTemplateArgument (ty : option TypeHandle)
    (idx : Z) : option TypeHandle :=
  match ty with Some ty => GetTypeTemplateArgument ty idx | None => None end.

Definition CompilerType_GetFieldAtIndex (ty : option TypeHandle) (idx : Z)
    : option TypeHandle :=
  match ty with Some ty => GetFieldAtIndex ty idx | None => None end.

Definition CompilerType_GetTypedefedType (ty : option TypeHandle)
    : option TypeHandle :=
  match ty with Some ty => GetTypedefedType ty | None => None end.

Definition CompilerType_GetPointerType (ty : option TypeHandle)
    : option TypeHandle :=
  match ty with Some ty => GetPointerType ty | None => None end.

(** [GetTypeSystem().dyn_cast_or_null<TypeSystemClang>()] *)
Definition CompilerType_GetClangTypeSystem (ty : option TypeHandle)
    : option TypeSystemClang :=
  match ty with Some ty => GetClangTypeSystem ty | None => None end.

Definition CompilerType_GetChildCompilerTypeAtIndex (ty : option TypeHandle)
    (idx : Z) : option (option TypeHandle * Z) :=
  match ty with Some ty => GetChildCompilerTypeAtIndex ty idx | None => None end.

Definition CompilerType_GetByteSize (ty : option TypeHandle) : option Z :=
  match ty with Some ty => GetByteSize ty | None => None end.

(** The reference node layout that both front ends synthesize: three
    pointers, a bool and the payload. *)
Definition tree_node_struct (ast_ctx : TypeSystemClang)
    (payload : option TypeHandle) : option TypeHandle :=
  let void_ptr :=
    CompilerType_GetPointerType (GetBasicType ast_ctx eBasicTypeVoid) in
  CreateStructForIdentifier ast_ctx ""
    [("ptr0", void_ptr); ("ptr1", void_ptr); ("ptr2", void_ptr);
     ("cw", GetBasicType ast_ctx eBasicTypeBool); ("payload", payload)].

End ValueObjectHelpers.

(** ** class MapEntry *)

Module MapEntry.
Section with_debugger.
Context `{D : Debugger}.

Record t := mk { m_entry_sp : option ValueObject }.

(** [MapEntry() = default] *)
Definition empty : t := mk None.

(** [explicit MapEntry(ValueObject *entry)] *)
Definition of_ptr (entry : option ValueObject) : t := mk (entry ≫= GetSP).

Definition left (e : t) : option ValueObject :=
  match m_entry_sp e with
  | None => None
  | Some v => GetSyntheticChildAtOffset v 0 (GetCompilerType v)
  end.

Definition right (e : t) : option ValueObject :=
  match m_entry_sp e with
  | None => None
  | Some v =>
      GetSyntheticChildAtOffset v (GetAddressByteSize v) (GetCompilerType v)
  end.

Definition parent (e : t) : option ValueObject :=
  match m_entry_sp e with
  | None => None
  | Some v =>
      GetSyntheticChildAtOffset v (to_uint32 (2 * GetAddressByteSize v))
        (GetCompilerType v)
  end.

Definition value (e : t) : Z :=
  match m_entry_sp e with
  | None => 0
  | Some v => GetValueAsUnsigned v 0
  end.

Definition error (e : t) : bool :=
  match m_entry_sp e with
  | None => true
  | Some v => GetErrorFail v
  end.

Definition null (e : t) : bool := value e =? 0.

Definition GetEntry (e : t) : option ValueObject := m_entry_sp e.

Definition SetEntry (_ : t) (entry : option ValueObject) : t := mk entry.

End with_debugger.
End MapEntry.

(** ** class MapIterator *)

Module MapIterator.
Section with_debugger.
Context `{D : Debugger}.

Record t := mk {
  m_entry : MapEntry.t;
  m_max_depth : Z;
  m_error : bool;
}.

Definition set_entry (it : t) (e : MapEntry.t) : t :=
  mk e (m_max_depth it) (m_error it).

Definition set_error (it : t) (b : bool) : t :=
  mk (m_entry it) (m_max_depth it) b.

(** [MapIterator(ValueObject *entry, size_t depth = 0)] *)
Definition make (entry : option ValueObject) (depth : Z) : t :=
  mk (MapEntry.of_ptr entry) depth false.

Definition value (it : t) : option ValueObject :=
  MapEntry.GetEntry (m_entry it).

Definition is_left_child (x : MapEntry.t) : bool :=
  if MapEntry.null x then false
  else
    let rhs := MapEntry.mk (MapEntry.parent x) in
    let rhs := MapEntry.SetEntry rhs (MapEntry.left rhs) in
    MapEntry.value x =? MapEntry.value rhs.

(** The loop of [tree_min], entered with [x], [left] and [steps]; it
    answers the entry [tree_min] returns and the iterator, whose
    [m_error] the loop may have set. *)
Fixpoint tree_min_loop (fuel : nat) (it : t) (x left : MapEntry.t)
    (steps : Z) : option (MapEntry.t * t) :=
  if MapEntry.null left then Some (x, it)
  else
    match fuel with
    | O => None
    | S fuel' =>
        if MapEntry.error left then Some (MapEntry.empty, set_error it true)
        else
          let x := left in
          let left := MapEntry.SetEntry left (MapEntry.left x) in
          let steps := size_t_succ steps in
          if steps >? m_max_depth it then Some (MapEntry.empty, it)
          else tree_min_loop fuel' it x left steps
    end.

(** Mimicks libc++'s [__tree_min] algorithm. *)
Definition tree_min (fuel : nat) (it : t) (x : MapEntry.t)
    : option (MapEntry.t * t) :=
  if MapEntry.null x then Some (MapEntry.empty, it)
  else tree_min_loop fuel it x (MapEntry.mk (MapEntry.left x)) 0.

(** The upward loop of [next].  The boolean of the answer tells how the
    loop was left: [true] when [next] returned from inside the loop,
    [false] when the loop condition failed and control went on to the
    statement after the loop. *)
Fixpoint next_loop (fuel : nat) (it : t) (steps : Z) : option (bool * t) :=
  if is_left_child (m_entry it) then Some (false, it)
  else
    match fuel with
    | O => None
    | S fuel' =>
        if MapEntry.error (m_entry it) then Some (true, set_error it true)
        else
          let it :=
            set_entry it
              (MapEntry.SetEntry (m_entry it) (MapEntry.parent (m_entry it)))
          in
          let steps := size_t_succ steps in
          if steps >? m_max_depth it
          then Some (true, set_entry it MapEntry.empty)
          else next_loop fuel' it steps
    end.

(** Mimicks libc++'s [__tree_next] algorithm. *)
Definition next (fuel : nat) (it : t) : option t :=
  if MapEntry.null (m_entry it) then Some it
  else
    let right := MapEntry.mk (MapEntry.right (m_entry it)) in
    if negb (MapEntry.null right) then
      '(e, it) ← tree_min fuel it right;
      Some (set_entry it e)
    else
      '(returned, it) ← next_loop fuel it 0;
      if returned : bool then Some it
      else Some (set_entry it (MapEntry.mk (MapEntry.parent (m_entry it)))).

(** The loop of [advance]; [n] is its fuel, [fuel] the fuel of the loops
    inside [next]. *)
Fixpoint advance_loop (fuel n : nat) (it : t) (count steps : Z)
    : option (option ValueObject * t) :=
  if count >? 0 then
    match n with
    | O => None
    | S n' =>
        it ← next fuel it;
        let count := count - 1 in
        let steps := size_t_succ steps in
        if m_error it || MapEntry.null (m_entry it)
           || (steps >? m_max_depth it)
        then Some (None, it)
        else advance_loop fuel n' it count steps
    end
  else Some (MapEntry.GetEntry (m_entry it), it).

Definition advance (fuel : nat) (it : t) (count : Z)
    : option (option ValueObject * t) :=
  if m_error it then Some (None, it)
  else advance_loop fuel fuel it count 0.

End with_debugger.
End MapIterator.

(** ** class LibcxxStdMapSyntheticFrontEnd *)

Module LibcxxStdMapSyntheticFrontEnd.
Section with_debugger.
Context `{D : Debugger}.

Record t := mk {
  m_backend : ValueObject;
  m_tree : option ValueObject;
  m_root_node : option ValueObject;
  m_element_type : option TypeHandle;
  m_skip_size : Z;
  m_count : Z;
  m_iterators : gmap Z MapIterator.t;
}.

Definition set_tree (s : t) (x : option ValueObject) : t :=
  mk (m_backend s) x (m_root_node s) (m_element_type s) (m_skip_size s)
    (m_count s) (m_iterators s).

Definition set_root_node (s : t) (x : option ValueObject) : t :=
  mk (m_backend s) (m_tree s) x (m_element_type s) (m_skip_size s)
    (m_count s) (m_iterators s).

Definition set_element_type (s : t) (x : option TypeHandle) : t :=
  mk (m_backend s) (m_tree s) (m_root_node s) x (m_skip_size s)
    (m_count s) (m_iterators s).

Definition set_skip_size (s : t) (x : Z) : t :=
  mk (m_backend s) (m_tree s) (m_root_node s) (m_element_type s) x
    (m_count s) (m_iterators s).

Definition set_count (s : t) (x : Z) : t :=
  mk (m_backend s) (m_tree s) (m_root_node s) (m_element_type s)
    (m_skip_size s) x (m_iterators s).

Definition set_iterators (s : t) (x : gmap Z MapIterator.t) : t :=
  mk (m_backend s) (m_tree s) (m_root_node s) (m_element_type s)
    (m_skip_size s) (m_count s) x.

(** The answer is the [uint32_t] the function returns: [m_count] is a
    [size_t] and is converted on return. *)
Definition CalculateNumChildren (s : t) : Z * t :=
  if negb (m_count s =? UINT32_MAX) then (to_uint32 (m_count s), s)
  else
    match m_tree s with
    | None => (0, s)
    | Some tree =>
        match GetChildMemberWithName tree "__pair3_" with
        | None => (0, s)
        | Some size_node =>
            match GetFirstValueOfLibCXXCompressedPair size_node with
            | None => (0, s)
            | Some size_node =>
                let s := set_count s (GetValueAsUnsigned size_node 0) in
                (to_uint32 (m_count s), s)
            end
        end
    end.

(** [SyntheticChildrenFrontEnd::CalculateNumChildrenIgnoringErrors()]:
    the count, or 0 when [CalculateNumChildren] answers an error, which
    this override never does. *)
Definition CalculateNumChildrenIgnoringErrors (s : t) : Z * t :=
  CalculateNumChildren s.

(** [m_root_node] is dereferenced without a test: the callers have
    checked that it is not null; a null one is answered as a failure. *)
Definition GetDataType (s : t) : bool * t :=
  if bool_decide (is_Some (m_element_type s)) then (true, s)
  else
    let s := set_element_type s None in
    match m_root_node s with
    | None => (false, s)
    | Some root_node =>
        match Dereference root_node with
        | (None, _) | (Some _, true) => (false, s)
        | (Some _, false) =>
            match GetChildAtNamePath (m_backend s) ["__tree_"; "__pair3_"] with
            | None => (false, s)
            | Some deref =>
                let ty :=
                  CompilerType_GetTypeTemplateArgument
                    (CompilerType_GetTypeTemplateArgument
                       (GetCompilerType deref) 1) 1 in
                if bool_decide (is_Some ty) then
                  let ty := CompilerType_GetFieldAtIndex ty 0 in
                  let ty := CompilerType_GetTypedefedType ty in
                  (bool_decide (is_Some ty), set_element_type s ty)
                else
                  let ty :=
                    CompilerType_GetTypeTemplateArgument
                      (GetCompilerType (m_backend s)) 0 in
                  (bool_decide (is_Some ty), set_element_type s ty)
            end
        end
    end.

Definition GetValueOffset (node : option ValueObject) (s : t) : t :=
  if negb (m_skip_size s =? UINT32_MAX) then s
  else
    match node with
    | None => s
    | Some node =>
        match CompilerType_GetClangTypeSystem (GetCompilerType node) with
        | None => s
        | Some ast_ctx =>
            let tree_node_type :=
              tree_node_struct ast_ctx (m_element_type s) in
            match
              CompilerType_GetChildCompilerTypeAtIndex tree_node_type 4
            with
            | Some (Some _, child_byte_offset) =>
                set_skip_size s (to_uint32 child_byte_offset)
            | _ => s
            end
        end
    end.

(** [GetKeyValuePair] and [GetChildAtIndex] call each other: the former
    calls [GetChildAtIndex(0)] when [idx > 0] and the offset of the
    payload is still unknown, and discards what it returns.  Both are
    written over that call, [child0], and the knot is tied below. *)
Definition GetKeyValuePair_with (child0 : t → option t) (fuel : nat)
    (idx max_depth : Z) (s : t) : option (option ValueObject * t) :=
  let iterator := MapIterator.make (m_root_node s) max_depth in
  let need_to_skip := idx >? 0 in
  let '(iterator, actual_advance) :=
    if need_to_skip then
      match m_iterators s !! (idx - 1) with
      | Some cached_iterator => (cached_iterator, 1)
      | None => (iterator, idx)
      end
    else (iterator, idx) in
  '(iterated_sp, iterator) ← MapIterator.advance fuel iterator actual_advance;
  match iterated_sp with
  | None => Some (None, s)
  | Some iterated =>
      let '(ok, s) := GetDataType s in
      if negb ok then Some (None, s)
      else if negb need_to_skip then
        match Dereference iterated with
        | (None, _) | (Some _, true) => Some (None, s)
        | (Some iterated, false) =>
            let s := GetValueOffset (Some iterated) s in
            match
              GetSyntheticChildAtOffset iterated (m_skip_size s)
                (m_element_type s)
            with
            | None => Some (None, s)
            | Some iterated =>
                Some (Some iterated,
                      set_iterators s (<[idx := iterator]> (m_iterators s)))
            end
        end
      else
        s ← (if m_skip_size s =? UINT32_MAX then child0 s else Some s);
        if m_skip_size s =? UINT32_MAX then Some (None, s)
        else
          match
            GetSyntheticChildAtOffset iterated (m_skip_size s)
              (m_element_type s)
          with
          | None => Some (None, s)
          | Some iterated =>
              Some (Some iterated,
                    set_iterators s (<[idx := iterator]> (m_iterators s)))
          end
  end.

Definition g_cc_ : string := "__cc_".
Definition g_cc : string := "__cc".
Definition g_nc : string := "__nc".

Definition is_cc (child : ValueObject) : bool :=
  bool_decide (GetName child = g_cc_) || bool_decide (GetName child = g_cc).

(** The tail of [GetChildAtIndex]: the pair is cloned under the name
    [[idx]] and one or two levels of wrapper are removed. *)
Definition clone_and_unwrap (key_val : ValueObject) (idx : Z)
    : option ValueObject :=
  let name := "[" +:+ pretty idx +:+ "]" in
  match Clone key_val name with
  | None => None
  | Some potential_child =>
      let n := GetNumChildrenIgnoringErrors potential_child in
      if n =? 1 then
        match ValueObject_GetChildAtIndex potential_child 0 with
        | Some child0 =>
            if is_cc child0 then Clone child0 name else Some potential_child
        | None => Some potential_child
        end
      else if n =? 2 then
        match ValueObject_GetChildAtIndex potential_child 0,
              ValueObject_GetChildAtIndex potential_child 1 with
        | Some child0, Some child1 =>
            if is_cc child0 && bool_decide (GetName child1 = g_nc)
            then Clone child0 name
            else Some potential_child
        | _, _ => Some potential_child
        end
      else Some potential_child
  end.

Definition GetChildAtIndex_with
    (GetKeyValuePair : nat → Z → Z → t → option (option ValueObject * t))
    (fuel : nat) (idx : Z) (s : t) : option (option ValueObject * t) :=
  let '(num_children, s) := CalculateNumChildrenIgnoringErrors s in
  if idx >=? num_children then Some (None, s)
  else
    match m_tree s, m_root_node s with
    | Some _, Some _ =>
        '(key_val_sp, s) ← GetKeyValuePair fuel idx num_children s;
        match key_val_sp with
        | None => Some (None, set_tree s None)
        | Some key_val => Some (clone_and_unwrap key_val idx, s)
        end
    | _, _ => Some (None, s)
    end.

(** [GetKeyValuePair(0, _)] makes no call to [GetChildAtIndex], so the
    recursion is two calls deep. *)
Definition GetChildAtIndex_first (fuel : nat) (s : t) : option t :=
  snd <$> GetChildAtIndex_with (GetKeyValuePair_with (λ s, Some s)) fuel 0 s.

Definition GetKeyValuePair (fuel : nat) (idx max_depth : Z) (s : t)
    : option (option ValueObject * t) :=
  GetKeyValuePair_with (GetChildAtIndex_first fuel) fuel idx max_depth s.

Definition GetChildAtIndex (fuel : nat) (idx : Z) (s : t)
    : option (option ValueObject * t) :=
  GetChildAtIndex_with GetKeyValuePair fuel idx s.

Definition Update (s : t) : t :=
  let s := set_count s UINT32_MAX in
  let s := set_root_node (set_tree s None) None in
  let s := set_iterators s ∅ in
  let s := set_tree s (GetChildMemberWithName (m_backend s) "__tree_") in
  match m_tree s with
  | None => s
  | Some tree =>
      set_root_node s (GetChildMemberWithName tree "__begin_node_")
  end.

(** The constructor: the members' initializers, then [Update()]. *)
Definition create (valobj : ValueObject) : t :=
  Update (mk valobj None None None UINT32_MAX UINT32_MAX ∅).

End with_debugger.
End LibcxxStdMapSyntheticFrontEnd.

(** ** class LibCxxMapIteratorSyntheticFrontEnd *)

Module LibCxxMapIteratorSyntheticFrontEnd.
Section with_debugger.
Context `{D : Debugger}.

Record t := mk {
  m_backend : ValueObject;
  m_pair_ptr : option ValueObject;
  m_pair_sp : option ValueObject;
}.

Definition set_pair_ptr (s : t) (x : option ValueObject) : t :=
  mk (m_backend s) x (m_pair_sp s).

Definition set_pair_sp (s : t) (x : option ValueObject) : t :=
  mk (m_backend s) (m_pair_ptr s) x.

Definition Update (s : t) : t :=
  let s := set_pair_sp s None in
  let s := set_pair_ptr s None in
  match GetSP (m_backend s) with
  | None => s
  | Some valobj =>
  match GetTargetSP valobj with
  | None => s
  | Some target =>
  let s :=
    set_pair_ptr s (GetValueForExpressionPath valobj ".__i_.__ptr_->__value_")
  in
  match m_pair_ptr s with
  | Some _ => s
  | None =>
  let s := set_pair_ptr s (GetValueForExpressionPath valobj ".__i_.__ptr_") in
  match m_pair_ptr s with
  | None => s
  | Some pair_ptr =>
  match GetChildMemberWithName valobj "__i_" with
  | None => set_pair_ptr s None
  | Some i_ =>
  let pair_type :=
    CompilerType_GetTypeTemplateArgument (GetCompilerType i_) 0 in
  let pair_type := CompilerType_GetFieldAtIndex pair_type 0 in
  match pair_type with
  | None => set_pair_ptr s None
  | Some _ =>
  let addr := GetValueAsUnsigned pair_ptr LLDB_INVALID_ADDRESS in
  let s := set_pair_ptr s None in
  if negb (addr =? 0) && negb (addr =? LLDB_INVALID_ADDRESS) then
    match CompilerType_GetClangTypeSystem pair_type with
    | None => s
    | Some ast_ctx =>
    let tree_node_type := tree_node_struct ast_ctx pair_type in
    match CompilerType_GetByteSize tree_node_type with
    | None => s
    | Some size =>
    match ReadMemory target addr size with
    | None => s
    | Some buffer =>
    match
      CreateValueObjectFromData "pair" buffer target valobj tree_node_type
    with
    | None => s
    | Some pair_sp => set_pair_sp s (ValueObject_GetChildAtIndex pair_sp 4)
    end end end end
  else s
  end end end end end end.

Definition CalculateNumChildren (_ : t) : Z := 2.

Definition GetChildAtIndex (idx : Z) (s : t) : option ValueObject :=
  match m_pair_ptr s with
  | Some pair_ptr => ValueObject_GetChildAtIndex pair_ptr idx
  | None =>
      match m_pair_sp s with
      | Some pair_sp => ValueObject_GetChildAtIndex pair_sp idx
      | None => None
      end
  end.

Definition GetIndexOfChildWithName (name : string) : Z :=
  if bool_decide (name = "first") then 0
  else if bool_decide (name = "second") then 1
  else UINT32_MAX.

(** The constructor. *)
Definition create (valobj : ValueObject) : t := Update (mk valobj None None).

End with_debugger.
End LibCxxMapIteratorSyntheticFrontEnd.

(** * Trees in the inspected memory

    The vocabulary of the specification: the shape of a tree of node
    addresses, and what it means for the inspected memory to hold it. *)

Inductive tree :=
| Leaf
| Node (l : tree) (a : Z) (r : tree).

(** The address of the root; the null pointer for the empty tree. *)
Definition root_addr (t : tree) : Z :=
  match t with Leaf => 0 | Node _ a _ => a end.

Fixpoint inorder (t : tree) : list Z :=
  match t with
  | Leaf => []
  | Node l a r => inorder l ++ a :: inorder r
  end.

Fixpoint tree_size (t : tree) : nat :=
  match t with
  | Leaf => 0
  | Node l _ r => S (tree_size l + tree_size r)
  end.

Fixpoint leftmost (t : tree) : Z :=
  match t with
  | Leaf => 0
  | Node Leaf a _ => a
  | Node l _ _ => leftmost l
  end.

Fixpoint rightmost (t : tree) : Z :=
  match t with
  | Leaf => 0
  | Node _ a Leaf => a
  | Node _ _ r => rightmost r
  end.

(** The number of nodes on the left spine: the root and the left
    children below it. *)
Fixpoint left_spine (t : tree) : nat :=
  match t with
  | Leaf => 0
  | Node l _ _ => S (left_spine l)
  end.

(** The number of links from the rightmost node up to the root. *)
Fixpoint right_depth (t : tree) : nat :=
  match t with
  | Leaf => 0
  | Node _ _ Leaf => 0
  | Node _ _ r => S (right_depth r)
  end.

(** [adjacent t a b]: [b] is the in-order successor of [a] in [t]. *)
Inductive adjacent : tree → Z → Z → Prop :=
| adjacent_left l c r a b : adjacent l a b → adjacent (Node l c r) a b
| adjacent_right l c r a b : adjacent r a b → adjacent (Node l c r) a b
| adjacent_up l c r : l ≠ Leaf → adjacent (Node l c r) (rightmost l) c
| adjacent_down l c r : r ≠ Leaf → adjacent (Node l c r) c (leftmost r).

Section Shape.
Context `{D : Debugger}.

(** The type of the node pointers of the container. *)
Context (ty : option TypeHandle).

(** The object [v] is a readable node pointer that holds [a]. *)
Definition points_to (v : ValueObject) (a : Z) : Prop :=
  ResolveValue v = Some a ∧ GetErrorFail v = false ∧ GetCompilerType v = ty.

Definition entry_at (e : MapEntry.t) (a : Z) : Prop :=
  ∃ v, MapEntry.m_entry_sp e = Some v ∧ points_to v a.

(** What reading a child pointer gives: the root of the subtree, or a
    null entry when there is none. *)
Definition child_is (o : option ValueObject) (t : tree) : Prop :=
  match t with
  | Leaf => MapEntry.null (MapEntry.mk o) = true
  | Node _ a _ => entry_at (MapEntry.mk o) a
  end.

(** The node at [a] has the subtrees [l] and [r] and the parent [p],
    through whichever object points to it. *)
Definition node_at (a : Z) (l r : tree) (p : Z) : Prop :=
  ∀ v, points_to v a →
    child_is (MapEntry.left (MapEntry.mk (Some v))) l
    ∧ child_is (MapEntry.right (MapEntry.mk (Some v))) r
    ∧ entry_at (MapEntry.mk (MapEntry.parent (MapEntry.mk (Some v)))) p.

(** The memory holds the tree [t] below the node at [p]. *)
Fixpoint shaped (t : tree) (p : Z) : Prop :=
  match t with
  | Leaf => True
  | Node l a r => node_at a l r p ∧ shaped l a ∧ shaped r a
  end.

(** The entries the upward loop of [next] and the loop of [tree_min]
    stand on, one after the other. *)
Fixpoint ancestor (n : nat) (e : MapEntry.t) : MapEntry.t :=
  match n with
  | O => e
  | S n => ancestor n (MapEntry.mk (MapEntry.parent e))
  end.

Fixpoint descendant (n : nat) (e : MapEntry.t) : MapEntry.t :=
  match n with
  | O => e
  | S n => descendant n (MapEntry.mk (MapEntry.left e))
  end.







(** The key of a pair: the scalar of its first child. *)
Definition pair_key (p : ValueObject) : option Z :=
  ValueObject_GetChildAtIndex p 0 ≫= ResolveValue.

End Shape.

(** A search tree for the keys [key] of the nodes. *)
Fixpoint bst (key : Z → Z) (t : tree) : Prop :=
  match t with
  | Leaf => True
  | Node l a r =>
      bst key l ∧ bst key r
      ∧ Forall (λ x, key x < key a) (inorder l)
      ∧ Forall (λ x, key a < key x) (inorder r)
  end.

(** * The view as a function of the inspected process

    What the front end of the container [b] reads from a process that
    does not change between the queries: the count, the first node, the
    element type, the offset of the payload, and the payload of a node. *)

Section ViewSpec.
Context `{D : Debugger}.

Local Abbreviation View := LibcxxStdMapSyntheticFrontEnd.t.

Definition tree_of (b : ValueObject) : option ValueObject :=
  LibcxxStdMapSyntheticFrontEnd.m_tree
    (LibcxxStdMapSyntheticFrontEnd.create b).

Definition root_of (b : ValueObject) : option ValueObject :=
  LibcxxStdMapSyntheticFrontEnd.m_root_node
    (LibcxxStdMapSyntheticFrontEnd.create b).

(** The size field of the control block: the first element of the
    compressed pair [__pair3_] of the tree. *)
Definition size_field (s : View) : option ValueObject :=
  match LibcxxStdMapSyntheticFrontEnd.m_tree s with
  | Some tree =>
      match GetChildMemberWithName tree "__pair3_" with
      | Some pair3 => GetFirstValueOfLibCXXCompressedPair pair3
      | None => None
      end
  | None => None
  end.

(** The count a view reads when it does not know it yet. *)
Definition count_of (b : ValueObject) : Z :=
  (LibcxxStdMapSyntheticFrontEnd.CalculateNumChildren
     (LibcxxStdMapSyntheticFrontEnd.create b)).1.

(** The cursor [GetKeyValuePair] constructs. *)
Definition fresh_cursor (b : ValueObject) : MapIterator.t :=
  MapIterator.make (root_of b) (count_of b).

(** The element type [GetDataType] determines, invalid when it fails. *)
Definition type_of (b : ValueObject) : option TypeHandle :=
  LibcxxStdMapSyntheticFrontEnd.m_element_type
    (LibcxxStdMapSyntheticFrontEnd.GetDataType
       (LibcxxStdMapSyntheticFrontEnd.create b)).2.

(** The object of the first node, and the node it points to. *)
Definition first_node (b : ValueObject) : option ValueObject :=
  MapEntry.GetEntry (MapEntry.of_ptr (root_of b)).

Definition deref_of (v : ValueObject) : option ValueObject :=
  match Dereference v with
  | (Some d, false) => Some d
  | _ => None
  end.

Definition first_deref (b : ValueObject) : option ValueObject :=
  first_node b ≫= deref_of.

(** The offset [GetValueOffset] resolves on the first node, [UINT32_MAX]
    when it does not. *)
Definition offset_of (b : ValueObject) : Z :=
  match first_deref b with
  | Some d =>
      LibcxxStdMapSyntheticFrontEnd.m_skip_size
        (LibcxxStdMapSyntheticFrontEnd.GetValueOffset (Some d)
           (LibcxxStdMapSyntheticFrontEnd.set_element_type
              (LibcxxStdMapSyntheticFrontEnd.create b) (type_of b)))
  | None => UINT32_MAX
  end.

(** The key/value pair of the node [v] that the walk to [idx] arrived
    at: index 0 reads it through the dereferenced node and whatever
    offset was resolved, the other indices through the pointer and need
    the offset resolved. *)
Definition key_value_at (b : ValueObject) (idx : Z) (v : ValueObject)
    : option ValueObject :=
  if bool_decide (is_Some (type_of b)) then
    if idx >? 0 then
      if offset_of b =? UINT32_MAX then None
      else GetSyntheticChildAtOffset v (offset_of b) (type_of b)
    else
      deref_of v ≫= λ d, GetSyntheticChildAtOffset d (offset_of b) (type_of b)
  else None.

Definition payload_at (b : ValueObject) (idx : Z) (v : ValueObject)
    : option ValueObject :=
  key_value_at b idx v
  ≫= λ kv, LibcxxStdMapSyntheticFrontEnd.clone_and_unwrap kv idx.

(** The states of a view of [b]: what it has cached is what the process
    holds. *)
Record view_inv (b : ValueObject) (s : View) : Prop := {
  inv_backend : LibcxxStdMapSyntheticFrontEnd.m_backend s = b;
  inv_tree :
    LibcxxStdMapSyntheticFrontEnd.m_tree s = None
    ∨ LibcxxStdMapSyntheticFrontEnd.m_tree s = tree_of b;
  inv_root : LibcxxStdMapSyntheticFrontEnd.m_root_node s = root_of b;
  inv_count :
    LibcxxStdMapSyntheticFrontEnd.m_count s = UINT32_MAX
    ∨ to_uint32 (LibcxxStdMapSyntheticFrontEnd.m_count s) = count_of b;
  inv_type :
    LibcxxStdMapSyntheticFrontEnd.m_element_type s = None
    ∨ LibcxxStdMapSyntheticFrontEnd.m_element_type s = type_of b;
  inv_skip :
    LibcxxStdMapSyntheticFrontEnd.m_skip_size s = UINT32_MAX
    ∨ (is_Some (LibcxxStdMapSyntheticFrontEnd.m_element_type s)
       ∧ is_Some (first_deref b)
       ∧ LibcxxStdMapSyntheticFrontEnd.m_skip_size s = offset_of b);
  inv_cache :
    is_Some (LibcxxStdMapSyntheticFrontEnd.m_tree s) →
    ∀ k it,
      LibcxxStdMapSyntheticFrontEnd.m_iterators s !! k = Some it →
      0 ≤ k < count_of b
      ∧ ∃ fuel v,
          MapIterator.advance fuel (fresh_cursor b) k = Some (Some v, it);
}.

(** What [GetKeyValuePair] relies on when it calls [GetChildAtIndex(0)]
    for the offset of the payload. *)
Definition child0_spec (b : ValueObject) (child0 : View → option View)
    : Prop :=
  ∀ s s',
    view_inv b s →
    is_Some (LibcxxStdMapSyntheticFrontEnd.m_tree s) →
    is_Some (LibcxxStdMapSyntheticFrontEnd.m_element_type s) →
    0 < count_of b →
    child0 s = Some s' →
    view_inv b s'
    ∧ LibcxxStdMapSyntheticFrontEnd.m_skip_size s' = offset_of b
    ∧ LibcxxStdMapSyntheticFrontEnd.m_element_type s'
      = LibcxxStdMapSyntheticFrontEnd.m_element_type s
    ∧ (LibcxxStdMapSyntheticFrontEnd.m_tree s'
       = LibcxxStdMapSyntheticFrontEnd.m_tree s
       ∨ first_node b ≫= key_value_at b 0 = None).

(** A valid container: the process holds the tree [t] of the map [b],
    the size field says how many nodes it has, the first-element
    reference points to its leftmost node, and the layout and the pair
    of every node can be read. *)
Record valid_container (ty : option TypeHandle) (b : ValueObject)
    (t : tree) : Prop := {
  vc_count : count_of b = Z.of_nat (tree_size t);
  vc_tree : is_Some (tree_of b);
  vc_begin :
    t ≠ Leaf → ∃ v, first_node b = Some v ∧ points_to ty v (leftmost t);
  vc_shaped : ∃ p, shaped ty t p;
  vc_NoDup : NoDup (inorder t);
  vc_not_null : 0 ∉ inorder t;
  vc_payload :
    ∀ (i : nat) a v,
      inorder t !! i = Some a → points_to ty v a →
      is_Some (payload_at b (Z.of_nat i) v);
}.

(** The keys of the tree are the keys of the pairs that are read. *)
Definition keys_of (ty : option TypeHandle) (b : ValueObject) (t : tree)
    (key : Z → Z) : Prop :=
  ∀ (i : nat) a v p,
    inorder t !! i = Some a → points_to ty v a →
    payload_at b (Z.of_nat i) v = Some p →
    pair_key p = Some (key a).

(** The states a view of [b] goes through: it is created, refreshed,
    asked for its count and asked for its children. *)
Inductive reachable (b : ValueObject) : View → Prop :=
| reachable_create :
    reachable b (LibcxxStdMapSyntheticFrontEnd.create b)
| reachable_Update s :
    reachable b s → reachable b (LibcxxStdMapSyntheticFrontEnd.Update s)
| reachable_CalculateNumChildren s :
    reachable b s →
    reachable b (LibcxxStdMapSyntheticFrontEnd.CalculateNumChildren s).2
| reachable_GetChildAtIndex s fuel idx r s' :
    reachable b s → 0 ≤ idx →
    LibcxxStdMapSyntheticFrontEnd.GetChildAtIndex fuel idx s = Some (r, s') →
    reachable b s'.

(** The children at the indices [idxs], asked for one after the other. *)
Fixpoint consume (fuel : nat) (idxs : list Z) (s : View)
    : option (list (option ValueObject) * View) :=
  match idxs with
  | [] => Some ([], s)
  | idx :: idxs =>
      '(r, s) ← LibcxxStdMapSyntheticFrontEnd.GetChildAtIndex fuel idx s;
      '(rs, s) ← consume fuel idxs s;
      Some (r :: rs, s)
  end.

(** The state of the view after those queries. *)
Definition state_after (fuel : nat) (idxs : list Z) (s : View) : View :=
  match consume fuel idxs s with
  | Some (_, s') => s'
  | None => s
  end.

End ViewSpec.

(** * A small inspected process

    A debugger over a word-addressed memory, for the concrete scenarios:
    the map's tree nodes are laid out as libc++ lays them out on a 64-bit
    target ([__left_] at 0, [__right_] at 8, [__parent_] at 16,
    [__is_black_] at 24, the pair at 32). *)

Module Toy.

Inductive value_object :=
| VMap                             (* the std::map *)
| VTree                            (* its __tree_ *)
| VPair3                           (* the tree's __pair3_ *)
| VSize                            (* the first value of __pair3_ *)
| VPtr (a : Z)                     (* a node pointer that holds [a] *)
| VFault                           (* a node pointer that could not be read *)
| VNode (a : Z)                    (* the node at [a] *)
| VPair (a : Z) (name : string)    (* the pair at [a] *)
| VField (a : Z) (name : string)   (* a member of the pair at [a] *)
| VIter                            (* a std::map iterator *)
| VIterI                           (* its __i_ *)
| VIterPtr                         (* its __i_.__ptr_ *)
| VBlock (words : list Z).         (* an object made of bytes read *)

Inductive type_handle :=
| TMap | TPair3 | TAlloc | TNodeT | TValue | TElem | TKey | TNodePtr | TNode
| TTreeIter | TVoid | TBool | TVoidPtr | TStruct.

Record world := {
  w_mem : gmap Z Z;              (* the words that can be read *)
  w_err : list Z;                (* the pointers whose object reports an error *)
  w_begin : Z;                   (* __begin_node_ *)
  w_size : option Z;             (* the size field, if it can be read *)
  w_payload_offset : option Z;   (* what the layout query answers *)
  w_iter_value : bool;           (* whether .__i_.__ptr_->__value_ resolves *)
  w_iter_ptr : option Z;         (* the iterator's __ptr_, if it can be read *)
}.

Section with_world.
Variable w : world.

Definition read_ptr (a : Z) : value_object :=
  match w_mem w !! a with Some x => VPtr x | None => VFault end.

Definition resolve_value (v : value_object) : option Z :=
  match v with
  | VPtr a => Some a
  | VSize => w_size w
  | VField a "first" => w_mem w !! a
  | VField a "second" => w_mem w !! (a + 8)
  | VIterPtr => w_iter_ptr w
  | _ => None
  end.

Definition error_fail (v : value_object) : bool :=
  match v with
  | VPtr a => bool_decide (a ∈ w_err w)
  | VFault => true
  | _ => false
  end.

Definition compiler_type (v : value_object) : option type_handle :=
  match v with
  | VMap => Some TMap
  | VPair3 => Some TPair3
  | VPtr _ | VFault | VIterPtr => Some TNodePtr
  | VNode _ => Some TNode
  | VPair _ _ => Some TElem
  | VIterI => Some TTreeIter
  | _ => None
  end.

Definition synthetic_child (v : value_object) (off : Z)
    (ty : option type_handle) : option value_object :=
  match v, ty with
  | VPtr a, Some TNodePtr => Some (read_ptr (a + off))
  | VFault, Some TNodePtr => Some VFault
  | VPtr a, Some TElem | VNode a, Some TElem => Some (VPair (a + off) "")
  | _, _ => None
  end.

Definition child_member (v : value_object) (name : string)
    : option value_object :=
  match v, name with
  | VMap, "__tree_" => Some VTree
  | VTree, "__begin_node_" => Some (VPtr (w_begin w))
  | VTree, "__pair3_" => Some VPair3
  | VIter, "__i_" => Some VIterI
  | _, _ => None
  end.

Definition child_at_path (v : value_object) (path : list string)
    : option value_object :=
  match v, path with
  | VMap, ["__tree_"; "__pair3_"] => Some VPair3
  | _, _ => None
  end.

Definition expression_path (v : value_object) (path : string)
    : option value_object :=
  match v, path with
  | VIter, ".__i_.__ptr_->__value_" =>
      if w_iter_value w
      then (λ a, VPair (a + 32) "__value_") <$> w_iter_ptr w
      else None
  | VIter, ".__i_.__ptr_" => Some VIterPtr
  | _, _ => None
  end.

Definition dereference (v : value_object) : option value_object * bool :=
  match v with
  | VPtr a =>
      if bool_decide (is_Some (w_mem w !! a)) then (Some (VNode a), false)
      else (None, true)
  | _ => (None, true)
  end.

Definition clone (v : value_object) (name : string) : option value_object :=
  match v with
  | VPair a _ => Some (VPair a name)
  | _ => None
  end.

Definition num_children (v : value_object) : Z :=
  match v with VPair _ _ => 2 | _ => 0 end.

Definition child_at_index (v : value_object) (idx : Z)
    : option value_object :=
  match v, idx with
  | VPair a _, 0 => Some (VField a "first")
  | VPair a _, 1 => Some (VField a "second")
  | VBlock words, 4 => Some (VBlock (drop 4%nat words))
  | _, _ => None
  end.

Definition name_of (v : value_object) : string :=
  match v with VPair _ n | VField _ n => n | _ => "" end.

Definition template_argument (ty : type_handle) (idx : Z)
    : option type_handle :=
  match ty, idx with
  | TPair3, 1 => Some TAlloc
  | TAlloc, 1 => Some TNodeT
  | TMap, 0 => Some TKey
  | TTreeIter, 0 => Some TNodeT
  | _, _ => None
  end.

Definition field_at_index (ty : type_handle) (idx : Z) : option type_handle :=
  match ty, idx with
  | TNodeT, 0 => Some TValue
  | _, _ => None
  end.

Definition typedefed_type (ty : type_handle) : option type_handle :=
  match ty with TValue => Some TElem | _ => None end.

Definition basic_type (_ : unit) (b : BasicType) : option type_handle :=
  Some (match b with eBasicTypeVoid => TVoid | eBasicTypeBool => TBool end).

Definition pointer_type (ty : type_handle) : option type_handle :=
  match ty with TVoid => Some TVoidPtr | _ => None end.

Definition child_type_at_index (ty : type_handle) (idx : Z)
    : option (option type_handle * Z) :=
  match ty, idx with
  | TStruct, 4 => (λ off, (Some TElem, off)) <$> w_payload_offset w
  | _, _ => None
  end.

Definition byte_size (ty : type_handle) : option Z :=
  match ty with TStruct => Some 40 | _ => None end.

(** The block at [addr], as its five words. *)
Definition read_memory (_ : unit) (addr size : Z) : option (list Z) :=
  match w_mem w !! addr with
  | Some _ =>
      Some ((λ off, default 0 (w_mem w !! (addr + off))) <$> [0; 8; 16; 24; 32])
  | None => None
  end.

#[local] Instance debugger : Debugger := {|
  ValueObject := value_object;
  TypeHandle := type_handle;
  TypeSystemClang := unit;
  Target := unit;
  GetSP v := Some v;
  ResolveValue := resolve_value;
  GetErrorFail := error_fail;
  GetCompilerType := compiler_type;
  GetAddressByteSize _ := 8;
  GetSyntheticChildAtOffset := synthetic_child;
  GetChildMemberWithName := child_member;
  GetChildAtNamePath := child_at_path;
  GetValueForExpressionPath := expression_path;
  Dereference := dereference;
  Clone := clone;
  GetNumChildrenIgnoringErrors := num_children;
  ValueObject_GetChildAtIndex := child_at_index;
  GetName := name_of;
  GetTargetSP _ := Some tt;
  GetFirstValueOfLibCXXCompressedPair v :=
    match v with VPair3 => Some VSize | _ => None end;
  GetTypeTemplateArgument := template_argument;
  GetFieldAtIndex := field_at_index;
  GetTypedefedType := typedefed_type;
  GetClangTypeSystem _ := Some tt;
  GetBasicType := basic_type;
  GetPointerType := pointer_type;
  CreateStructForIdentifier _ _ _ := Some TStruct;
  GetChildCompilerTypeAtIndex := child_type_at_index;
  GetByteSize := byte_size;
  ReadMemory := read_memory;
  CreateValueObjectFromData _ words _ _ _ := Some (VBlock words);
|}.

End with_world.

(** A node at [a]: its three pointers and its key. *)
Definition node (a l r p key : Z) : list (Z * Z) :=
  [(a, l); (a + 8, r); (a + 16, p); (a + 32, key); (a + 40, 10 * key)].

(** The map [{1, 2, 3}]: the end node at 0x1000, node(2) at 0x2000 the
    root, node(1) at 0x3000 its left child, node(3) at 0x4000 its right
    child. *)
Definition three_mem : gmap Z Z :=
  list_to_map
    ([(4096, 8192)] ++ node 8192 12288 16384 4096 2
       ++ node 12288 0 0 8192 1 ++ node 16384 0 0 8192 3).

Definition three : world :=
  {| w_mem := three_mem; w_err := []; w_begin := 12288; w_size := Some 3;
     w_payload_offset := Some 32; w_iter_value := false;
     w_iter_ptr := None |}.

Definition three_tree : tree :=
  Node (Node Leaf 12288 Leaf) 8192 (Node Leaf 16384 Leaf).

(** The key stored in the node at [a]. *)
Definition three_key (a : Z) : Z := default 0 (three_mem !! (a + 32)).

(** A corrupted map of two elements: the nodes at 0x3000 and 0x4000 have
    no children and are each the parent of the other. *)
Definition cyclic : world :=
  {| w_mem := list_to_map (node 12288 0 0 16384 1 ++ node 16384 0 0 12288 2);
     w_err := []; w_begin := 12288; w_size := Some 2;
     w_payload_offset := Some 32; w_iter_value := false;
     w_iter_ptr := None |}.

(** A corrupted map of two elements: the left spine below the right
    child of the first node never ends. *)
Definition left_cyclic : world :=
  {| w_mem := list_to_map (node 12288 0 16384 0 1 ++ node 16384 16384 0 0 2);
     w_err := []; w_begin := 12288; w_size := Some 2;
     w_payload_offset := Some 32; w_iter_value := false;
     w_iter_ptr := None |}.



(** The map [{1, 2, 3}] in a process whose layout query fails. *)
Definition no_layout : world :=
  {| w_mem := three_mem; w_err := []; w_begin := 12288; w_size := Some 3;
     w_payload_offset := None; w_iter_value := false; w_iter_ptr := None |}.

(** A map whose size field holds [2 ^ 32]. *)
Definition huge : world :=
  {| w_mem := three_mem; w_err := []; w_begin := 12288;
     w_size := Some 4294967296; w_payload_offset := Some 32;
     w_iter_value := false; w_iter_ptr := None |}.

(** Iterators into the map [{1, 2, 3}]: one whose pointer is null, one
    whose pointer cannot be read, one at node(2). *)
Definition null_iterator : world :=
  {| w_mem := three_mem; w_err := []; w_begin := 12288; w_size := Some 3;
     w_payload_offset := Some 32; w_iter_value := false;
     w_iter_ptr := Some 0 |}.

Definition unreadable_iterator : world :=
  {| w_mem := three_mem; w_err := []; w_begin := 12288; w_size := Some 3;
     w_payload_offset := Some 32; w_iter_value := false;
     w_iter_ptr := None |}.

Definition root_iterator : world :=
  {| w_mem := three_mem; w_err := []; w_begin := 12288; w_size := Some 3;
     w_payload_offset := Some 32; w_iter_value := false;
     w_iter_ptr := Some 8192 |}.

End Toy.

(** * The creators *)

Section Creators.
Context `{D : Debugger}.

(** [LibcxxStdMapSyntheticFrontEndCreator]: a front end for the object,
    none for a null pointer. *)
Definition LibcxxStdMapSyntheticFrontEndCreator
    (valobj_sp : option ValueObject)
    : option LibcxxStdMapSyntheticFrontEnd.t :=
  match valobj_sp with
  | Some valobj => Some (LibcxxStdMapSyntheticFrontEnd.create valobj)
  | None => None
  end.

(** [LibCxxMapIteratorSyntheticFrontEndCreator] *)
Definition LibCxxMapIteratorSyntheticFrontEndCreator
    (valobj_sp : option ValueObject)
    : option LibCxxMapIteratorSyntheticFrontEnd.t :=
  match valobj_sp with
  | Some valobj => Some (LibCxxMapIteratorSyntheticFrontEnd.create valobj)
  | None => None
  end.

(** What one query for the child [idx] may change in a view: not the
    backend and not the first-element reference; the count only by
    computing it; the tree pointer only by clearing it; the element type
    and the offset of the payload only while they are unresolved; of the
    cached cursors only those of [idx] and of 0. *)
Definition query_frame (idx : Z) (s s' : LibcxxStdMapSyntheticFrontEnd.t)
    : Prop :=
  LibcxxStdMapSyntheticFrontEnd.m_backend s'
  = LibcxxStdMapSyntheticFrontEnd.m_backend s
  ∧ LibcxxStdMapSyntheticFrontEnd.m_root_node s'
    = LibcxxStdMapSyntheticFrontEnd.m_root_node s
  ∧ LibcxxStdMapSyntheticFrontEnd.m_count s'
    = LibcxxStdMapSyntheticFrontEnd.m_count
        (LibcxxStdMapSyntheticFrontEnd.CalculateNumChildren s).2
  ∧ (LibcxxStdMapSyntheticFrontEnd.m_tree s'
     = LibcxxStdMapSyntheticFrontEnd.m_tree s
     ∨ LibcxxStdMapSyntheticFrontEnd.m_tree s' = None)
  ∧ (is_Some (LibcxxStdMapSyntheticFrontEnd.m_element_type s) →
     LibcxxStdMapSyntheticFrontEnd.m_element_type s'
     = LibcxxStdMapSyntheticFrontEnd.m_element_type s)
  ∧ (LibcxxStdMapSyntheticFrontEnd.m_skip_size s ≠ UINT32_MAX →
     LibcxxStdMapSyntheticFrontEnd.m_skip_size s'
     = LibcxxStdMapSyntheticFrontEnd.m_skip_size s)
  ∧ ∀ k, k ≠ idx → k ≠ 0 →
      LibcxxStdMapSyntheticFrontEnd.m_iterators s' !! k
      = LibcxxStdMapSyntheticFrontEnd.m_iterators s !! k.

End Creators.

(** An iterator at node(2) of the map [{1, 2, 3}] in a process that
    exposes the symbolic layout, so that [.__i_.__ptr_->__value_]
    resolves. *)
Definition symbolic_iterator : Toy.world :=
  {| Toy.w_mem := Toy.three_mem; Toy.w_err := []; Toy.w_begin := 12288;
     Toy.w_size := Some 3; Toy.w_payload_offset := Some 32;
     Toy.w_iter_value := true; Toy.w_iter_ptr := Some 8192 |}.


(** * Verification *)

(** ** The cursor *)

Section Cursor.
Context `{D : Debugger}.

Implicit Types (it : MapIterator.t) (e x : MapEntry.t) (fuel n : nat).

Lemma size_t_succ_small z : 0 ≤ z < 2 ^ 64 - 1 → size_t_succ z = z + 1.
Proof. intros H. unfold size_t_succ. apply Z.mod_small. lia. Qed.

(** A walk leaves the budget of the cursor as it is. *)
Lemma tree_min_loop_max_depth fuel it x l steps r it' :
  MapIterator.tree_min_loop fuel it x l steps = Some (r, it') →
  MapIterator.m_max_depth it' = MapIterator.m_max_depth it.
Proof.
  revert x l steps. induction fuel as [|fuel IH]; intros x l steps; simpl.
  - destruct (MapEntry.null l); [|done]. by intros [= _ <-].
  - destruct (MapEntry.null l); [by intros [= _ <-]|].
    destruct (MapEntry.error l); [by intros [= _ <-]|].
    destruct (_ >? _); [by intros [= _ <-]|]. apply IH.
Qed.

Lemma tree_min_max_depth fuel it x r it' :
  MapIterator.tree_min fuel it x = Some (r, it') →
  MapIterator.m_max_depth it' = MapIterator.m_max_depth it.
Proof.
  unfold MapIterator.tree_min. destruct (MapEntry.null x).
  - by intros [= _ <-].
  - apply tree_min_loop_max_depth.
Qed.

Lemma next_loop_max_depth fuel it steps b it' :
  MapIterator.next_loop fuel it steps = Some (b, it') →
  MapIterator.m_max_depth it' = MapIterator.m_max_depth it.
Proof.
  revert it steps. induction fuel as [|fuel IH]; intros it steps; simpl.
  - destruct (MapIterator.is_left_child _); [|done]. by intros [= _ <-].
  - destruct (MapIterator.is_left_child _); [by intros [= _ <-]|].
    destruct (MapEntry.error _); [by intros [= _ <-]|].
    destruct (_ >? _); [by intros [= _ <-]|].
    intros H. by rewrite (IH _ _ H).
Qed.

Lemma next_max_depth fuel it it' :
  MapIterator.next fuel it = Some it' →
  MapIterator.m_max_depth it' = MapIterator.m_max_depth it.
Proof.
  unfold MapIterator.next. destruct (MapEntry.null _); [by intros [= <-]|].
  destruct (negb _).
  - destruct (MapIterator.tree_min _ _ _) as [[e it1]|] eqn:E; [|done].
    simpl. intros [= <-]. simpl. eapply tree_min_max_depth, E.
  - destruct (MapIterator.next_loop _ _ _) as [[b it1]|] eqn:E; [|done].
    simpl. destruct b; intros [= <-]; simpl; eapply next_loop_max_depth, E.
Qed.

(** *** Enough fuel: a walk runs its body at most [m_max_depth + 1] times *)

Lemma tree_min_loop_total fuel it x l steps :
  MapIterator.m_max_depth it < 2 ^ 64 - 1 →
  0 ≤ steps ≤ MapIterator.m_max_depth it →
  MapIterator.m_max_depth it + 1 - steps ≤ Z.of_nat fuel →
  is_Some (MapIterator.tree_min_loop fuel it x l steps).
Proof.
  intros Hmax. revert x l steps.
  induction fuel as [|fuel IH]; intros x l steps Hs Hf; [lia|].
  simpl. destruct (MapEntry.null l); [done|].
  destruct (MapEntry.error l); [done|].
  rewrite size_t_succ_small by lia.
  destruct (Z.gtb_spec (steps + 1) (MapIterator.m_max_depth it)); [done|].
  apply IH; lia.
Qed.

Lemma tree_min_total fuel it x :
  0 ≤ MapIterator.m_max_depth it < 2 ^ 64 - 1 →
  MapIterator.m_max_depth it < Z.of_nat fuel →
  is_Some (MapIterator.tree_min fuel it x).
Proof.
  intros Hmax Hf. unfold MapIterator.tree_min.
  destruct (MapEntry.null x); [done|]. apply tree_min_loop_total; lia.
Qed.

Lemma next_loop_total fuel it steps :
  MapIterator.m_max_depth it < 2 ^ 64 - 1 →
  0 ≤ steps ≤ MapIterator.m_max_depth it →
  MapIterator.m_max_depth it + 1 - steps ≤ Z.of_nat fuel →
  is_Some (MapIterator.next_loop fuel it steps).
Proof.
  intros Hmax. revert it steps Hmax.
  induction fuel as [|fuel IH]; intros it steps Hmax Hs Hf; [lia|].
  simpl. destruct (MapIterator.is_left_child _); [done|].
  destruct (MapEntry.error _); [done|].
  rewrite size_t_succ_small by lia.
  destruct (Z.gtb_spec (steps + 1) (MapIterator.m_max_depth it)); [done|].
  apply IH; simpl; lia.
Qed.

Lemma next_total fuel it :
  0 ≤ MapIterator.m_max_depth it < 2 ^ 64 - 1 →
  MapIterator.m_max_depth it < Z.of_nat fuel →
  is_Some (MapIterator.next fuel it).
Proof.
  intros Hmax Hf. unfold MapIterator.next.
  destruct (MapEntry.null _); [done|]. destruct (negb _).
  - destruct (tree_min_total fuel it
                (MapEntry.mk (MapEntry.right (MapIterator.m_entry it))))
      as [[e it1] ->]; done.
  - destruct (next_loop_total fuel it 0) as [[b it1] ->]; [lia..|].
    simpl. by destruct b.
Qed.

Lemma advance_loop_total fuel n it count steps :
  MapIterator.m_max_depth it < 2 ^ 64 - 1 →
  MapIterator.m_max_depth it < Z.of_nat fuel →
  0 ≤ steps ≤ MapIterator.m_max_depth it →
  MapIterator.m_max_depth it + 1 - steps ≤ Z.of_nat n →
  is_Some (MapIterator.advance_loop fuel n it count steps).
Proof.
  intros Hmax Hf. revert it count steps Hmax Hf.
  induction n as [|n IH]; intros it count steps Hmax Hf Hs Hn; [lia|].
  simpl. destruct (count >? 0); [|done].
  destruct (next_total fuel it) as [it1 E]; [lia..|]. rewrite E. simpl.
  pose proof (next_max_depth _ _ _ E) as Hd.
  destruct (MapIterator.m_error it1); [done|].
  destruct (MapEntry.null _); [done|]. simpl.
  rewrite size_t_succ_small by lia.
  destruct (Z.gtb_spec (steps + 1) (MapIterator.m_max_depth it1)); [done|].
  apply IH; lia.
Qed.

Lemma advance_total fuel it count :
  0 ≤ MapIterator.m_max_depth it < 2 ^ 64 - 1 →
  MapIterator.m_max_depth it < Z.of_nat fuel →
  is_Some (MapIterator.advance fuel it count).
Proof.
  intros Hmax Hf. unfold MapIterator.advance.
  destruct (MapIterator.m_error it); [done|].
  apply advance_loop_total; lia.
Qed.

(** [advance(0)] takes no step. *)
Lemma advance_0 fuel it :
  MapIterator.m_error it = false →
  MapIterator.advance fuel it 0
  = Some (MapEntry.GetEntry (MapIterator.m_entry it), it).
Proof.
  intros H. unfold MapIterator.advance. rewrite H. by destruct fuel.
Qed.

(** *** More fuel changes nothing *)

Lemma tree_min_loop_mono fuel fuel' it x l steps r :
  MapIterator.tree_min_loop fuel it x l steps = Some r →
  (fuel ≤ fuel')%nat →
  MapIterator.tree_min_loop fuel' it x l steps = Some r.
Proof.
  revert fuel' x l steps.
  induction fuel as [|fuel IH]; intros fuel' x l steps; simpl.
  - destruct fuel'; simpl; destruct (MapEntry.null l); done.
  - intros H Hle. destruct fuel' as [|fuel']; [lia|]. simpl.
    destruct (MapEntry.null l); [done|].
    destruct (MapEntry.error l); [done|].
    destruct (_ >? _); [done|]. apply IH; [done|lia].
Qed.

Lemma next_loop_mono fuel fuel' it steps r :
  MapIterator.next_loop fuel it steps = Some r →
  (fuel ≤ fuel')%nat →
  MapIterator.next_loop fuel' it steps = Some r.
Proof.
  revert fuel' it steps.
  induction fuel as [|fuel IH]; intros fuel' it steps; simpl.
  - destruct fuel'; simpl; destruct (MapIterator.is_left_child _); done.
  - intros H Hle. destruct fuel' as [|fuel']; [lia|]. simpl.
    destruct (MapIterator.is_left_child _); [done|].
    destruct (MapEntry.error _); [done|].
    destruct (_ >? _); [done|]. apply IH; [done|lia].
Qed.

Lemma next_mono fuel fuel' it r :
  MapIterator.next fuel it = Some r →
  (fuel ≤ fuel')%nat →
  MapIterator.next fuel' it = Some r.
Proof.
  unfold MapIterator.next. intros H Hle.
  destruct (MapEntry.null _); [done|]. destruct (negb _).
  - destruct (MapIterator.tree_min fuel _ _) as [p|] eqn:E; [|done].
    unfold MapIterator.tree_min in *.
    destruct (MapEntry.null _); [by rewrite <- E in H|].
    by rewrite (tree_min_loop_mono _ _ _ _ _ _ _ E Hle).
  - destruct (MapIterator.next_loop fuel _ _) as [p|] eqn:E; [|done].
    by rewrite (next_loop_mono _ _ _ _ _ E Hle).
Qed.

Lemma advance_loop_mono fuel fuel' n n' it count steps r :
  MapIterator.advance_loop fuel n it count steps = Some r →
  (fuel ≤ fuel')%nat → (n ≤ n')%nat →
  MapIterator.advance_loop fuel' n' it count steps = Some r.
Proof.
  intros H Hf. revert n' it count steps H.
  induction n as [|n IH]; intros n' it count steps; simpl.
  - destruct n'; simpl; destruct (count >? 0); done.
  - intros H Hle. destruct n' as [|n']; [lia|]. simpl.
    destruct (count >? 0); [|done].
    destruct (MapIterator.next fuel it) as [it1|] eqn:E; [|done].
    rewrite (next_mono _ _ _ _ E Hf). simpl in *.
    destruct (_ || _); [done|]. apply IH; [done|lia].
Qed.

Lemma advance_mono fuel fuel' it count r :
  MapIterator.advance fuel it count = Some r →
  (fuel ≤ fuel')%nat →
  MapIterator.advance fuel' it count = Some r.
Proof.
  unfold MapIterator.advance. destruct (MapIterator.m_error it); [done|].
  intros H Hle. by eapply advance_loop_mono.
Qed.

(** Two runs that both end agree, whatever their fuels. *)
Lemma advance_deterministic fuel fuel' it count r r' :
  MapIterator.advance fuel it count = Some r →
  MapIterator.advance fuel' it count = Some r' →
  r = r'.
Proof.
  intros H H'.
  apply (advance_mono _ (fuel `max` fuel')%nat) in H; [|lia].
  apply (advance_mono _ (fuel `max` fuel')%nat) in H'; [|lia].
  congruence.
Qed.

(** *** [advance] step by step *)

Lemma advance_max_depth_loop fuel n it count steps r it' :
  MapIterator.advance_loop fuel n it count steps = Some (r, it') →
  MapIterator.m_max_depth it' = MapIterator.m_max_depth it.
Proof.
  revert it count steps. induction n as [|n IH]; intros it count steps; simpl.
  - destruct (count >? 0); [done|]. by intros [= _ <-].
  - destruct (count >? 0); [|by intros [= _ <-]].
    destruct (MapIterator.next fuel it) as [it1|] eqn:E; [|done]. simpl.
    pose proof (next_max_depth _ _ _ E) as Hd.
    destruct (_ || _); [by intros [= _ <-]|].
    intros H. by rewrite (IH _ _ _ H).
Qed.

(** As long as the budget is not reached, the step counter does not
    matter. *)
Lemma advance_loop_steps fuel n it count s1 s2 :
  MapIterator.m_max_depth it < 2 ^ 64 - 1 →
  0 ≤ s1 → 0 ≤ s2 →
  s1 + count ≤ MapIterator.m_max_depth it →
  s2 + count ≤ MapIterator.m_max_depth it →
  MapIterator.advance_loop fuel n it count s1
  = MapIterator.advance_loop fuel n it count s2.
Proof.
  revert it count s1 s2.
  induction n as [|n IH]; intros it count s1 s2 Hmax H1 H2 Hs1 Hs2; simpl.
  - done.
  - destruct (Z.gtb_spec count 0); [|done].
    destruct (MapIterator.next fuel it) as [it1|] eqn:E; [|done]. simpl.
    pose proof (next_max_depth _ _ _ E) as Hd.
    rewrite !size_t_succ_small by lia.
    destruct (Z.gtb_spec (s1 + 1) (MapIterator.m_max_depth it1)); [lia|].
    destruct (Z.gtb_spec (s2 + 1) (MapIterator.m_max_depth it1)); [lia|].
    destruct (_ || _); [done|]. simpl. apply IH; lia.
Qed.

Lemma advance_loop_app fuel n m it k j steps v it' r :
  MapIterator.m_max_depth it < 2 ^ 64 - 1 →
  0 ≤ k → 0 ≤ steps → steps + k ≤ MapIterator.m_max_depth it →
  MapIterator.advance_loop fuel n it k steps = Some (Some v, it') →
  MapIterator.advance_loop fuel m it' j (steps + k) = Some r →
  0 ≤ j →
  MapIterator.advance_loop fuel (n + m) it (k + j) steps = Some r.
Proof.
  intros Hmax Hk Hs Hsk H1 H2 Hj. revert it k steps Hmax Hk Hs Hsk H1 H2.
  induction n as [|n IH]; intros it k steps Hmax Hk Hs Hsk; simpl.
  - destruct (Z.gtb_spec k 0); [done|]. intros [= _ <-].
    by replace k with 0 by lia; rewrite Z.add_0_r, Z.add_0_l.
  - destruct (Z.gtb_spec k 0).
    + destruct (Z.gtb_spec (k + j) 0); [|lia].
      destruct (MapIterator.next fuel it) as [it1|] eqn:E; [|done]. simpl.
      pose proof (next_max_depth _ _ _ E) as Hd.
      destruct (_ || _); [done|].
      rewrite size_t_succ_small by lia. intros H1 H2.
      replace (k + j - 1) with ((k - 1) + j) by lia.
      apply IH; [lia..|done|]. by replace (steps + 1 + (k - 1)) with (steps + k) by lia.
    + intros [= _ <-]. replace k with 0 by lia. rewrite Z.add_0_r, Z.add_0_l.
      intros H2.
      apply (advance_loop_mono fuel fuel m (S (n + m)) _ _ _ _ H2); lia.
Qed.

(** A cursor that answers an entry is not in error. *)
Lemma advance_loop_Some_error fuel n it count steps v it' :
  MapIterator.advance_loop fuel n it count steps = Some (Some v, it') →
  MapIterator.m_error it = false →
  MapIterator.m_error it' = false.
Proof.
  revert it count steps. induction n as [|n IH]; intros it count steps; simpl.
  - destruct (count >? 0); [done|]. by intros [= _ <-].
  - destruct (count >? 0); [|by intros [= _ <-]].
    destruct (MapIterator.next fuel it) as [it1|]; [|done]. simpl.
    destruct (MapIterator.m_error it1) eqn:E; [done|]. simpl.
    destruct (_ || _); [done|]. intros H _. by eapply IH.
Qed.

(** The cached path and the fresh path of [GetKeyValuePair]: a cursor
    that has advanced [k] steps and advances [j] more arrives where a
    cursor that advances [k + j] steps at once does. *)
Lemma advance_app fuel fuel' it k j v it' r :
  MapIterator.m_max_depth it < 2 ^ 64 - 1 →
  0 ≤ k → 0 ≤ j → k + j ≤ MapIterator.m_max_depth it →
  MapIterator.advance fuel it k = Some (Some v, it') →
  MapIterator.advance fuel' it' j = Some r →
  MapIterator.advance (fuel + fuel') it (k + j) = Some r.
Proof.
  intros Hmax Hk Hj Hkj. unfold MapIterator.advance.
  destruct (MapIterator.m_error it) eqn:Eerr; [done|]. intros H1.
  pose proof (advance_max_depth_loop _ _ _ _ _ _ _ H1) as Hd.
  rewrite (advance_loop_Some_error _ _ _ _ _ _ _ H1 Eerr). intros H2.
  eapply (advance_loop_mono _ (fuel + fuel')%nat) in H1; [|lia|done].
  eapply (advance_loop_mono _ (fuel + fuel')%nat) in H2; [|lia|done].
  rewrite (advance_loop_steps _ _ _ _ 0 (0 + k)) in H2 by lia.
  eapply advance_loop_mono; [|done|reflexivity].
  eapply (advance_loop_app _ fuel fuel'); eauto; lia.
Qed.

End Cursor.

(** ** In-order traversal of a tree held in memory *)

Section Trees.

Lemma inorder_length t : length (inorder t) = tree_size t.
Proof.
  induction t as [|l IHl a r IHr]; simpl; [done|].
  rewrite length_app. simpl. lia.
Qed.

Lemma right_depth_size t : (right_depth t ≤ tree_size t)%nat.
Proof.
  induction t as [|l IHl a r IHr]; simpl; [done|].
  destruct r; simpl in *; lia.
Qed.

Lemma root_in_inorder t : t ≠ Leaf → root_addr t ∈ inorder t.
Proof. destruct t; [done|]. intros _. simpl. set_solver. Qed.

Lemma leftmost_head t : t ≠ Leaf → inorder t !! 0%nat = Some (leftmost t).
Proof.
  induction t as [|l IHl a r IHr]; [done|]. intros _. simpl.
  destruct l as [|ll b lr]; [done|].
  rewrite lookup_app_l.
  - by apply IHl.
  - rewrite inorder_length. simpl. lia.
Qed.

Lemma rightmost_last t :
  t ≠ Leaf → inorder t !! pred (tree_size t) = Some (rightmost t).
Proof.
  induction t as [|l IHl a r IHr]; [done|]. intros _. simpl.
  destruct r as [|rl b rr].
  - rewrite lookup_app_r; rewrite inorder_length; [|lia].
    by replace (tree_size l + tree_size Leaf - tree_size l)%nat
      with 0%nat by (simpl; lia).
  - rewrite lookup_app_r; rewrite inorder_length; [|lia].
    replace (tree_size l + tree_size (Node rl b rr) - tree_size l)%nat
      with (S (pred (tree_size (Node rl b rr)))) by (simpl; lia).
    by apply IHr.
Qed.

(** Consecutive positions of the in-order sequence are adjacent nodes. *)
Lemma inorder_adjacent t (i : nat) a b :
  inorder t !! i = Some a → inorder t !! S i = Some b → adjacent t a b.
Proof.
  revert i. induction t as [|l IHl c r IHr]; intros i; [done|]. simpl.
  pose proof (inorder_length l) as Hl.
  destruct (decide (S i < tree_size l)%nat).
  - rewrite !lookup_app_l by lia. intros. eapply adjacent_left, IHl; eauto.
  - destruct (decide (S i = tree_size l)).
    + rewrite lookup_app_l by lia. rewrite lookup_app_r by lia.
      replace (S i - length (inorder l))%nat with 0%nat by lia. simpl.
      intros Ha [= <-].
      assert (l ≠ Leaf) as Hne by (destruct l; simpl in *; [lia|done]).
      pose proof (rightmost_last l Hne) as Hr.
      replace (pred (tree_size l)) with i in Hr by lia.
      rewrite Ha in Hr. injection Hr as ->. by constructor.
    + rewrite !lookup_app_r by lia.
      destruct (decide (i = tree_size l)) as [->|].
      * replace (tree_size l - length (inorder l))%nat with 0%nat by lia.
        replace (S (tree_size l) - length (inorder l))%nat with 1%nat by lia.
        simpl. intros [= <-] Hb.
        assert (r ≠ Leaf) as Hne by (by destruct r).
        rewrite (leftmost_head r Hne) in Hb. injection Hb as <-.
        by constructor.
      * replace (i - length (inorder l))%nat
          with (S (i - S (tree_size l))) by lia.
        replace (S i - length (inorder l))%nat
          with (S (S (i - S (tree_size l)))) by lia.
        simpl. intros. eapply adjacent_right, IHr; eauto.
Qed.

End Trees.

Section Traversal.
Context `{D : Debugger} (ty : option TypeHandle).

Local Abbreviation points_to := (points_to ty).
Local Abbreviation entry_at := (entry_at ty).
Local Abbreviation child_is := (child_is ty).
Local Abbreviation node_at := (node_at ty).
Local Abbreviation shaped := (shaped ty).

Lemma entry_at_value e a : entry_at e a → MapEntry.value e = a.
Proof.
  intros (v & Hv & Hr & _). unfold MapEntry.value, GetValueAsUnsigned.
  by rewrite Hv, Hr.
Qed.

Lemma entry_at_error e a : entry_at e a → MapEntry.error e = false.
Proof. intros (v & Hv & _ & He & _). unfold MapEntry.error. by rewrite Hv. Qed.

Lemma entry_at_null e a : entry_at e a → a ≠ 0 → MapEntry.null e = false.
Proof.
  intros H Ha. unfold MapEntry.null. rewrite (entry_at_value _ _ H).
  by apply Z.eqb_neq.
Qed.

Lemma entry_at_mk v a : points_to v a → entry_at (MapEntry.mk (Some v)) a.
Proof. intros H. by exists v. Qed.

Lemma child_is_value o t :
  child_is o t → MapEntry.value (MapEntry.mk o) = root_addr t.
Proof.
  destruct t as [|l a r]; simpl.
  - unfold MapEntry.null. by intros ?%Z.eqb_eq.
  - apply entry_at_value.
Qed.

Lemma is_left_child_spec v b a l r p :
  points_to v b → b ≠ 0 →
  entry_at (MapEntry.mk (MapEntry.parent (MapEntry.mk (Some v)))) a →
  node_at a l r p →
  MapIterator.is_left_child (MapEntry.mk (Some v)) = (b =? root_addr l).
Proof.
  intros Hv Hb Hp Ha. unfold MapIterator.is_left_child.
  rewrite (entry_at_null _ b) by (done || by apply entry_at_mk).
  rewrite (entry_at_value _ b) by (by apply entry_at_mk).
  destruct Hp as (pv & Hpv & Hpa). simpl in Hpv. rewrite Hpv.
  destruct (Ha pv Hpa) as (Hl & _ & _).
  unfold MapEntry.SetEntry. by rewrite (child_is_value _ _ Hl).
Qed.

Lemma next_loop_left_child fuel it steps :
  MapIterator.is_left_child (MapIterator.m_entry it) = true →
  MapIterator.next_loop fuel it steps = Some (false, it).
Proof. intros H. destruct fuel; simpl; by rewrite H. Qed.

Lemma leftmost_in t : t ≠ Leaf → leftmost t ∈ inorder t.
Proof.
  intros H. apply list_elem_of_lookup. exists 0%nat. by apply leftmost_head.
Qed.

Lemma rightmost_in t : t ≠ Leaf → rightmost t ∈ inorder t.
Proof.
  intros H. apply list_elem_of_lookup. eexists. by apply rightmost_last.
Qed.

(** The rightmost node of a tree has no right child. *)
Lemma rightmost_node t p :
  shaped t p → t ≠ Leaf → ∃ l' p', node_at (rightmost t) l' Leaf p'.
Proof.
  revert p. induction t as [|l IHl a r IHr]; intros p; [done|].
  intros (Ha & Hl & Hr) _. destruct r as [|rl b rr].
  - by exists l, p.
  - by apply (IHr a).
Qed.

(** The descent of [tree_min] arrives at the leftmost node. *)
Lemma tree_min_loop_spec l :
  ∀ a r p fuel it v steps,
    shaped (Node l a r) p → 0 ∉ inorder l → points_to v a →
    0 ≤ steps →
    steps + Z.of_nat (tree_size l) ≤ MapIterator.m_max_depth it →
    MapIterator.m_max_depth it < 2 ^ 64 - 1 →
    (tree_size l ≤ fuel)%nat →
    ∃ v',
      MapIterator.tree_min_loop fuel it (MapEntry.mk (Some v))
        (MapEntry.mk (MapEntry.left (MapEntry.mk (Some v)))) steps
      = Some (MapEntry.mk (Some v'), it)
      ∧ points_to v' (leftmost (Node l a r)).
Proof.
  induction l as [|ll IHl b lr _];
    intros a r p fuel it v steps (Ha & Hl & Hr) H0 Hv Hs Hd Hmax Hf.
  - destruct (Ha v Hv) as (Hleft & _ & _). simpl in Hleft.
    exists v. split; [|done]. destruct fuel; simpl; by rewrite Hleft.
  - destruct (Ha v Hv) as (Hleft & _ & _). simpl in Hleft.
    assert (b ≠ 0) as Hb by (intros ->; apply H0; simpl; set_solver).
    destruct fuel as [|fuel]; [simpl in Hf; lia|]. simpl tree_size in *.
    destruct Hleft as (vb & Hvb & Hpb). simpl in Hvb.
    cbn [MapIterator.tree_min_loop].
    rewrite (entry_at_null _ b), (entry_at_error _ b) by (done || by exists vb).
    rewrite size_t_succ_small by lia.
    destruct (Z.gtb_spec (steps + 1) (MapIterator.m_max_depth it)); [lia|].
    rewrite Hvb. unfold MapEntry.SetEntry.
    destruct (IHl b lr a fuel it vb (steps + 1)) as (v' & Hv' & Hp');
      [done|set_solver|done|lia..|].
    exists v'. split; [done|]. by destruct ll.
Qed.

(** The upward loop of [next], started on the rightmost node of a
    subtree, climbs to the root of that subtree. *)
Lemma next_loop_climb t :
  ∀ p fuel d err v steps,
    t ≠ Leaf → shaped t p → NoDup (inorder t) → 0 ∉ inorder t →
    points_to v (rightmost t) →
    0 ≤ steps → steps + Z.of_nat (right_depth t) ≤ d → d < 2 ^ 64 - 1 →
    (right_depth t ≤ fuel)%nat →
    ∃ v',
      points_to v' (root_addr t)
      ∧ MapIterator.next_loop fuel
          (MapIterator.mk (MapEntry.mk (Some v)) d err) steps
        = MapIterator.next_loop (fuel - right_depth t)
            (MapIterator.mk (MapEntry.mk (Some v')) d err)
            (steps + Z.of_nat (right_depth t)).
Proof.
  induction t as [|l _ a r IHr]; intros p fuel d err v steps Hne; [done|].
  intros (Ha & Hl & Hr) Hnd H0 Hv Hs Hd Hmax Hf.
  destruct r as [|rl b rr].
  - exists v. simpl. split; [done|]. by rewrite Nat.sub_0_r, Z.add_0_r.
  - set (r := Node rl b rr) in *.
    apply NoDup_app in Hnd as (_ & Hdisj & [Han Hndr]%NoDup_cons).
    assert (right_depth (Node l a r) = S (right_depth r)) as Hrd by done.
    rewrite Hrd in *.
    destruct (IHr a fuel d err v steps) as (vb & Hvb & ->);
      [done|done|done|set_solver|done|lia..|].
    assert (b ≠ 0) as Hb by (intros ->; apply H0; simpl; set_solver).
    destruct Hr as (Hnb & _).
    destruct (Hnb vb Hvb) as (_ & _ & Hpar).
    destruct (fuel - right_depth r)%nat as [|fuel'] eqn:Ef; [lia|].
    cbn [MapIterator.next_loop MapIterator.m_entry MapIterator.set_entry
         MapIterator.m_max_depth MapIterator.m_error].
    rewrite (is_left_child_spec vb b a l r p) by done.
    assert ((b =? root_addr l) = false) as ->.
    { apply Z.eqb_neq. intros Heq. destruct l as [|ll x lr].
      - by simpl in Heq.
      - simpl in Heq. subst x. apply (Hdisj b); simpl; set_solver. }
    rewrite (entry_at_error _ b) by (by apply entry_at_mk).
    rewrite size_t_succ_small by lia.
    destruct (Z.gtb_spec (steps + Z.of_nat (right_depth r) + 1) d); [lia|].
    destruct Hpar as (pa & Hpa & Hppa). simpl in Hpa.
    exists pa. split; [done|]. unfold MapEntry.SetEntry. rewrite Hpa.
    replace (fuel - S (right_depth r))%nat with fuel' by lia.
    by replace (steps + Z.of_nat (S (right_depth r)))
      with (steps + Z.of_nat (right_depth r) + 1) by lia.
Qed.

(** [next] moves a cursor from a node to its in-order successor. *)
Lemma next_spec t a b :
  adjacent t a b →
  ∀ p fuel d err v,
    shaped t p → NoDup (inorder t) → 0 ∉ inorder t →
    points_to v a →
    Z.of_nat (tree_size t) ≤ d → d < 2 ^ 64 - 1 →
    (tree_size t ≤ fuel)%nat →
    ∃ v',
      MapIterator.next fuel (MapIterator.mk (MapEntry.mk (Some v)) d err)
      = Some (MapIterator.mk (MapEntry.mk (Some v')) d err)
      ∧ points_to v' b.
Proof.
  induction 1 as [l c r a b _ IH|l c r a b _ IH|l c r Hne|l c r Hne];
    intros p fuel d err v (Hc & Hl & Hr) Hnd H0 Hv Hd Hmax Hf;
    simpl in Hd, Hf, Hnd, H0;
    pose proof Hnd as Hnd';
    apply NoDup_app in Hnd' as (Hndl & Hdisj & [Hcn Hndr]%NoDup_cons).
  - apply (IH c); [done|done|set_solver|done|lia..].
  - apply (IH c); [done|done|set_solver|done|lia..].
  - pose proof (rightmost_in l Hne) as Hin.
    assert (rightmost l ≠ 0) as Hnz by (intros E; rewrite E in Hin; set_solver).
    destruct (rightmost_node l c Hl Hne) as (l' & p' & Hrn).
    destruct (Hrn v Hv) as (_ & Hright & _). simpl in Hright.
    unfold MapIterator.next. cbn [MapIterator.m_entry].
    rewrite (entry_at_null _ (rightmost l)) by (done || by apply entry_at_mk).
    rewrite Hright. cbn [negb].
    pose proof (right_depth_size l).
    destruct (next_loop_climb l c fuel d err v 0) as (v' & Hv' & ->);
      [done|done|done|set_solver|done|lia..|].
    assert (root_addr l ≠ 0) as Hrz.
    { pose proof (root_in_inorder l Hne). intros E. rewrite E in *. set_solver. }
    assert (entry_at (MapEntry.mk (MapEntry.parent (MapEntry.mk (Some v')))) c)
      as Hpar.
    { destruct l as [|ll x lr]; [done|]. destruct Hl as (Hx & _).
      by destruct (Hx v' Hv') as (_ & _ & ?). }
    rewrite next_loop_left_child.
    2:{ cbn [MapIterator.m_entry].
        rewrite (is_left_child_spec v' (root_addr l) c l r p) by done.
        apply Z.eqb_refl. }
    destruct Hpar as (pc & Hpc & Hppc). simpl in Hpc.
    exists pc. simpl. by rewrite Hpc.
  - assert (c ≠ 0) as Hcz by set_solver.
    destruct (Hc v Hv) as (_ & Hright & _).
    destruct r as [|rl x rr]; [done|]. simpl in Hright.
    destruct Hright as (vr & Hvr & Hpvr). simpl in Hvr.
    assert (x ≠ 0) as Hxz by (intros ->; apply H0; simpl; set_solver).
    unfold MapIterator.next. cbn [MapIterator.m_entry].
    rewrite (entry_at_null _ c) by (done || by apply entry_at_mk).
    rewrite Hvr.
    rewrite (entry_at_null _ x) by (done || by apply entry_at_mk).
    cbn [negb]. unfold MapIterator.tree_min.
    rewrite (entry_at_null _ x) by (done || by apply entry_at_mk).
    simpl in Hd, Hf.
    destruct (tree_min_loop_spec rl x rr c fuel
                (MapIterator.mk (MapEntry.mk (Some v)) d err) vr 0)
      as (v' & -> & Hv'); [done|set_solver|done|simpl; lia..|].
    exists v'. by split.
Qed.

(** [advance] walks the in-order sequence. *)
Lemma advance_loop_spec t p (k : nat) :
  ∀ (i : nat) fuel n d v steps a,
    shaped t p → NoDup (inorder t) → 0 ∉ inorder t →
    inorder t !! i = Some a → points_to v a →
    (i + k < tree_size t)%nat →
    0 ≤ steps → steps + Z.of_nat k ≤ d →
    Z.of_nat (tree_size t) ≤ d → d < 2 ^ 64 - 1 →
    (tree_size t ≤ fuel)%nat → (k ≤ n)%nat →
    ∃ v' b,
      inorder t !! (i + k)%nat = Some b ∧ points_to v' b
      ∧ MapIterator.advance_loop fuel n
          (MapIterator.mk (MapEntry.mk (Some v)) d false) (Z.of_nat k) steps
        = Some (Some v', MapIterator.mk (MapEntry.mk (Some v')) d false).
Proof.
  induction k as [|k IH];
    intros i fuel n d v steps a Hsh Hnd H0 Ha Hv Hik Hs Hsk Hd Hmax Hf Hn.
  - exists v, a. rewrite Nat.add_0_r. repeat split; try done; try apply Hv.
    by destruct n.
  - destruct n as [|n]; [lia|].
    destruct (lookup_lt_is_Some_2 (inorder t) (S i)) as [a1 Ha1];
      [rewrite inorder_length; lia|].
    pose proof (inorder_adjacent t i a a1 Ha Ha1) as Hadj.
    destruct (next_spec t a a1 Hadj p fuel d false v) as (v1 & Hnext & Hv1);
      [done..|].
    assert (a1 ≠ 0) as Hz.
    { intros ->. apply H0. apply list_elem_of_lookup. by exists (S i). }
    destruct (IH (S i) fuel n d v1 (steps + 1) a1) as (v' & b & Hb & Hv' & Hadv);
      [done..|lia|lia|lia|done|done|done|lia|].
    exists v', b. replace (i + S k)%nat with (S i + k)%nat by lia.
    repeat split; try done; try apply Hv'.
    cbn [MapIterator.advance_loop].
    destruct (Z.gtb_spec (Z.of_nat (S k)) 0); [|lia].
    rewrite Hnext. simpl mbind. cbn [MapIterator.m_error MapIterator.m_entry
      MapIterator.m_max_depth].
    rewrite (entry_at_null _ a1) by (done || by apply entry_at_mk).
    rewrite size_t_succ_small by lia.
    destruct (Z.gtb_spec (steps + 1) d); [lia|]. simpl orb. cbv iota.
    by replace (Z.of_nat (S k) - 1) with (Z.of_nat k) by lia.
Qed.

End Traversal.

(** ** The view *)

Module FE := LibcxxStdMapSyntheticFrontEnd.

Section View.
Context `{D : Debugger}.

Implicit Types (s : FE.t) (b : ValueObject).

Lemma to_uint32_range z : 0 ≤ to_uint32 z < 2 ^ 32.
Proof. unfold to_uint32. apply Z.mod_pos_bound. lia. Qed.

(** *** CalculateNumChildren *)

Lemma CalculateNumChildren_frame s :
  (FE.CalculateNumChildren s).2
  = FE.set_count s (FE.m_count (FE.CalculateNumChildren s).2).
Proof.
  unfold FE.CalculateNumChildren. destruct s.
  repeat case_match; done.
Qed.

Lemma CalculateNumChildren_range s :
  0 ≤ (FE.CalculateNumChildren s).1 < 2 ^ 32.
Proof.
  unfold FE.CalculateNumChildren.
  repeat case_match; simpl; try apply to_uint32_range; lia.
Qed.

(** Asking for the count again changes nothing. *)
Lemma CalculateNumChildren_idem s :
  FE.CalculateNumChildren (FE.CalculateNumChildren s).2
  = FE.CalculateNumChildren s.
Proof.
  unfold FE.CalculateNumChildren. destruct s as [b tr rn ty sk ct its].
  simpl. destruct (ct =? UINT32_MAX) eqn:E; simpl; [|by rewrite E].
  destruct tr as [tr|]; simpl; [|by rewrite E].
  destruct (GetChildMemberWithName tr "__pair3_") as [n|] eqn:E1; simpl;
    [|by rewrite E, E1].
  destruct (GetFirstValueOfLibCXXCompressedPair n) as [n'|] eqn:E2; simpl;
    [|by rewrite E, E1, E2].
  destruct (GetValueAsUnsigned n' 0 =? UINT32_MAX) eqn:E3; simpl; [|done].
  by rewrite E1, E2.
Qed.

Lemma CalculateNumChildren_ext s s' :
  FE.m_count s = FE.m_count s' → FE.m_tree s = FE.m_tree s' →
  (FE.CalculateNumChildren s).1 = (FE.CalculateNumChildren s').1
  ∧ FE.m_count (FE.CalculateNumChildren s).2
    = FE.m_count (FE.CalculateNumChildren s').2.
Proof.
  unfold FE.CalculateNumChildren. destruct s, s'. simpl. intros -> ->.
  repeat case_match; done.
Qed.

Lemma create_count b : FE.m_count (FE.create b) = UINT32_MAX.
Proof. unfold FE.create, FE.Update. simpl. by case_match. Qed.

Lemma create_backend b : FE.m_backend (FE.create b) = b.
Proof. unfold FE.create, FE.Update. simpl. by case_match. Qed.

Lemma create_element_type b : FE.m_element_type (FE.create b) = None.
Proof. unfold FE.create, FE.Update. simpl. by case_match. Qed.

Lemma create_skip_size b : FE.m_skip_size (FE.create b) = UINT32_MAX.
Proof. unfold FE.create, FE.Update. simpl. by case_match. Qed.

Lemma count_of_range b : 0 ≤ count_of b < 2 ^ 32.
Proof. apply CalculateNumChildren_range. Qed.

(** *** GetDataType *)

Lemma GetDataType_frame s :
  (FE.GetDataType s).2
  = FE.set_element_type s (FE.m_element_type (FE.GetDataType s).2).
Proof.
  unfold FE.GetDataType. destruct s.
  repeat case_match; simplify_eq/=; try done.
  all: by match goal with H : is_Some _ |- _ => destruct H as [? ->] end.
Qed.

Lemma GetDataType_valid s :
  is_Some (FE.m_element_type s) → FE.GetDataType s = (true, s).
Proof. intros H. unfold FE.GetDataType. by rewrite bool_decide_true. Qed.

Lemma GetDataType_result s :
  (FE.GetDataType s).1
  = bool_decide (is_Some (FE.m_element_type (FE.GetDataType s).2)).
Proof.
  unfold FE.GetDataType.
  repeat case_match; simplify_eq/=; try done.
  all: try by (symmetry; apply bool_decide_false; intros [? ?]).
Qed.

Lemma GetDataType_ext s s' :
  FE.m_backend s = FE.m_backend s' →
  FE.m_root_node s = FE.m_root_node s' →
  FE.m_element_type s = FE.m_element_type s' →
  (FE.GetDataType s).1 = (FE.GetDataType s').1
  ∧ FE.m_element_type (FE.GetDataType s).2
    = FE.m_element_type (FE.GetDataType s').2.
Proof.
  unfold FE.GetDataType. destruct s, s'. simpl. intros -> -> ->.
  repeat case_match; done.
Qed.

(** *** GetValueOffset *)

Lemma GetValueOffset_frame node s :
  FE.GetValueOffset node s
  = FE.set_skip_size s (FE.m_skip_size (FE.GetValueOffset node s)).
Proof.
  unfold FE.GetValueOffset. destruct s. repeat case_match; done.
Qed.

Lemma GetValueOffset_element_type node s :
  FE.m_element_type (FE.GetValueOffset node s) = FE.m_element_type s.
Proof. by rewrite GetValueOffset_frame. Qed.

Lemma GetValueOffset_tree node s :
  FE.m_tree (FE.GetValueOffset node s) = FE.m_tree s.
Proof. by rewrite GetValueOffset_frame. Qed.

Lemma GetValueOffset_resolved node s :
  FE.m_skip_size s ≠ UINT32_MAX → FE.GetValueOffset node s = s.
Proof.
  intros H. unfold FE.GetValueOffset.
  by apply Z.eqb_neq in H as ->.
Qed.

Lemma GetValueOffset_ext node s s' :
  FE.m_skip_size s = FE.m_skip_size s' →
  FE.m_element_type s = FE.m_element_type s' →
  FE.m_skip_size (FE.GetValueOffset node s)
  = FE.m_skip_size (FE.GetValueOffset node s').
Proof.
  unfold FE.GetValueOffset. destruct s, s'. simpl. intros -> ->.
  repeat case_match; done.
Qed.


(** *** The invariant of the view *)

Lemma fresh_advance_0 fuel b :
  MapIterator.advance fuel (fresh_cursor b) 0
  = Some (first_node b, fresh_cursor b).
Proof. unfold MapIterator.advance. simpl. by destruct fuel. Qed.

Lemma view_inv_create b : view_inv b (FE.create b).
Proof.
  split.
  - apply create_backend.
  - by right.
  - done.
  - left. apply create_count.
  - left. apply create_element_type.
  - left. apply create_skip_size.
  - intros _ k it. unfold FE.create, FE.Update. simpl. by case_match.
Qed.

Lemma view_inv_Update b s : view_inv b s → view_inv b (FE.Update s).
Proof.
  intros [Hb Ht Hr Hc Hty Hsk Hca].
  assert (FE.Update s
          = FE.set_skip_size
              (FE.set_element_type (FE.create b) (FE.m_element_type s))
              (FE.m_skip_size s)) as ->.
  { unfold FE.create, FE.Update. destruct s. simpl in *. subst.
    by case_match. }
  pose proof (view_inv_create b) as [Hb' Ht' Hr' Hc' Hty' Hsk' Hca'].
  split; simpl; try done.
Qed.

Lemma view_inv_CalculateNumChildren b s :
  view_inv b s →
  view_inv b (FE.CalculateNumChildren s).2
  ∧ (is_Some (FE.m_tree s) → (FE.CalculateNumChildren s).1 = count_of b).
Proof.
  intros [Hb Ht Hr Hc Hty Hsk Hca].
  assert (is_Some (FE.m_tree s) → (FE.CalculateNumChildren s).1 = count_of b)
    as Hcount.
  { intros Hsome.
    destruct (decide (FE.m_count s = UINT32_MAX)) as [Hm|Hm].
    - apply CalculateNumChildren_ext.
      + by rewrite create_count.
      + destruct Ht as [Ht|Ht]; [|done]. rewrite Ht in Hsome.
        by destruct Hsome.
    - destruct Hc as [Hc|Hc]; [done|]. unfold FE.CalculateNumChildren.
      by apply Z.eqb_neq in Hm as ->. }
  split; [|done].
  rewrite CalculateNumChildren_frame. split; simpl; try done.
  unfold FE.CalculateNumChildren in *.
  repeat case_match; simpl in *; try done.
  right. apply Hcount. by eexists.
Qed.

Lemma view_inv_GetDataType b s :
  view_inv b s →
  view_inv b (FE.GetDataType s).2
  ∧ (FE.GetDataType s).1 = bool_decide (is_Some (type_of b))
  ∧ ((FE.GetDataType s).1 = true →
     FE.m_element_type (FE.GetDataType s).2 = type_of b).
Proof.
  intros Hinv. pose proof Hinv as [Hb Ht Hr Hc Hty Hsk Hca].
  destruct (FE.m_element_type s) as [ty|] eqn:Ety.
  - rewrite GetDataType_valid by (by rewrite Ety). simpl.
    destruct Hty as [?|Hty]; [done|]. rewrite <- Hty.
    by rewrite bool_decide_true.
  - destruct (GetDataType_ext s (FE.create b)) as [H1 H2].
    { by rewrite create_backend. } { done. }
    { by rewrite create_element_type. }
    fold (type_of b) in H2. rewrite GetDataType_result, H2.
    split; [|done].
    rewrite GetDataType_frame, H2. split; simpl; try done.
    + by right.
    + destruct Hsk as [?|(Hs & _)]; [by left|]. by destruct Hs.
Qed.

Lemma first_node_advance fuel b v it :
  MapIterator.advance fuel (fresh_cursor b) 0 = Some (Some v, it) →
  first_node b = Some v ∧ it = fresh_cursor b.
Proof. rewrite fresh_advance_0. by intros [= -> ->]. Qed.

(** The offset that [GetValueOffset] leaves behind on the first node. *)
Lemma GetValueOffset_offset_of b s d :
  view_inv b s → FE.m_element_type s = type_of b →
  first_deref b = Some d →
  FE.m_skip_size (FE.GetValueOffset (Some d) s) = offset_of b.
Proof.
  intros [Hb Ht Hr Hc Hty Hsk Hca] Hty' Hd.
  destruct (decide (FE.m_skip_size s = UINT32_MAX)) as [Hm|Hm].
  - unfold offset_of. rewrite Hd. apply GetValueOffset_ext; simpl.
    + by rewrite create_skip_size.
    + done.
  - rewrite GetValueOffset_resolved by done.
    by destruct Hsk as [Hsk|(_ & _ & Hsk)].
Qed.

Lemma skip_size_no_deref b s :
  view_inv b s → first_deref b = None → FE.m_skip_size s = offset_of b.
Proof.
  intros [Hb Ht Hr Hc Hty Hsk Hca] Hd. unfold offset_of. rewrite Hd.
  destruct Hsk as [Hsk|(_ & Hs & _)]; [done|]. rewrite Hd in Hs.
  by destruct Hs.
Qed.

Lemma view_inv_GetValueOffset b s d :
  view_inv b s → FE.m_element_type s = type_of b → is_Some (type_of b) →
  first_deref b = Some d →
  view_inv b (FE.GetValueOffset (Some d) s).
Proof.
  intros Hinv Hty' Hsome Hd.
  pose proof (GetValueOffset_offset_of b s d Hinv Hty' Hd) as Hoff.
  destruct Hinv as [Hb Ht Hr Hc Hty Hsk Hca].
  rewrite GetValueOffset_frame. split; simpl; try done.
  right. rewrite Hty', Hd. split_and!; done.
Qed.

Lemma view_inv_insert b s k it fuel v :
  view_inv b s → 0 ≤ k < count_of b →
  MapIterator.advance fuel (fresh_cursor b) k = Some (Some v, it) →
  view_inv b (FE.set_iterators s (<[k:=it]> (FE.m_iterators s))).
Proof.
  intros [Hb Ht Hr Hc Hty Hsk Hca] Hk Hadv. split; simpl; try done.
  intros Htree k' it'. destruct (decide (k = k')) as [<-|Hne].
  - rewrite lookup_insert_eq. intros [= <-]. split; [done|]. by exists fuel, v.
  - rewrite lookup_insert_ne by done. by apply Hca.
Qed.

Lemma key_value_at_0 b v :
  is_Some (type_of b) →
  key_value_at b 0 v
  = deref_of v ≫= λ d, GetSyntheticChildAtOffset d (offset_of b) (type_of b).
Proof. intros H. unfold key_value_at. by rewrite bool_decide_true. Qed.

Lemma key_value_at_pos b idx v :
  is_Some (type_of b) → 0 < idx →
  key_value_at b idx v
  = if offset_of b =? UINT32_MAX then None
    else GetSyntheticChildAtOffset v (offset_of b) (type_of b).
Proof.
  intros H Hidx. unfold key_value_at. rewrite bool_decide_true by done.
  by destruct (Z.gtb_spec idx 0); [|lia].
Qed.

Lemma key_value_at_invalid b idx v :
  ¬ is_Some (type_of b) → key_value_at b idx v = None.
Proof. intros H. unfold key_value_at. by rewrite bool_decide_false. Qed.

(** [GetKeyValuePair] on a view that has not been invalidated: the pair
    it answers is the pair of the node that a fresh cursor arrives at,
    whichever cursor it started from. *)
Lemma GetKeyValuePair_with_spec b child0 fuel idx s r s' :
  (0 < idx → child0_spec b child0) →
  view_inv b s → is_Some (FE.m_tree s) → 0 ≤ idx < count_of b →
  FE.GetKeyValuePair_with child0 fuel idx (count_of b) s = Some (r, s') →
  view_inv b s'
  ∧ (is_Some (FE.m_element_type s) →
     FE.m_element_type s' = FE.m_element_type s)
  ∧ (is_Some (FE.m_element_type s) → idx = 0 →
     FE.m_skip_size s' = offset_of b)
  ∧ (FE.m_tree s' = FE.m_tree s ∨ first_node b ≫= key_value_at b 0 = None)
  ∧ ∃ f radv,
      MapIterator.advance f (fresh_cursor b) idx = Some radv
      ∧ r = radv.1 ≫= key_value_at b idx.
Proof.
  intros Hchild Hinv Htree Hidx.
  pose proof Hinv as [Hb Ht Hr Hc Hty Hsk Hca].
  pose proof (count_of_range b) as Hrange.
  unfold FE.GetKeyValuePair_with. rewrite Hr. fold (fresh_cursor b).
  (* the cursor the walk starts from *)
  assert (∀ it0 adv radv,
    (if idx >? 0
     then match FE.m_iterators s !! (idx - 1) with
          | Some cached_iterator => (cached_iterator, 1)
          | None => (fresh_cursor b, idx)
          end
     else (fresh_cursor b, idx)) = (it0, adv) →
    MapIterator.advance fuel it0 adv = Some radv →
    ∃ f, MapIterator.advance f (fresh_cursor b) idx = Some radv) as Hstart.
  { intros it0 adv radv Hsel Hadv.
    destruct (Z.gtb_spec idx 0); [|injection Hsel as <- <-; by exists fuel].
    destruct (FE.m_iterators s !! (idx - 1)) as [c|] eqn:Ec;
      injection Hsel as <- <-; [|by exists fuel].
    destruct (Hca Htree _ _ Ec) as (Hk & f & v & Hf).
    exists (f + fuel)%nat. replace idx with (idx - 1 + 1) at 1 by lia.
    eapply advance_app; eauto; simpl; lia. }
  destruct (if idx >? 0 then _ else _) as [it0 adv] eqn:Hsel.
  destruct (MapIterator.advance fuel it0 adv) as [[isp it']|] eqn:Hadv;
    [|done].
  destruct (Hstart _ _ _ eq_refl Hadv) as (f & Hf). clear Hstart. simpl.
  destruct isp as [v|].
  2:{ intros [= <- <-]. split_and!; try done.
      - intros _ ->. apply skip_size_no_deref; [done|].
        rewrite fresh_advance_0 in Hf. injection Hf as Hf _.
        unfold first_deref. by rewrite Hf.
      - by left.
      - by exists f, (None, it'). }
  pose proof (view_inv_GetDataType b s Hinv) as (Hinv1 & Hok & Hty1).
  pose proof (GetDataType_frame s) as Hfr1.
  pose proof (GetDataType_valid s) as Hvalid.
  destruct (FE.GetDataType s) as [ok s1]. simpl in Hinv1, Hok, Hty1, Hfr1.
  assert (is_Some (FE.m_tree s1)) as Htree1 by (by rewrite Hfr1).
  assert (FE.m_tree s1 = FE.m_tree s) as Htr1 by (by rewrite Hfr1).
  assert (is_Some (FE.m_element_type s) →
          FE.m_element_type s1 = FE.m_element_type s) as Hkeep.
  { intros Hs. destruct ok.
    - rewrite Hty1 by done. destruct Hty as [Hty|Hty]; [|done].
      rewrite Hty in Hs. by destruct Hs.
    - symmetry in Hok. apply bool_decide_eq_false in Hok.
      destruct Hty as [Hty|Hty]; rewrite Hty in Hs; [by destruct Hs|done]. }
  destruct ok; simpl.
  2:{ symmetry in Hok. apply bool_decide_eq_false in Hok.
      intros [= <- <-]. split_and!; try done.
      - intros Hs. by specialize (Hvalid Hs).
      - by left.
      - exists f, (Some v, it'). split; [done|]. simpl.
        by rewrite key_value_at_invalid. }
  symmetry in Hok. apply bool_decide_eq_true in Hok.
  specialize (Hty1 eq_refl).
  destruct (Z.gtb_spec idx 0) as [Hpos|Hnpos]; simpl.
  - (* idx > 0: the offset must have been resolved, by index 0 if need be *)
    assert (
      (if FE.m_skip_size s1 =? UINT32_MAX then child0 s1 else Some s1) = None
      ∨ ∃ s2,
      (if FE.m_skip_size s1 =? UINT32_MAX then child0 s1 else Some s1)
      = Some s2
      ∧ view_inv b s2 ∧ FE.m_skip_size s2 = offset_of b
      ∧ FE.m_element_type s2 = type_of b
      ∧ (FE.m_tree s2 = FE.m_tree s
         ∨ first_node b ≫= key_value_at b 0 = None))
      as [->|(s2 & -> & Hinv2 & Hsk2 & Hty2 & Htr2)]; [|done|].
    { destruct (Z.eqb_spec (FE.m_skip_size s1) UINT32_MAX) as [Hm|Hm].
      - destruct (child0 s1) as [s2|] eqn:Ec.
        + destruct (Hchild Hpos s1 s2) as (? & ? & ? & ?); try done.
          { by rewrite Hty1. } { lia. }
          right. exists s2. split_and!; try done; [congruence|].
          by rewrite <- Htr1.
        + by left.
      - right. exists s1. split_and!; try done; [|by left].
        by destruct Hinv1 as [_ _ _ _ _ [?|(_ & _ & ?)] _]. }
    simpl. rewrite Hsk2, Hty2. intros Hres.
    assert (r = key_value_at b idx v) as Hrv.
    { rewrite key_value_at_pos by done.
      destruct (offset_of b =? UINT32_MAX); [by injection Hres as <- _|].
      destruct (GetSyntheticChildAtOffset _ _ _); by injection Hres as <- _. }
    assert (s' = s2
            ∨ s' = FE.set_iterators s2 (<[idx:=it']> (FE.m_iterators s2))
              ∧ is_Some r) as Hs'.
    { destruct (offset_of b =? UINT32_MAX); [left; by injection Hres|].
      destruct (GetSyntheticChildAtOffset _ _ _);
        [right|left]; by injection Hres as <- <-. }
    assert (view_inv b s') as Hinv'.
    { destruct Hs' as [->|[-> [kv ->]]]; [done|].
      symmetry in Hrv. eapply view_inv_insert; [done|lia|].
      exact Hf. }
    split_and!; try done.
    + intros Hs. rewrite <- (Hkeep Hs), Hty1, <- Hty2.
      by destruct Hs' as [->|[-> _]].
    + lia.
    + by destruct Hs' as [->|[-> _]].
    + by exists f, (Some v, it').
  - (* idx = 0 *)
    assert (idx = 0) as -> by lia.
    destruct (first_node_advance _ _ _ _ Hf) as [Hfirst ->].
    assert (first_deref b = deref_of v) as Hfd.
    { unfold first_deref. by rewrite Hfirst. }
    unfold deref_of in *.
    destruct (Dereference v) as [[d|] [|]] eqn:Ed.
    1,3,4: intros [= <- <-]; split_and!; try done;
      [intros; by apply skip_size_no_deref|by left
      |exists f, (Some v, fresh_cursor b); split; [done|]; simpl;
       rewrite key_value_at_0 by done; unfold deref_of; by rewrite Ed].
    pose proof (view_inv_GetValueOffset b s1 d Hinv1 Hty1 Hok Hfd) as Hinv2.
    pose proof (GetValueOffset_offset_of b s1 d Hinv1 Hty1 Hfd) as Hsk2.
    pose proof (GetValueOffset_element_type (Some d) s1) as Hty2.
    pose proof (GetValueOffset_tree (Some d) s1) as Htr2.
    rewrite Hsk2, Hty2, Hty1.
    destruct (GetSyntheticChildAtOffset d (offset_of b) (type_of b))
      as [kv|] eqn:Ekv; intros [= <- <-].
    + split_and!; simpl; try done.
      * eapply (view_inv_insert b _ 0 _ f v) in Hinv2; [done|lia|done].
      * intros Hs. by rewrite Hty2, <- (Hkeep Hs).
      * left. by rewrite Htr2.
      * exists f, (Some v, fresh_cursor b). split; [done|]. simpl.
        rewrite key_value_at_0 by done. unfold deref_of. by rewrite Ed.
    + split_and!; simpl; try done.
      * intros Hs. by rewrite Hty2, <- (Hkeep Hs).
      * left. by rewrite Htr2.
      * exists f, (Some v, fresh_cursor b). split; [done|]. simpl.
        rewrite key_value_at_0 by done. unfold deref_of. by rewrite Ed.
Qed.

(** [GetChildAtIndex] on a view in a state it can be in. *)
Lemma GetChildAtIndex_with_spec b child0 fuel idx s r s' :
  (0 < idx → child0_spec b child0) →
  view_inv b s → 0 ≤ idx →
  FE.GetChildAtIndex_with (FE.GetKeyValuePair_with child0) fuel idx s
  = Some (r, s') →
  view_inv b s'
  ∧ (is_Some (FE.m_element_type s) →
     FE.m_element_type s' = FE.m_element_type s)
  ∧ (is_Some (FE.m_tree s) → is_Some (FE.m_element_type s) →
     idx = 0 → 0 < count_of b →
     FE.m_skip_size s' = offset_of b)
  ∧ (is_Some (FE.m_tree s) →
     if decide (idx < count_of b ∧ is_Some (root_of b)) then
       ∃ f radv,
         MapIterator.advance f (fresh_cursor b) idx = Some radv
         ∧ r = radv.1 ≫= payload_at b idx
         ∧ (FE.m_tree s' = FE.m_tree s
            ∨ radv.1 ≫= key_value_at b idx = None
            ∨ first_node b ≫= key_value_at b 0 = None)
     else r = None ∧ s' = (FE.CalculateNumChildren s).2)
  ∧ (FE.m_tree s = None → r = None ∧ s' = (FE.CalculateNumChildren s).2).
Proof.
  intros Hchild Hinv Hidx.
  unfold FE.GetChildAtIndex_with, FE.CalculateNumChildrenIgnoringErrors.
  pose proof (view_inv_CalculateNumChildren b s Hinv) as [Hinv0 Hn].
  pose proof (CalculateNumChildren_frame s) as Hfr.
  destruct (FE.CalculateNumChildren s) as [n s0]. simpl in Hinv0, Hn, Hfr.
  assert (FE.m_tree s0 = FE.m_tree s) as Htr0 by (by rewrite Hfr).
  assert (FE.m_element_type s0 = FE.m_element_type s) as Hty0
    by (by rewrite Hfr).
  assert (FE.m_skip_size s0 = FE.m_skip_size s) as Hsk0 by (by rewrite Hfr).
  assert (FE.m_root_node s0 = root_of b) as Hr0 by (by destruct Hinv0).
  assert (¬ is_Some (root_of b) → FE.m_skip_size s0 = offset_of b) as Hnoroot.
  { intros Hroot. apply skip_size_no_deref; [done|].
    unfold first_deref, first_node.
    destruct (root_of b); [by destruct Hroot|done]. }
  simpl.
  destruct (Z.geb_spec idx n) as [Hge|Hlt].
  { intros [= <- <-]. split_and!; try done.
    - intros Hs _ -> Hc. rewrite Hn in Hge by done. lia.
    - intros Hs. rewrite Hn in Hge by done.
      rewrite decide_False; [done|lia]. }
  destruct (FE.m_tree s0) as [tr|] eqn:Etr0.
  2:{ intros [= <- <-]. split_and!; try done.
      - intros Hs. rewrite <- Htr0 in Hs. by destruct Hs.
      - intros Hs. rewrite <- Htr0 in Hs. by destruct Hs. }
  assert (is_Some (FE.m_tree s)) as Htree by (by rewrite <- Htr0).
  rewrite Hn in * by done.
  destruct (FE.m_root_node s0) as [rn|] eqn:Ern0.
  2:{ intros [= <- <-]. split_and!; try done.
      - intros _ _ _ _. apply Hnoroot. rewrite <- Hr0. by intros [? ?].
      - intros _. rewrite decide_False; [done|].
        rewrite <- Hr0. by intros [_ [? ?]]. }
  destruct (FE.GetKeyValuePair_with child0 fuel idx (count_of b) s0)
    as [[kv s1]|] eqn:Ekv; [|done].
  destruct (GetKeyValuePair_with_spec b child0 fuel idx s0 kv s1)
    as (Hinv1 & Hty1 & Hsk1 & Htr1 & f & radv & Hf & Hkv); try done.
  simpl.
  assert (r = kv ≫= (λ kv, FE.clone_and_unwrap kv idx) →
          r = radv.1 ≫= payload_at b idx) as Hpay.
  { intros ->. rewrite Hkv. unfold payload_at.
    by destruct radv.1 as [v|]; simpl. }
  destruct kv as [kv|]; intros [= <- <-].
  - split_and!; try done.
    + intros Hs. rewrite <- Hty0. apply Hty1. by rewrite Hty0.
    + intros _ Hs Hi _. apply Hsk1; [by rewrite Hty0|done].
    + intros _. rewrite decide_True by (by rewrite <- Hr0).
      exists f, radv. split_and!; [done|by apply Hpay|].
      destruct Htr1 as [?|?]; [left; congruence|right; right; done].
    + intros Hs. rewrite Hs in Htree. by destruct Htree.
  - assert (view_inv b (FE.set_tree s1 None)) as Hinv'.
    { destruct Hinv1. split; simpl; try done. by left. }
    split_and!; try done.
    + intros Hs. simpl. rewrite <- Hty0. apply Hty1. by rewrite Hty0.
    + intros _ Hs Hi _. simpl. apply Hsk1; [by rewrite Hty0|done].
    + intros _. rewrite decide_True by (by rewrite <- Hr0).
      exists f, radv. split_and!; [done|by apply Hpay|].
      right; left. by rewrite <- Hkv.
    + intros Hs. rewrite Hs in Htree. by destruct Htree.
Qed.

Lemma GetChildAtIndex_first_spec b fuel :
  child0_spec b (FE.GetChildAtIndex_first fuel).
Proof.
  intros s s' Hinv Htree Hty Hc. unfold FE.GetChildAtIndex_first.
  destruct (FE.GetChildAtIndex_with _ _ _ _) as [[r s1]|] eqn:E; [|done].
  simpl. intros [= <-].
  destruct (GetChildAtIndex_with_spec b (λ s, Some s) fuel 0 s r s1)
    as (Hinv1 & Hty1 & Hsk1 & Hres & _); try done.
  split_and!; try by auto.
  specialize (Hres Htree). case_decide as Hd.
  - destruct Hres as (f & radv & Hf & _ & [?|[Hr|?]]); [by left|right|by right].
    rewrite fresh_advance_0 in Hf. by injection Hf as <-.
  - left. destruct Hres as [_ ->]. by rewrite CalculateNumChildren_frame.
Qed.

Theorem GetChildAtIndex_spec b fuel idx s r s' :
  view_inv b s → 0 ≤ idx →
  FE.GetChildAtIndex fuel idx s = Some (r, s') →
  view_inv b s'
  ∧ (is_Some (FE.m_tree s) →
     if decide (idx < count_of b ∧ is_Some (root_of b)) then
       ∃ f radv,
         MapIterator.advance f (fresh_cursor b) idx = Some radv
         ∧ r = radv.1 ≫= payload_at b idx
         ∧ (FE.m_tree s' = FE.m_tree s
            ∨ radv.1 ≫= key_value_at b idx = None
            ∨ first_node b ≫= key_value_at b 0 = None)
     else r = None ∧ s' = (FE.CalculateNumChildren s).2)
  ∧ (FE.m_tree s = None → r = None ∧ s' = (FE.CalculateNumChildren s).2).
Proof.
  intros Hinv Hidx H.
  destruct (GetChildAtIndex_with_spec b (FE.GetChildAtIndex_first fuel)
              fuel idx s r s') as (? & _ & _ & ? & ?); try done.
  intros _. apply GetChildAtIndex_first_spec.
Qed.

Lemma reachable_view_inv b s : reachable b s → view_inv b s.
Proof.
  induction 1 as [|s _ IH|s _ IH|s fuel idx r s' _ IH Hidx Hget].
  - apply view_inv_create.
  - by apply view_inv_Update.
  - by apply view_inv_CalculateNumChildren.
  - by destruct (GetChildAtIndex_spec b fuel idx s r s').
Qed.

End View.

(** ** The cursor: error flag and step budget *)

Section CursorClaims.
Context `{D : Debugger}.

Implicit Types (it : MapIterator.t) (e x : MapEntry.t) (fuel n : nat).




(** *** Running over the budget *)

Lemma next_loop_budget fuel it steps :
  MapIterator.m_max_depth it < 2 ^ 64 - 1 →
  0 ≤ steps ≤ MapIterator.m_max_depth it →
  MapIterator.m_max_depth it + 1 - steps ≤ Z.of_nat fuel →
  (∀ k : nat,
     Z.of_nat k ≤ MapIterator.m_max_depth it - steps →
     MapIterator.is_left_child (ancestor k (MapIterator.m_entry it)) = false
     ∧ MapEntry.error (ancestor k (MapIterator.m_entry it)) = false) →
  MapIterator.next_loop fuel it steps
  = Some (true, MapIterator.set_entry it MapEntry.empty).
Proof.
  revert it steps.
  induction fuel as [|fuel IH]; intros it steps Hmax Hs Hf Hk; [lia|].
  destruct (Hk 0%nat) as [H1 H2]; [lia|]. cbn [ancestor] in H1, H2.
  cbn [MapIterator.next_loop]. rewrite H1, H2.
  rewrite size_t_succ_small by lia. cbn [MapIterator.set_entry
    MapIterator.m_max_depth MapIterator.m_entry MapIterator.m_error].
  destruct (Z.gtb_spec (steps + 1) (MapIterator.m_max_depth it)); [done|].
  rewrite IH; cbn [MapIterator.set_entry MapIterator.m_max_depth
    MapIterator.m_entry MapIterator.m_error]; [done|lia..|].
  intros k Hle. apply (Hk (S k)). lia.
Qed.

Lemma tree_min_loop_budget fuel it x l steps :
  MapIterator.m_max_depth it < 2 ^ 64 - 1 →
  0 ≤ steps ≤ MapIterator.m_max_depth it →
  MapIterator.m_max_depth it + 1 - steps ≤ Z.of_nat fuel →
  (∀ k : nat,
     Z.of_nat k ≤ MapIterator.m_max_depth it - steps →
     MapEntry.null (descendant k l) = false
     ∧ MapEntry.error (descendant k l) = false) →
  MapIterator.tree_min_loop fuel it x l steps = Some (MapEntry.empty, it).
Proof.
  revert x l steps.
  induction fuel as [|fuel IH]; intros x l steps Hmax Hs Hf Hk; [lia|].
  destruct (Hk 0%nat) as [H1 H2]; [lia|]. cbn [descendant] in H1, H2.
  cbn [MapIterator.tree_min_loop]. rewrite H1, H2.
  rewrite size_t_succ_small by lia.
  destruct (Z.gtb_spec (steps + 1) (MapIterator.m_max_depth it)); [done|].
  apply IH; [lia..|].
  intros k Hle. apply (Hk (S k)). lia.
Qed.

(** A walk that runs over the budget leaves the null entry and no error. *)
Lemma next_over_budget fuel it :
  MapIterator.m_error it = false →
  0 ≤ MapIterator.m_max_depth it < 2 ^ 64 - 1 →
  MapIterator.m_max_depth it < Z.of_nat fuel →
  MapEntry.null (MapIterator.m_entry it) = false →
  let right := MapEntry.mk (MapEntry.right (MapIterator.m_entry it)) in
  (MapEntry.null right = true
   ∧ ∀ k : nat,
       Z.of_nat k ≤ MapIterator.m_max_depth it →
       MapIterator.is_left_child (ancestor k (MapIterator.m_entry it)) = false
       ∧ MapEntry.error (ancestor k (MapIterator.m_entry it)) = false)
  ∨ (MapEntry.null right = false
     ∧ ∀ k : nat,
         Z.of_nat k ≤ MapIterator.m_max_depth it →
         MapEntry.null (descendant (S k) right) = false
         ∧ MapEntry.error (descendant (S k) right) = false) →
  ∃ it',
    MapIterator.next fuel it = Some it'
    ∧ MapIterator.m_error it' = false
    ∧ MapIterator.m_entry it' = MapEntry.empty
    ∧ MapEntry.null (MapIterator.m_entry it') = true
    ∧ ∀ count, 0 < count → MapIterator.advance fuel it count = Some (None, it').
Proof.
  intros Herr Hmax Hfuel Hnull right Hwalk.
  exists (MapIterator.set_entry it MapEntry.empty).
  assert (MapIterator.next fuel it
          = Some (MapIterator.set_entry it MapEntry.empty)) as Hnext.
  { unfold MapIterator.next. rewrite Hnull. fold right.
    destruct Hwalk as [[Hr Hup]|[Hr Hdown]]; rewrite Hr; cbn [negb].
    - rewrite next_loop_budget; [done|lia..|].
      intros k Hk. apply Hup. lia.
    - unfold MapIterator.tree_min. rewrite Hr.
      rewrite tree_min_loop_budget; [done|lia..|].
      intros k Hk. apply (Hdown k). lia. }
  split_and!; try done.
  intros count Hcount. unfold MapIterator.advance. rewrite Herr.
  destruct fuel as [|fuel]; [lia|]. cbn [MapIterator.advance_loop].
  destruct (Z.gtb_spec count 0); [|lia]. rewrite Hnext. simpl.
  by rewrite Herr.
Qed.

End CursorClaims.

(** C10: for every cursor whose error flag is unset, [advance(0)] takes
    no traversal step: whatever the fuel, even none, it answers the
    current entry of the cursor (absent when the entry is) and leaves the
    cursor, its entry, budget and flag, as it was. *)
Theorem advance_zero `{D : Debugger} (fuel : nat) (it : MapIterator.t) :
  MapIterator.m_error it = false →
  MapIterator.advance fuel it 0
  = Some (MapEntry.GetEntry (MapIterator.m_entry it), it).
Proof. apply advance_0. Qed.

Lemma advance_zero_witness :
  let D := Toy.debugger Toy.three in
  let it := MapIterator.make (Some (Toy.VPtr 12288)) 3 in
  MapIterator.m_error it = false
  ∧ MapIterator.advance 0 it 0 = Some (Some (Toy.VPtr 12288), it).
Proof.
  split; [reflexivity|].
  apply (advance_zero (D := Toy.debugger Toy.three)). reflexivity.
Defined.




(** C6: when the upward parent walk or the leftmost descent of [next]
    runs over the step budget (the walk meets [m_max_depth + 1] entries
    in a row that are not left children and report no error, or the
    descent as many left children that are not null and report no
    error), the error flag stays unset and the cursor is left on the
    null entry: [advance] answers absent, as it does at the end of the
    sequence. *)
Theorem budget_exceeded_is_neutral `{D : Debugger} (fuel : nat)
    (it : MapIterator.t) :
  MapIterator.m_error it = false →
  0 ≤ MapIterator.m_max_depth it < 2 ^ 64 - 1 →
  MapIterator.m_max_depth it < Z.of_nat fuel →
  MapEntry.null (MapIterator.m_entry it) = false →
  let right := MapEntry.mk (MapEntry.right (MapIterator.m_entry it)) in
  (MapEntry.null right = true
   ∧ ∀ k : nat,
       Z.of_nat k ≤ MapIterator.m_max_depth it →
       MapIterator.is_left_child (ancestor k (MapIterator.m_entry it)) = false
       ∧ MapEntry.error (ancestor k (MapIterator.m_entry it)) = false)
  ∨ (MapEntry.null right = false
     ∧ ∀ k : nat,
         Z.of_nat k ≤ MapIterator.m_max_depth it →
         MapEntry.null (descendant (S k) right) = false
         ∧ MapEntry.error (descendant (S k) right) = false) →
  ∃ it',
    MapIterator.next fuel it = Some it'
    ∧ MapIterator.m_error it' = false
    ∧ MapIterator.m_entry it' = MapEntry.empty
    ∧ MapEntry.null (MapIterator.m_entry it') = true
    ∧ ∀ count, 0 < count → MapIterator.advance fuel it count = Some (None, it').
Proof. apply next_over_budget. Qed.

Lemma budget_exceeded_is_neutral_witness :
  let D := Toy.debugger Toy.cyclic in
  let it := MapIterator.make (Some (Toy.VPtr 12288)) 2 in
  ∃ it',
    MapIterator.next 3 it = Some it'
    ∧ MapIterator.m_error it' = false
    ∧ MapIterator.m_entry it' = MapEntry.empty
    ∧ MapEntry.null (MapIterator.m_entry it') = true
    ∧ ∀ count, 0 < count → MapIterator.advance 3 it count = Some (None, it').
Proof.
  intros D it.
  apply (budget_exceeded_is_neutral (D := D) 3 it);
    [reflexivity|simpl; lia|reflexivity|reflexivity|].
  left. split; [reflexivity|].
  intros k Hk.
  destruct k as [|[|[|k]]]; [vm_compute; split; reflexivity..|].
  exfalso. change (MapIterator.m_max_depth it) with 2 in Hk. lia.
Defined.

(** The same in the other walk: in [Toy.left_cyclic] the descent below
    the right child of the first node never meets a null left child. *)
Example descent_over_budget :
  let D := Toy.debugger Toy.left_cyclic in
  let it := MapIterator.make (Some (Toy.VPtr 12288)) 2 in
  MapIterator.next 3 it = Some (MapIterator.set_entry it MapEntry.empty)
  ∧ MapIterator.advance 3 it 1
    = Some (None, MapIterator.set_entry it MapEntry.empty).
Proof. split; vm_compute; reflexivity. Qed.

(** ** The iterator front end *)

Module IFE := LibCxxMapIteratorSyntheticFrontEnd.

(** C8: when the path [.__i_.__ptr_->__value_] resolves to nothing and
    the pointer of the iterator reads as 0 or as [LLDB_INVALID_ADDRESS]
    (which is also what a pointer that cannot be read is taken for),
    [Update] materializes no pair, neither [m_pair_ptr] nor [m_pair_sp],
    and every [GetChildAtIndex] answers absent. *)
Theorem recover_pair_invalid_address `{D : Debugger} (s : IFE.t)
    (valobj p : ValueObject) :
  GetSP (IFE.m_backend s) = Some valobj →
  GetValueForExpressionPath valobj ".__i_.__ptr_->__value_" = None →
  GetValueForExpressionPath valobj ".__i_.__ptr_" = Some p →
  GetValueAsUnsigned p LLDB_INVALID_ADDRESS = 0
  ∨ GetValueAsUnsigned p LLDB_INVALID_ADDRESS = LLDB_INVALID_ADDRESS →
  IFE.m_pair_ptr (IFE.Update s) = None
  ∧ IFE.m_pair_sp (IFE.Update s) = None
  ∧ ∀ idx, IFE.GetChildAtIndex idx (IFE.Update s) = None.
Proof.
  intros Hsp Hfast Hptr Haddr.
  assert (IFE.m_pair_ptr (IFE.Update s) = None
          ∧ IFE.m_pair_sp (IFE.Update s) = None) as [H1 H2].
  { unfold IFE.Update. simpl. rewrite Hsp.
    destruct (GetTargetSP valobj) as [target|]; [|done].
    rewrite Hfast, Hptr. simpl.
    destruct (GetChildMemberWithName valobj "__i_") as [i_|]; [|done].
    destruct (CompilerType_GetFieldAtIndex _ _) as [ty|]; [|done].
    assert (negb (GetValueAsUnsigned p LLDB_INVALID_ADDRESS =? 0)
            && negb (GetValueAsUnsigned p LLDB_INVALID_ADDRESS
                     =? LLDB_INVALID_ADDRESS) = false) as ->; [|done].
    by destruct Haddr as [-> | ->]. }
  split_and!; try done.
  intros idx. unfold IFE.GetChildAtIndex. by rewrite H1, H2.
Qed.

Lemma recover_pair_invalid_address_witness :
  let D := Toy.debugger Toy.null_iterator in
  let s := IFE.mk Toy.VIter None None in
  IFE.m_pair_ptr (IFE.Update s) = None
  ∧ IFE.m_pair_sp (IFE.Update s) = None
  ∧ ∀ idx, IFE.GetChildAtIndex idx (IFE.Update s) = None.
Proof.
  intros D s.
  apply (recover_pair_invalid_address (D := D) s Toy.VIter Toy.VIterPtr);
    [reflexivity|reflexivity|reflexivity|left; reflexivity].
Defined.

(** An iterator whose pointer cannot be read, and an iterator at
    node(2), whose pair is recovered from the bytes of the node. *)
Example recover_pair_scenarios :
  (let D := Toy.debugger Toy.unreadable_iterator in
   IFE.GetChildAtIndex 0 (IFE.create Toy.VIter) = None)
  ∧ (let D := Toy.debugger Toy.root_iterator in
     IFE.m_pair_sp (IFE.create Toy.VIter) = Some (Toy.VBlock [2])).
Proof. split; vm_compute; reflexivity. Qed.

(** ** The view: termination *)

Section ViewTermination.
Context `{D : Debugger}.

Implicit Types (s : FE.t) (b : ValueObject).

Lemma advance_max_depth fuel (it : MapIterator.t) count r it' :
  MapIterator.advance fuel it count = Some (r, it') →
  MapIterator.m_max_depth it' = MapIterator.m_max_depth it.
Proof.
  unfold MapIterator.advance. destruct (MapIterator.m_error it).
  - by intros [= _ <-].
  - apply advance_max_depth_loop.
Qed.

Lemma advance_Some_error fuel (it : MapIterator.t) count v it' :
  MapIterator.advance fuel it count = Some (Some v, it') →
  MapIterator.m_error it' = false.
Proof.
  unfold MapIterator.advance. destruct (MapIterator.m_error it) eqn:E; [done|].
  intros H. by eapply advance_loop_Some_error.
Qed.

(** What the view has cached are cursors of the budget [count_of b]
    that are not in error. *)
Lemma cached_cursor b s k it :
  view_inv b s → is_Some (FE.m_tree s) →
  FE.m_iterators s !! k = Some it →
  MapIterator.m_error it = false
  ∧ MapIterator.m_max_depth it = count_of b.
Proof.
  intros Hinv Htree Hk.
  destruct (inv_cache b s Hinv Htree k it Hk) as (_ & f & v & Hadv).
  split.
  - by eapply advance_Some_error.
  - by rewrite (advance_max_depth _ _ _ _ _ Hadv).
Qed.

Lemma GetKeyValuePair_with_total child0 fuel idx max_depth s :
  (∀ s1, is_Some (child0 s1)) →
  0 ≤ max_depth < 2 ^ 64 - 1 → max_depth < Z.of_nat fuel →
  (∀ it, FE.m_iterators s !! (idx - 1) = Some it →
         MapIterator.m_max_depth it = max_depth) →
  is_Some (FE.GetKeyValuePair_with child0 fuel idx max_depth s).
Proof.
  intros Hchild Hmax Hfuel Hcache. unfold FE.GetKeyValuePair_with.
  assert (∀ it0 adv,
    (if idx >? 0
     then match FE.m_iterators s !! (idx - 1) with
          | Some cached_iterator => (cached_iterator, 1)
          | None => (MapIterator.make (FE.m_root_node s) max_depth, idx)
          end
     else (MapIterator.make (FE.m_root_node s) max_depth, idx)) = (it0, adv) →
    is_Some (MapIterator.advance fuel it0 adv)) as Hstart.
  { intros it0 adv Hsel. apply advance_total.
    - destruct (idx >? 0); [|by injection Hsel as <- _].
      destruct (FE.m_iterators s !! (idx - 1)) as [c|] eqn:Ec;
        injection Hsel as <- _; [|done]. by rewrite (Hcache c).
    - destruct (idx >? 0); [|by injection Hsel as <- _].
      destruct (FE.m_iterators s !! (idx - 1)) as [c|] eqn:Ec;
        injection Hsel as <- _; [|done]. by rewrite (Hcache c). }
  destruct (if idx >? 0 then _ else _) as [it0 adv].
  destruct (Hstart it0 adv eq_refl) as [[isp it'] ->]. simpl.
  destruct isp as [v|]; [|done].
  destruct (FE.GetDataType s) as [[|] s1]; simpl; [|done].
  destruct (negb (idx >? 0)).
  - repeat case_match; done.
  - destruct (FE.m_skip_size s1 =? UINT32_MAX).
    + destruct (Hchild s1) as [s2 ->]. simpl. repeat case_match; done.
    + simpl. repeat case_match; done.
Qed.

Lemma GetChildAtIndex_with_total child0 fuel idx s :
  (∀ s1, is_Some (child0 s1)) →
  (FE.CalculateNumChildren s).1 < Z.of_nat fuel →
  (is_Some (FE.m_tree s) →
   ∀ it, FE.m_iterators s !! (idx - 1) = Some it →
         MapIterator.m_max_depth it = (FE.CalculateNumChildren s).1) →
  is_Some
    (FE.GetChildAtIndex_with (FE.GetKeyValuePair_with child0) fuel idx s).
Proof.
  intros Hchild Hfuel Hcache.
  unfold FE.GetChildAtIndex_with, FE.CalculateNumChildrenIgnoringErrors.
  pose proof (CalculateNumChildren_range s) as Hrange.
  pose proof (CalculateNumChildren_frame s) as Hfr.
  destruct (FE.CalculateNumChildren s) as [n s0]. simpl in *.
  destruct (idx >=? n); [done|].
  destruct (FE.m_tree s0) as [tr|] eqn:Etr; [|done].
  destruct (FE.m_root_node s0) as [rn|]; [|done].
  destruct (GetKeyValuePair_with_total child0 fuel idx n s0)
    as [[kv s1] ->]; try done; try lia.
  - intros it Hit. apply Hcache.
    + rewrite Hfr in Etr. simpl in Etr. by rewrite Etr.
    + by rewrite Hfr in Hit.
  - simpl. by destruct kv.
Qed.

Lemma GetChildAtIndex_first_total fuel s :
  is_Some (FE.GetChildAtIndex_first fuel s).
Proof.
  unfold FE.GetChildAtIndex_first.
  assert (is_Some
            (FE.GetChildAtIndex_with (FE.GetKeyValuePair_with (λ s, Some s))
               fuel 0 s)) as [[r s'] ->]; [|done].
  unfold FE.GetChildAtIndex_with, FE.CalculateNumChildrenIgnoringErrors.
  destruct (FE.CalculateNumChildren s) as [n s0].
  destruct (0 >=? n); [done|].
  destruct (FE.m_tree s0); [|done]. destruct (FE.m_root_node s0); [|done].
  unfold FE.GetKeyValuePair_with. simpl.
  unfold MapIterator.advance. simpl.
  assert (∀ it, MapIterator.advance_loop fuel fuel it 0 0
                = Some (MapEntry.GetEntry (MapIterator.m_entry it), it)) as ->
    by (intros; by destruct fuel).
  simpl. repeat case_match; done.
Qed.

(** With more fuel than the element count, every query ends. *)
Lemma GetChildAtIndex_total b fuel idx s :
  view_inv b s →
  (FE.CalculateNumChildren s).1 < Z.of_nat fuel →
  is_Some (FE.GetChildAtIndex fuel idx s).
Proof.
  intros Hinv Hfuel. apply GetChildAtIndex_with_total; [|done|].
  - intros s1. apply GetChildAtIndex_first_total.
  - intros Htree it Hit.
    destruct (view_inv_CalculateNumChildren b s Hinv) as [_ Hn].
    rewrite Hn by done.
    by destruct (cached_cursor b s _ it Hinv Htree Hit).
Qed.



End ViewTermination.


Section Consume.
Context `{D : Debugger}.

Lemma reachable_consume b fuel idxs s rs s' :
  reachable b s → Forall (λ i, 0 ≤ i) idxs →
  consume fuel idxs s = Some (rs, s') →
  reachable b s'.
Proof.
  intros Hs Hidxs. revert s rs Hs.
  induction Hidxs as [|idx idxs Hidx _ IH]; intros s rs Hs; simpl.
  - by intros [= _ <-].
  - destruct (FE.GetChildAtIndex fuel idx s) as [[r s1]|] eqn:E; [|done].
    simpl. destruct (consume fuel idxs s1) as [[rs1 s2]|] eqn:E1; [|done].
    simpl. intros [= _ <-]. eapply IH; [|done].
    by eapply reachable_GetChildAtIndex.
Qed.

Lemma reachable_state_after b fuel idxs s :
  reachable b s → Forall (λ i, 0 ≤ i) idxs →
  reachable b (state_after fuel idxs s).
Proof.
  intros Hs Hidxs. unfold state_after.
  destruct (consume fuel idxs s) as [[rs s']|] eqn:E; [|done].
  by eapply reachable_consume.
Qed.

End Consume.



(** ** Valid containers *)

Section Valid.
Context `{D : Debugger} (ty : option TypeHandle).

Local Abbreviation points_to := (points_to ty).
Local Abbreviation valid_container := (valid_container ty).

Implicit Types (s : FE.t) (b : ValueObject) (t : tree).

Lemma Update_tree s : FE.m_tree (FE.Update s) = tree_of (FE.m_backend s).
Proof.
  unfold tree_of, FE.create, FE.Update. destruct s. simpl.
  by repeat case_match.
Qed.

(** In a valid container the walk to the index [i] arrives at the node
    at position [i] of the in-order sequence. *)
Lemma valid_advance b t (i : nat) fuel :
  valid_container b t → (i < tree_size t)%nat → (tree_size t ≤ fuel)%nat →
  ∃ a v it,
    inorder t !! i = Some a ∧ points_to v a
    ∧ MapIterator.advance fuel (fresh_cursor b) (Z.of_nat i)
      = Some (Some v, it).
Proof.
  intros [Hc Htr Hbegin [p Hsh] Hnd H0 Hpay] Hi Hfuel.
  assert (t ≠ Leaf) as Hne by (intros ->; simpl in Hi; lia).
  destruct (Hbegin Hne) as (v0 & Hfirst & Hv0).
  pose proof (count_of_range b) as Hrange.
  destruct (advance_loop_spec ty t p i 0 fuel fuel (count_of b) v0 0 (leftmost t))
    as (v & a & Ha & Hv & Hadv); try done; try lia.
  { by apply leftmost_head. }
  exists a, v. eexists. split_and!; [done..|].
  unfold MapIterator.advance, fresh_cursor, MapIterator.make. simpl.
  unfold first_node, MapEntry.GetEntry in Hfirst.
  destruct (MapEntry.of_ptr (root_of b)) as [o]. simpl in Hfirst. subst o.
  exact Hadv.
Qed.

Lemma valid_key_value b t (i : nat) a v :
  valid_container b t → inorder t !! i = Some a → points_to v a →
  is_Some (key_value_at b (Z.of_nat i) v).
Proof.
  intros Hv Ha Hp. destruct (vc_payload ty b t Hv i a v Ha Hp) as [x Hx].
  unfold payload_at in Hx. by destruct (key_value_at _ _ _).
Qed.

(** A query on a valid container answers the pair of the node at that
    position, and absent from the element count on; it leaves the view
    valid. *)
Lemma valid_GetChildAtIndex b t s fuel idx r s' :
  valid_container b t → view_inv b s → is_Some (FE.m_tree s) → 0 ≤ idx →
  FE.GetChildAtIndex fuel idx s = Some (r, s') →
  is_Some (FE.m_tree s') ∧ view_inv b s'
  ∧ if decide (idx < Z.of_nat (tree_size t)) then
      ∃ a v,
        inorder t !! Z.to_nat idx = Some a ∧ points_to v a
        ∧ r = payload_at b idx v ∧ is_Some r
    else r = None.
Proof.
  intros Hvalid Hinv Htree Hidx Hget.
  destruct (GetChildAtIndex_spec b fuel idx s r s' Hinv Hidx Hget)
    as (Hinv' & Hres & _).
  specialize (Hres Htree). split_and!; [|done|].
  - case_decide as Hd.
    + destruct Hres as (f & radv & Hf & -> & Htr).
      destruct Hd as [Hlt _]. rewrite (vc_count ty b t Hvalid) in Hlt.
      destruct (valid_advance b t (Z.to_nat idx) (f `max` tree_size t)
                  Hvalid) as (a & v & it & Ha & Hv & Hadv); [lia..|].
      rewrite Z2Nat.id in Hadv by done.
      eapply advance_mono in Hf; [|apply Nat.le_max_l].
      rewrite Hadv in Hf. injection Hf as <-. simpl in Htr.
      assert (t ≠ Leaf) as Hne by (intros ->; simpl in Hlt; lia).
      destruct (vc_begin ty b t Hvalid Hne) as (v0 & Hfirst & Hv0).
      destruct Htr as [->|[Hbad|Hbad]]; [done|exfalso..].
      * destruct (valid_key_value b t (Z.to_nat idx) a v) as [x Hx];
          try done. rewrite Z2Nat.id in Hx by done.
        simpl in Hbad. by rewrite Hx in Hbad.
      * rewrite Hfirst in Hbad. simpl in Hbad.
        destruct (valid_key_value b t 0 (leftmost t) v0) as [x Hx];
          try done; [by apply leftmost_head|].
        change (Z.of_nat 0) with 0 in Hx. by rewrite Hx in Hbad.
    + destruct Hres as [_ ->]. by rewrite CalculateNumChildren_frame.
  - pose proof (vc_count ty b t Hvalid) as Hc. case_decide as Hd.
    + destruct Hres as (f & radv & Hf & -> & Htr).
      destruct Hd as [Hlt _].
      destruct (valid_advance b t (Z.to_nat idx) (f `max` tree_size t)
                  Hvalid) as (a & v & it & Ha & Hv & Hadv); [lia..|].
      rewrite Z2Nat.id in Hadv by done.
      eapply advance_mono in Hf; [|apply Nat.le_max_l].
      rewrite Hadv in Hf. injection Hf as <-. simpl.
      rewrite decide_True by lia.
      exists a, v. split_and!; try done.
      pose proof (vc_payload ty b t Hvalid (Z.to_nat idx) a v Ha Hv) as Hp.
      by rewrite Z2Nat.id in Hp.
    + destruct Hres as [-> _].
      destruct (decide (idx < Z.of_nat (tree_size t))) as [Hlt|]; [|done].
      exfalso. apply Hd. split; [lia|].
      assert (t ≠ Leaf) as Hne by (intros ->; simpl in Hlt; lia).
      destruct (vc_begin ty b t Hvalid Hne) as (v0 & Hfirst & _).
      unfold first_node in Hfirst. by destruct (root_of b).
Qed.

Lemma valid_reachable b t s :
  valid_container b t → reachable b s → is_Some (FE.m_tree s).
Proof.
  intros Hvalid.
  induction 1 as [|s Hs IH|s _ IH|s fuel idx r s' Hs IH Hidx Hget].
  - apply (vc_tree ty b t Hvalid).
  - rewrite Update_tree, (inv_backend b s (reachable_view_inv b s Hs)).
    apply (vc_tree ty b t Hvalid).
  - by rewrite CalculateNumChildren_frame.
  - by destruct (valid_GetChildAtIndex b t s fuel idx r s' Hvalid
                   (reachable_view_inv b s Hs) IH Hidx Hget).
Qed.

(** The count of a valid container, in every state of the view. *)
Lemma valid_count b t s :
  valid_container b t → reachable b s →
  (FE.CalculateNumChildren s).1 = Z.of_nat (tree_size t).
Proof.
  intros Hvalid Hs.
  destruct (view_inv_CalculateNumChildren b s (reachable_view_inv b s Hs))
    as [_ Hn].
  rewrite Hn; [apply (vc_count ty b t Hvalid)|by eapply valid_reachable].
Qed.

Lemma valid_element_at b t s fuel (i : nat) :
  valid_container b t → reachable b s →
  (i < tree_size t)%nat → (tree_size t < fuel)%nat →
  ∃ a v p s',
    inorder t !! i = Some a ∧ points_to v a
    ∧ payload_at b (Z.of_nat i) v = Some p
    ∧ FE.GetChildAtIndex fuel (Z.of_nat i) s = Some (Some p, s').
Proof.
  intros Hvalid Hs Hi Hfuel.
  pose proof (reachable_view_inv b s Hs) as Hinv.
  destruct (GetChildAtIndex_total b fuel (Z.of_nat i) s Hinv)
    as [[r s'] Hget].
  { rewrite (valid_count b t s) by done. lia. }
  destruct (valid_GetChildAtIndex b t s fuel (Z.of_nat i) r s' Hvalid Hinv)
    as (_ & _ & Hres); [by eapply valid_reachable|lia|done|].
  rewrite decide_True in Hres by lia. rewrite Nat2Z.id in Hres.
  destruct Hres as (a & v & Ha & Hv & -> & [p Hp]).
  exists a, v, p, s'. by rewrite <- Hp.
Qed.

End Valid.

(** ** The three-element map *)

Section ThreeElements.

Local Instance three_debugger : Debugger := Toy.debugger Toy.three.

(** In a process without iterator, the readable node pointers are the
    objects [VPtr]. *)
Lemma toy_points_to v a :
  points_to (Some Toy.TNodePtr) v a → v = Toy.VPtr a.
Proof.
  intros (Hr & He & Hty). destruct v; try done.
  simpl in Hr. by injection Hr as ->.
Qed.

Lemma three_valid :
  valid_container (Some Toy.TNodePtr) Toy.VMap Toy.three_tree.
Proof.
  split.
  - vm_compute. reflexivity.
  - vm_compute. eauto.
  - intros _. exists (Toy.VPtr 12288). vm_compute. eauto.
  - exists 4096. simpl.
    assert (∀ a l r p x y z,
      Toy.three_mem !! a = Some x → Toy.three_mem !! (a + 8) = Some y →
      Toy.three_mem !! (a + 16) = Some z →
      x = root_addr l → y = root_addr r → z = p → p ≠ 0 →
      node_at (Some Toy.TNodePtr) a l r p) as Hnode.
    { intros a l r p x y z Hx Hy Hz -> -> -> Hp v Hv.
      apply toy_points_to in Hv as ->.
      unfold MapEntry.left, MapEntry.right, MapEntry.parent. simpl.
      unfold Toy.read_ptr. simpl. rewrite Z.add_0_r.
      change (to_uint32 (2 * 8)) with 16. rewrite Hx, Hy, Hz.
      split_and!.
      - destruct l; simpl; [done|]. eexists. split; [done|]. by split.
      - destruct r; simpl; [done|]. eexists. split; [done|]. by split.
      - eexists. split; [done|]. by split. }
    split_and!; try done; eapply Hnode; try done; vm_compute; reflexivity.
  - vm_compute. repeat constructor; set_solver.
  - vm_compute. set_solver.
  - intros i a v Ha Hv. apply toy_points_to in Hv as ->.
    destruct i as [|[|[|i]]]; simpl in Ha; try done;
      injection Ha as <-; vm_compute; eauto.
Qed.

End ThreeElements.

(** ** The element count and the elements of a valid container *)

Section Count.
Context `{D : Debugger}.

Implicit Types (s : FE.t) (b : ValueObject) (t : tree).

(** What a view that does not know its count reads. *)
Lemma CalculateNumChildren_unknown s :
  FE.m_count s = UINT32_MAX →
  (FE.CalculateNumChildren s).1
  = match size_field s with
    | Some size_node => to_uint32 (GetValueAsUnsigned size_node 0)
    | None => 0
    end.
Proof.
  intros H. unfold FE.CalculateNumChildren, size_field. rewrite H. simpl.
  by repeat case_match.
Qed.

Lemma GetChildAtIndex_out_of_range fuel idx s :
  (FE.CalculateNumChildren s).1 ≤ idx →
  FE.GetChildAtIndex fuel idx s = Some (None, (FE.CalculateNumChildren s).2).
Proof.
  intros H. unfold FE.GetChildAtIndex, FE.GetChildAtIndex_with,
    FE.CalculateNumChildrenIgnoringErrors.
  destruct (FE.CalculateNumChildren s) as [n s0]. simpl in *.
  by destruct (Z.geb_spec idx n); [|lia].
Qed.

End Count.

(** C2, as the code has it: [CalculateNumChildren] of a view that does
    not know its count answers the value read from the size field, the
    first element of the compressed pair [__pair3_], converted to the
    [uint32_t] it returns, so the value itself when it is below [2 ^ 32];
    it answers 0 when the field is missing or cannot be read.
    [GetChildAtIndex(idx)] answers absent whenever [idx] is not below
    that count.  For a valid container of [N] elements, the count is [N]
    in every state of the view, and [GetChildAtIndex(i)] answers a
    payload for every [0 <= i < N]. *)
Theorem element_count_and_range `{D : Debugger} :
  (∀ s size_node z,
     FE.m_count s = UINT32_MAX → size_field s = Some size_node →
     ResolveValue size_node = Some z →
     (FE.CalculateNumChildren s).1 = to_uint32 z
     ∧ (0 ≤ z < 2 ^ 32 → (FE.CalculateNumChildren s).1 = z))
  ∧ (∀ s,
       FE.m_count s = UINT32_MAX →
       size_field s = None
       ∨ (∃ size_node,
            size_field s = Some size_node ∧ ResolveValue size_node = None) →
       (FE.CalculateNumChildren s).1 = 0)
  ∧ (∀ fuel idx s,
       (FE.CalculateNumChildren s).1 ≤ idx →
       ∃ s', FE.GetChildAtIndex fuel idx s = Some (None, s'))
  ∧ (∀ ty b t s fuel (i : nat),
       valid_container ty b t → reachable b s →
       (i < tree_size t)%nat → (tree_size t < fuel)%nat →
       (FE.CalculateNumChildren s).1 = Z.of_nat (tree_size t)
       ∧ ∃ p s', FE.GetChildAtIndex fuel (Z.of_nat i) s = Some (Some p, s')).
Proof.
  split_and!.
  - intros s size_node z Hc Hs Hz.
    rewrite CalculateNumChildren_unknown, Hs by done.
    unfold GetValueAsUnsigned. rewrite Hz. simpl. split; [done|].
    intros Hr. unfold to_uint32. by apply Z.mod_small.
  - intros s Hc Hs. rewrite CalculateNumChildren_unknown by done.
    destruct Hs as [->|(size_node & -> & Hz)]; [done|].
    unfold GetValueAsUnsigned. by rewrite Hz.
  - intros fuel idx s H. eexists. by apply GetChildAtIndex_out_of_range.
  - intros ty b t s fuel i Hvalid Hs Hi Hfuel. split.
    + by eapply valid_count.
    + destruct (valid_element_at ty b t s fuel i)
        as (a & v & p & s' & _ & _ & _ & Hget); try done.
      by exists p, s'.
Qed.

Lemma element_count_and_range_witness :
  let D := Toy.debugger Toy.three in
  let s0 := FE.create Toy.VMap in
  let unknown := FE.mk Toy.VMap None None None 0 UINT32_MAX ∅ in
  let s := state_after 4 [2] s0 in
  (FE.m_count s0 = UINT32_MAX ∧ size_field s0 = Some Toy.VSize
   ∧ ResolveValue Toy.VSize = Some 3 ∧ 0 ≤ 3 < 2 ^ 32
   ∧ (FE.CalculateNumChildren s0).1 = 3)
  ∧ (FE.m_count unknown = UINT32_MAX ∧ size_field unknown = None
     ∧ (FE.CalculateNumChildren unknown).1 = 0)
  ∧ ((FE.CalculateNumChildren s).1 ≤ 3
     ∧ ∃ s', FE.GetChildAtIndex 4 3 s = Some (None, s'))
  ∧ (reachable Toy.VMap s
     ∧ (FE.CalculateNumChildren s).1 = Z.of_nat (tree_size Toy.three_tree)
     ∧ ∃ p s', FE.GetChildAtIndex 4 (Z.of_nat 1) s = Some (Some p, s')).
Proof.
  intros D s0 unknown s.
  pose proof (element_count_and_range (D := D)) as (H1 & H2 & H3 & H4).
  assert (reachable Toy.VMap s) as Hs.
  { apply reachable_state_after; [apply reachable_create|].
    constructor; [lia|constructor]. }
  split; [|split; [|split]].
  - split; [reflexivity|]. split; [reflexivity|]. split; [reflexivity|].
    split; [lia|].
    apply (H1 s0 Toy.VSize 3 eq_refl eq_refl eq_refl). lia.
  - split; [reflexivity|]. split; [reflexivity|].
    apply H2; [reflexivity|]. left. reflexivity.
  - split; [vm_compute; discriminate|].
    apply H3. vm_compute. discriminate.
  - split; [exact Hs|].
    apply (H4 (Some Toy.TNodePtr) Toy.VMap Toy.three_tree s 4%nat 1%nat);
      [apply three_valid|exact Hs|simpl; lia..].
Defined.

(** C2 as the claim states it fails: in [Toy.huge] the size field holds
    [2 ^ 32], and the count the view answers is 0. *)
Lemma element_count_truncated :
  let D := Toy.debugger Toy.huge in
  let s := FE.create Toy.VMap in
  FE.m_count s = UINT32_MAX
  ∧ size_field s = Some Toy.VSize
  ∧ ResolveValue Toy.VSize = Some 4294967296
  ∧ (FE.CalculateNumChildren s).1 = 0
  ∧ (FE.CalculateNumChildren s).1 ≠ 4294967296.
Proof. intros D s. split_and!; try reflexivity. vm_compute. discriminate. Qed.

(** ** Sequential consumption *)

Section Sequential.
Context `{D : Debugger} (ty : option TypeHandle).

Implicit Types (s : FE.t) (b : ValueObject) (t : tree).

Lemma bst_sorted key t :
  bst key t → StronglySorted Z.lt (key <$> inorder t).
Proof.
  induction t as [|l IHl a r IHr]; simpl; [constructor|].
  intros (Hl & Hr & Hfl & Hfr). rewrite fmap_app, fmap_cons.
  rewrite Forall_forall in Hfl, Hfr.
  apply StronglySorted_app_2; [|by apply IHl|].
  - intros x1 x2 (y1 & -> & Hy1)%list_elem_of_fmap Hx2.
    apply elem_of_cons in Hx2 as [->|(y2 & -> & Hy2)%list_elem_of_fmap].
    + by apply Hfl.
    + etrans; [by apply Hfl|by apply Hfr].
  - apply StronglySorted_cons. split; [|by apply IHr].
    apply Forall_forall. intros x (y & -> & Hy)%list_elem_of_fmap.
    by apply Hfr.
Qed.

(** Asking a valid container for the indices [m], ..., [m + n - 1] in
    this order answers the pairs of the nodes at these positions of the
    in-order sequence. *)
Lemma consume_valid b t fuel (n : nat) :
  valid_container ty b t → (tree_size t < fuel)%nat →
  ∀ (m : nat) s,
    reachable b s → (m + n ≤ tree_size t)%nat →
    ∃ ps s',
      consume fuel (seqZ (Z.of_nat m) (Z.of_nat n)) s = Some (Some <$> ps, s')
      ∧ Forall2
          (λ a p,
             ∃ v (i : nat),
               points_to ty v a ∧ inorder t !! i = Some a
               ∧ payload_at b (Z.of_nat i) v = Some p)
          (take n (drop m (inorder t))) ps.
Proof.
  intros Hvalid Hfuel. induction n as [|n IH]; intros m s Hs Hmn.
  - exists [], s. simpl. split; [done|]. rewrite take_0. constructor.
  - rewrite seqZ_cons by lia.
    destruct (valid_element_at ty b t s fuel m)
      as (a & v & p & s1 & Ha & Hv & Hp & Hget); [done..|lia|done|].
    destruct (IH (S m) s1) as (ps & s' & Hcons & Hall); [|lia|].
    { by eapply reachable_GetChildAtIndex; [|apply Nat2Z.is_nonneg|]. }
    exists (p :: ps), s'. split.
    + simpl. rewrite Hget. simpl.
      replace (Z.succ (Z.of_nat m)) with (Z.of_nat (S m)) by lia.
      replace (Z.pred (Z.of_nat (S n))) with (Z.of_nat n) by lia.
      by rewrite Hcons.
    + rewrite (drop_S _ _ _ Ha). simpl. constructor; [|done].
      by exists v, m.
Qed.

Lemma consume_keys b t key fuel s :
  valid_container ty b t → keys_of ty b t key →
  (tree_size t < fuel)%nat → reachable b s →
  ∃ ps s',
    consume fuel (seqZ 0 (Z.of_nat (tree_size t))) s = Some (Some <$> ps, s')
    ∧ pair_key <$> ps = (λ a, Some (key a)) <$> inorder t.
Proof.
  intros Hvalid Hkeys Hfuel Hs.
  destruct (consume_valid b t fuel (tree_size t) Hvalid Hfuel 0 s Hs)
    as (ps & s' & Hcons & Hall); [lia|].
  exists ps, s'. split; [done|].
  rewrite drop_0, firstn_all2 in Hall by (by rewrite inorder_length).
  clear Hcons.
  induction Hall as [|a p l ps' (v & i & Hv & Ha & Hp) _ IH]; [done|].
  simpl. f_equal; [by eapply Hkeys|done].
Qed.

End Sequential.

(** C3: for a well-formed tree of [N] elements, a search tree held in a
    valid container, asking for the indices [0], [1], ..., [N - 1] one
    after the other answers the pairs of the nodes in in-order sequence,
    whose keys are strictly ascending.  In particular, for the map
    [{1, 2, 3}] with node(2) at the root, node(1) its left child and
    node(3) its right child, the indices 0, 1, 2 answer the pairs with
    the keys 1, 2, 3 and the index 3 answers absent. *)
Theorem sequential_consumption_ascending :
  (∀ (D : Debugger) ty b t key fuel s,
     valid_container ty b t → bst key t → keys_of ty b t key →
     (tree_size t < fuel)%nat → reachable b s →
     ∃ ps s',
       consume fuel (seqZ 0 (Z.of_nat (tree_size t))) s
       = Some (Some <$> ps, s')
       ∧ pair_key <$> ps = (λ a, Some (key a)) <$> inorder t
       ∧ StronglySorted Z.lt (key <$> inorder t))
  ∧ (let D := Toy.debugger Toy.three in
     ∃ p1 p2 p3 s',
       consume 4 [0; 1; 2; 3] (FE.create Toy.VMap)
       = Some ([Some p1; Some p2; Some p3; None], s')
       ∧ pair_key p1 = Some 1 ∧ pair_key p2 = Some 2
       ∧ pair_key p3 = Some 3).
Proof.
  split.
  - intros D ty b t key fuel s Hvalid Hbst Hkeys Hfuel Hs.
    destruct (consume_keys ty b t key fuel s) as (ps & s' & H1 & H2);
      try done.
    exists ps, s'. split_and!; try done. by apply bst_sorted.
  - intros D. do 4 eexists. split; [vm_compute; reflexivity|].
    split_and!; vm_compute; reflexivity.
Qed.

Lemma three_bst : bst Toy.three_key Toy.three_tree.
Proof.
  simpl. split_and!; try done; repeat constructor; vm_compute; reflexivity.
Qed.

Lemma three_keys :
  keys_of (D := Toy.debugger Toy.three) (Some Toy.TNodePtr) Toy.VMap
    Toy.three_tree Toy.three_key.
Proof.
  intros i a v p Ha Hv Hp. apply toy_points_to in Hv as ->.
  destruct i as [|[|[|i]]]; simpl in Ha; try done; injection Ha as <-;
    vm_compute in Hp; injection Hp as <-; vm_compute; reflexivity.
Qed.

Lemma sequential_consumption_ascending_witness :
  let D := Toy.debugger Toy.three in
  ∃ ps s',
    consume 4 (seqZ 0 (Z.of_nat (tree_size Toy.three_tree)))
      (FE.create Toy.VMap)
    = Some (Some <$> ps, s')
    ∧ pair_key <$> ps = (λ a, Some (Toy.three_key a)) <$> inorder Toy.three_tree
    ∧ StronglySorted Z.lt (Toy.three_key <$> inorder Toy.three_tree).
Proof.
  intros D.
  apply (proj1 sequential_consumption_ascending D (Some Toy.TNodePtr)
           Toy.VMap Toy.three_tree Toy.three_key 4%nat).
  - apply three_valid.
  - apply three_bst.
  - apply three_keys.
  - simpl. lia.
  - apply reachable_create.
Defined.

(** ** The cached path and the fresh path; repeated queries *)

Section Cache.
Context `{D : Debugger}.

Implicit Types (s : FE.t) (b : ValueObject).

Lemma view_inv_clear b s : view_inv b s → view_inv b (FE.set_iterators s ∅).
Proof. intros [Hb Ht Hr Hc Hty Hsk Hca]. split; simpl; try done. Qed.

(** The cursor cached for [idx - 1], advanced by one step, is where a
    fresh cursor arrives after [idx] steps. *)
Lemma cached_advance b s idx it fuel fuel' r r' :
  view_inv b s → is_Some (FE.m_tree s) → 0 < idx < count_of b →
  FE.m_iterators s !! (idx - 1) = Some it →
  MapIterator.advance fuel it 1 = Some r →
  MapIterator.advance fuel' (fresh_cursor b) idx = Some r' →
  r = r'.
Proof.
  intros Hinv Htree Hidx Hit Hr Hr'.
  destruct (inv_cache b s Hinv Htree _ it Hit) as (_ & f & v & Hf).
  pose proof (count_of_range b) as Hrange.
  pose proof (advance_app f fuel (fresh_cursor b) (idx - 1) 1 v it r) as Happ.
  replace (idx - 1 + 1) with idx in Happ by lia.
  eapply advance_deterministic; [apply Happ|exact Hr']; simpl; try done; lia.
Qed.

(** The pair [GetKeyValuePair] answers does not depend on what the view
    has cached. *)
Lemma GetKeyValuePair_cache_irrelevant b s idx fuel fuel' r r' s1 s2 :
  view_inv b s → is_Some (FE.m_tree s) → 0 ≤ idx < count_of b →
  FE.GetKeyValuePair fuel idx (count_of b) s = Some (r, s1) →
  FE.GetKeyValuePair fuel' idx (count_of b) (FE.set_iterators s ∅)
  = Some (r', s2) →
  r = r'.
Proof.
  intros Hinv Htree Hidx H1 H2.
  destruct (GetKeyValuePair_with_spec b _ fuel idx s r s1
              (λ _, GetChildAtIndex_first_spec b fuel) Hinv Htree Hidx H1)
    as (_ & _ & _ & _ & f1 & radv1 & Hf1 & ->).
  destruct (GetKeyValuePair_with_spec b _ fuel' idx _ r' s2
              (λ _, GetChildAtIndex_first_spec b fuel')
              (view_inv_clear b s Hinv) Htree Hidx H2)
    as (_ & _ & _ & _ & f2 & radv2 & Hf2 & ->).
  by rewrite (advance_deterministic _ _ _ _ _ _ Hf1 Hf2).
Qed.

(** The child [GetChildAtIndex] answers does not depend on the queries
    that came before. *)
Lemma GetChildAtIndex_history b s1 s2 fuel1 fuel2 idx r1 r2 s1' s2' :
  view_inv b s1 → view_inv b s2 →
  is_Some (FE.m_tree s1) → is_Some (FE.m_tree s2) → 0 ≤ idx →
  FE.GetChildAtIndex fuel1 idx s1 = Some (r1, s1') →
  FE.GetChildAtIndex fuel2 idx s2 = Some (r2, s2') →
  r1 = r2.
Proof.
  intros Hinv1 Hinv2 Ht1 Ht2 Hidx H1 H2.
  destruct (GetChildAtIndex_spec b fuel1 idx s1 r1 s1' Hinv1 Hidx H1)
    as (_ & Hr1 & _).
  destruct (GetChildAtIndex_spec b fuel2 idx s2 r2 s2' Hinv2 Hidx H2)
    as (_ & Hr2 & _).
  specialize (Hr1 Ht1). specialize (Hr2 Ht2). case_decide.
  - destruct Hr1 as (f1 & radv1 & Hf1 & -> & _).
    destruct Hr2 as (f2 & radv2 & Hf2 & -> & _).
    by rewrite (advance_deterministic _ _ _ _ _ _ Hf1 Hf2).
  - destruct Hr1 as [-> _]. by destruct Hr2 as [-> _].
Qed.

End Cache.

(** C7, as the code has it: the cached path and the fresh path are
    equivalent.  In every state of a view that has not been invalidated,
    and for every index [0 < idx] below the count: the cursor cached for
    [idx - 1], advanced by one step, answers what a fresh cursor on the
    first-element reference, with the element count as budget, answers
    when advanced by [idx] steps; [GetKeyValuePair] answers the same pair
    with the cache as it is and with an empty cache; hence, in views that
    no failed query has invalidated, a child asked for does not depend
    on the queries that came before, and random-access consumption
    answers the payloads of sequential consumption. *)
Theorem cached_path_is_fresh_path `{D : Debugger} :
  (∀ b s idx it fuel fuel' r r',
     reachable b s → is_Some (FE.m_tree s) →
     0 < idx < (FE.CalculateNumChildren s).1 →
     FE.m_iterators s !! (idx - 1) = Some it →
     MapIterator.advance fuel it 1 = Some r →
     MapIterator.advance fuel'
       (MapIterator.make (FE.m_root_node s) (FE.CalculateNumChildren s).1) idx
     = Some r' →
     r = r')
  ∧ (∀ b s idx fuel fuel' r r' s1 s2,
       reachable b s → is_Some (FE.m_tree s) →
       0 < idx < (FE.CalculateNumChildren s).1 →
       FE.GetKeyValuePair fuel idx (FE.CalculateNumChildren s).1 s
       = Some (r, s1) →
       FE.GetKeyValuePair fuel' idx (FE.CalculateNumChildren s).1
         (FE.set_iterators s ∅)
       = Some (r', s2) →
       r = r')
  ∧ (∀ b s1 s2 fuel1 fuel2 idx r1 r2 s1' s2',
       reachable b s1 → reachable b s2 →
       is_Some (FE.m_tree s1) → is_Some (FE.m_tree s2) → 0 ≤ idx →
       FE.GetChildAtIndex fuel1 idx s1 = Some (r1, s1') →
       FE.GetChildAtIndex fuel2 idx s2 = Some (r2, s2') →
       r1 = r2).
Proof.
  split_and!.
  - intros b s idx it fuel fuel' r r' Hs Htree Hidx Hit Hr Hr'.
    pose proof (reachable_view_inv b s Hs) as Hinv.
    destruct (view_inv_CalculateNumChildren b s Hinv) as [_ Hn].
    rewrite Hn in * by done. rewrite (inv_root b s Hinv) in Hr'.
    by eapply cached_advance.
  - intros b s idx fuel fuel' r r' s1 s2 Hs Htree Hidx H1 H2.
    pose proof (reachable_view_inv b s Hs) as Hinv.
    destruct (view_inv_CalculateNumChildren b s Hinv) as [_ Hn].
    rewrite Hn in * by done.
    eapply (GetKeyValuePair_cache_irrelevant b s idx); try done. lia.
  - intros b s1 s2 fuel1 fuel2 idx r1 r2 s1' s2' Hs1 Hs2.
    eapply GetChildAtIndex_history; by apply reachable_view_inv.
Qed.

Lemma cached_path_is_fresh_path_witness :
  let D := Toy.debugger Toy.three in
  let s := state_after 4 [0; 1] (FE.create Toy.VMap) in
  ∃ r s1' s2',
    FE.m_iterators (FE.create Toy.VMap) = ∅
    ∧ is_Some (FE.m_iterators s !! 1)
    ∧ FE.GetChildAtIndex 4 2 (FE.create Toy.VMap) = Some (Some r, s1')
    ∧ FE.GetChildAtIndex 4 2 s = Some (Some r, s2').
Proof.
  intros D s.
  destruct (FE.GetChildAtIndex 4 2 (@FE.create D Toy.VMap))
    as [[[r1|] s1']|] eqn:E1; [|vm_compute in E1; discriminate..].
  destruct (FE.GetChildAtIndex 4 2 s) as [[r2 s2']|] eqn:E2;
    [|vm_compute in E2; discriminate].
  exists r1, s1', s2'. split_and!; [done|vm_compute; eauto|done|].
  do 2 f_equal. symmetry.
  apply (proj2 (proj2 (@cached_path_is_fresh_path D)) Toy.VMap
           (@FE.create D Toy.VMap) s 4%nat 4%nat 2 (Some r1) r2 s1' s2').
  - apply reachable_create.
  - apply reachable_state_after; [apply reachable_create|].
    constructor; [lia|]. constructor; [lia|constructor].
  - vm_compute; eauto.
  - vm_compute; eauto.
  - lia.
  - exact E1.
  - exact E2.
Defined.

(** C7 as the claim states it fails: a query that fails invalidates the
    view, and what is asked after it is answered absent.  In
    [Toy.cyclic], a map of two elements whose walk to index 1 runs into
    a cycle, asking for index 0 and then index 1 answers a child for
    index 0; asking for index 1 first answers absent for both. *)
Lemma random_access_after_failure :
  let D := Toy.debugger Toy.cyclic in
  ∃ p s1 s2,
    consume 3 [0; 1] (FE.create Toy.VMap) = Some ([Some p; None], s1)
    ∧ consume 3 [1; 0] (FE.create Toy.VMap) = Some ([None; None], s2)
    ∧ FE.m_tree s2 = None.
Proof. intros D. do 3 eexists. split_and!; vm_compute; reflexivity. Qed.

(** ** Asking again *)

Section Again.
Context `{D : Debugger}.

Implicit Types (s : FE.t) (b : ValueObject).

(** Once counted, the count is answered from [m_count] or recomputed to
    the same value, in every state with that [m_count] and that tree. *)
Lemma CalculateNumChildren_stable s s1 :
  (FE.CalculateNumChildren s).2 = s →
  FE.m_count s1 = FE.m_count s → FE.m_tree s1 = FE.m_tree s →
  FE.CalculateNumChildren s1 = ((FE.CalculateNumChildren s).1, s1).
Proof.
  unfold FE.CalculateNumChildren. intros Hs Hc Ht. rewrite Hc, Ht.
  destruct (negb (FE.m_count s =? UINT32_MAX)); [done|].
  destruct (FE.m_tree s) as [tree|]; [|done].
  destruct (GetChildMemberWithName tree "__pair3_") as [n1|]; [|done].
  destruct (GetFirstValueOfLibCXXCompressedPair n1) as [n2|]; [|done].
  simpl in *. f_equal.
  apply (f_equal FE.m_count) in Hs. simpl in Hs.
  destruct s1; simpl in *. unfold FE.set_count; simpl. congruence.
Qed.


(** An invalidated view answers no child and stays as it is. *)
Lemma GetChildAtIndex_invalidated fuel idx s :
  FE.m_tree s = None → FE.GetChildAtIndex fuel idx s = Some (None, s).
Proof.
  intros Ht.
  unfold FE.GetChildAtIndex, FE.GetChildAtIndex_with,
    FE.CalculateNumChildrenIgnoringErrors, FE.CalculateNumChildren.
  rewrite Ht.
  destruct (negb (FE.m_count s =? UINT32_MAX));
    destruct (idx >=? _); by rewrite ?Ht.
Qed.




(** Every query made of an invalidated view is answered absent. *)
Lemma consume_invalidated fuel idxs s :
  FE.m_tree s = None →
  consume fuel idxs s = Some (replicate (length idxs) None, s).
Proof.
  intros Ht. induction idxs as [|idx idxs IH]; [done|].
  simpl. rewrite GetChildAtIndex_invalidated by done. simpl.
  by rewrite IH.
Qed.

(** When [GetKeyValuePair] answers no pair, [GetChildAtIndex] clears the
    tree pointer. *)
Lemma GetChildAtIndex_failure fuel idx s s1 :
  idx < (FE.CalculateNumChildren s).1 →
  is_Some (FE.m_tree s) → is_Some (FE.m_root_node s) →
  FE.GetKeyValuePair fuel idx (FE.CalculateNumChildren s).1
    (FE.CalculateNumChildren s).2 = Some (None, s1) →
  FE.GetChildAtIndex fuel idx s = Some (None, FE.set_tree s1 None).
Proof.
  intros Hidx [tree Ht] [root Hr] Hk.
  pose proof (CalculateNumChildren_frame s) as Hfr.
  unfold FE.GetChildAtIndex, FE.GetChildAtIndex_with,
    FE.CalculateNumChildrenIgnoringErrors.
  destruct (FE.CalculateNumChildren s) as [n s0]. simpl in *.
  destruct (Z.geb_spec idx n); [lia|].
  rewrite Hfr. simpl. rewrite Ht, Hr. rewrite <- Hfr.
  change (FE.GetKeyValuePair_with (FE.GetChildAtIndex_first fuel))
    with (FE.GetKeyValuePair fuel).
  by rewrite Hk.
Qed.

End Again.






(** ** A payload offset that stays unresolved *)

(** C4 (the code diverges at index 0): in a process whose type system
    cannot lay out the tree node, the offset of the payload stays
    unresolved ([m_skip_size] remains [UINT32_MAX]).  Asked for index 1,
    [GetChildAtIndex] answers absent and clears the tree pointer, as the
    claim says; asked for index 0, it answers a child at offset
    [UINT32_MAX] of the first node and leaves the view valid, so that the
    same query is answered again. *)
Theorem unresolved_offset_at_index_0 :
  let D := Toy.debugger Toy.no_layout in
  let s := FE.create Toy.VMap in
  (∃ s', FE.GetChildAtIndex 4 1 s = Some (None, s')
         ∧ FE.m_skip_size s' = UINT32_MAX
         ∧ FE.m_tree s' = None)
  ∧ (∃ s', FE.GetChildAtIndex 4 0 s
           = Some (Some (Toy.VPair (12288 + UINT32_MAX) "[0]"), s')
           ∧ FE.m_skip_size s' = UINT32_MAX
           ∧ is_Some (FE.m_tree s')
           ∧ FE.GetChildAtIndex 4 0 s'
             = Some (Some (Toy.VPair (12288 + UINT32_MAX) "[0]"), s')).
Proof.
  intros D s. split.
  - eexists. split_and!; [by vm_compute|done..].
  - eexists. split_and!; [by vm_compute|done|by eexists|by vm_compute].
Qed.

(** * Further properties of the code *)

(** ** The cursor *)

Section CursorMore.
Context `{D : Debugger}.

Implicit Types (it : MapIterator.t).

(** With [steps + count] over the budget, the loop of [advance] answers
    no entry. *)
Lemma advance_loop_over fuel n :
  ∀ it count steps r it',
    MapIterator.m_max_depth it < 2 ^ 64 - 1 →
    0 ≤ steps ≤ MapIterator.m_max_depth it →
    MapIterator.m_max_depth it < steps + count →
    MapIterator.advance_loop fuel n it count steps = Some (r, it') →
    r = None.
Proof.
  induction n as [|n IH]; intros it count steps r it' Hd Hs Hc; simpl.
  - destruct (Z.gtb_spec count 0); [done|lia].
  - destruct (Z.gtb_spec count 0); [|lia].
    destruct (MapIterator.next fuel it) as [it1|] eqn:En; [|done]. simpl.
    pose proof (next_max_depth _ _ _ En) as Hd1.
    rewrite size_t_succ_small by lia.
    destruct (MapIterator.m_error it1 || MapEntry.null (MapIterator.m_entry it1)
              || (steps + 1 >? MapIterator.m_max_depth it1)) eqn:E.
    + by intros [= <- _].
    + apply orb_false_iff in E as [_ E].
      destruct (Z.gtb_spec (steps + 1) (MapIterator.m_max_depth it1));
        [done|].
      apply IH; lia.
Qed.

(** The loop of [advance] that answers an entry leaves the cursor on
    that entry. *)
Lemma advance_loop_entry fuel n :
  ∀ it count steps v it',
    MapIterator.advance_loop fuel n it count steps = Some (Some v, it') →
    MapIterator.value it' = Some v
    ∧ (0 < count → MapEntry.null (MapIterator.m_entry it') = false).
Proof.
  induction n as [|n IH]; intros it count steps v it'; simpl.
  - destruct (Z.gtb_spec count 0); [done|].
    intros [= <- <-]. split; [done|lia].
  - destruct (Z.gtb_spec count 0).
    2:{ intros [= <- <-]. split; [done|lia]. }
    destruct (MapIterator.next fuel it) as [it1|] eqn:En; [|done]. simpl.
    destruct (MapIterator.m_error it1 || MapEntry.null (MapIterator.m_entry it1)
              || (size_t_succ steps >? MapIterator.m_max_depth it1)) eqn:E;
      [done|].
    apply orb_false_iff in E as [E _]. apply orb_false_iff in E as [_ E].
    intros Hl. destruct (IH _ _ _ _ _ Hl) as [Hv Hn]. split; [done|].
    intros _. destruct (Z.gtb_spec (count - 1) 0) as [Hc|Hc]; [apply Hn; lia|].
    destruct n; simpl in Hl; destruct (Z.gtb_spec (count - 1) 0); try lia;
      injection Hl as _ <-; done.
Qed.

Lemma advance_Some_spec fuel it it' count v :
  MapIterator.advance fuel it count = Some (Some v, it') →
  MapIterator.value it' = Some v
  ∧ MapIterator.m_error it = false
  ∧ MapIterator.m_error it' = false
  ∧ MapIterator.m_max_depth it' = MapIterator.m_max_depth it
  ∧ (0 < count → MapEntry.null (MapIterator.m_entry it') = false).
Proof.
  intros H.
  pose proof (advance_Some_error _ _ _ _ _ H) as He.
  pose proof (advance_max_depth _ _ _ _ _ H) as Hd.
  unfold MapIterator.advance in H.
  destruct (MapIterator.m_error it) eqn:E; [done|].
  destruct (advance_loop_entry _ _ _ _ _ _ _ H) as [Hv Hn].
  by split_and!.
Qed.

End CursorMore.

(** X1: [advance] composes within the budget.  When [advance(k)] has
    answered an entry and [advance(j)] is then asked of the same cursor,
    the answer and the cursor are those of one [advance(k + j)] of the
    cursor as it was, provided [k + j] does not exceed the budget. *)
Theorem advance_composes `{D : Debugger} fuel fuel' (it it' : MapIterator.t)
    k j v r :
  MapIterator.m_max_depth it < 2 ^ 64 - 1 →
  0 ≤ k → 0 ≤ j → k + j ≤ MapIterator.m_max_depth it →
  MapIterator.advance fuel it k = Some (Some v, it') →
  MapIterator.advance fuel' it' j = Some r →
  MapIterator.advance (fuel + fuel') it (k + j) = Some r.
Proof. apply advance_app. Qed.

Lemma advance_composes_witness :
  let D := Toy.debugger Toy.three in
  let it := MapIterator.make (Some (Toy.VPtr 12288)) 3 in
  ∃ v it' r,
    MapIterator.advance 4 it 1 = Some (Some v, it')
    ∧ MapIterator.advance 4 it' 1 = Some r
    ∧ r.1 = Some (Toy.VPtr 16384)
    ∧ MapIterator.advance (4 + 4) it (1 + 1) = Some r.
Proof.
  intros D it. do 3 eexists.
  split; [vm_compute; reflexivity|].
  split; [vm_compute; reflexivity|].
  split; [reflexivity|].
  eapply (advance_composes (D := D) 4 4 it);
    [simpl; lia|lia|lia|simpl; lia|vm_compute; reflexivity
    |vm_compute; reflexivity].
Defined.

(** X2: a cursor answers no entry that is more steps away than its
    budget.  With more fuel than the budget, [advance(count)] for a
    [count] above [m_max_depth] returns, and what it returns is
    absent. *)
Theorem advance_beyond_budget `{D : Debugger} fuel (it : MapIterator.t)
    count :
  0 ≤ MapIterator.m_max_depth it < 2 ^ 64 - 1 →
  MapIterator.m_max_depth it < Z.of_nat fuel →
  MapIterator.m_max_depth it < count →
  ∃ it', MapIterator.advance fuel it count = Some (None, it').
Proof.
  intros Hd Hfuel Hc.
  destruct (advance_total fuel it count Hd Hfuel) as [[r it'] H].
  exists it'. rewrite H. do 2 f_equal.
  unfold MapIterator.advance in H. destruct (MapIterator.m_error it).
  - by injection H as <- _.
  - apply (advance_loop_over fuel fuel it count 0 r it'); [lia..|done].
Qed.

Lemma advance_beyond_budget_witness :
  let D := Toy.debugger Toy.three in
  let it := MapIterator.make (Some (Toy.VPtr 12288)) 1 in
  (∃ v it', MapIterator.advance 2 it 1 = Some (Some v, it'))
  ∧ ∃ it', MapIterator.advance 2 it 2 = Some (None, it').
Proof.
  intros D it. split.
  - do 2 eexists. vm_compute. reflexivity.
  - apply (advance_beyond_budget (D := D) 2 it 2); simpl; lia.
Defined.

(** X3: on a well-formed tree the cursor walks in order.  When the
    memory holds the tree [t] and the cursor, with a budget of at least
    the size of [t], stands on the node at position [i] of the in-order
    sequence, [advance(k)] answers a pointer to the node at position
    [i + k] and leaves the cursor on it, unflagged. *)
Theorem advance_in_order `{D : Debugger} ty t p (i k : nat) fuel d v a :
  shaped ty t p → NoDup (inorder t) → 0 ∉ inorder t →
  inorder t !! i = Some a → points_to ty v a →
  (i + k < tree_size t)%nat →
  Z.of_nat (tree_size t) ≤ d < 2 ^ 64 - 1 →
  (tree_size t ≤ fuel)%nat →
  ∃ v' b,
    inorder t !! (i + k)%nat = Some b ∧ points_to ty v' b
    ∧ MapIterator.advance fuel
        (MapIterator.mk (MapEntry.mk (Some v)) d false) (Z.of_nat k)
      = Some (Some v', MapIterator.mk (MapEntry.mk (Some v')) d false).
Proof.
  intros Hsh Hnd H0 Hi Hv Hk Hd Hfuel.
  unfold MapIterator.advance. simpl.
  eapply advance_loop_spec; eauto; lia.
Qed.

Lemma advance_in_order_witness :
  let D := Toy.debugger Toy.three in
  ∃ v' b,
    inorder Toy.three_tree !! (0 + 2)%nat = Some b
    ∧ points_to (Some Toy.TNodePtr) v' b
    ∧ MapIterator.advance 3
        (MapIterator.mk (MapEntry.mk (Some (Toy.VPtr 12288))) 3 false)
        (Z.of_nat 2)
      = Some (Some v', MapIterator.mk (MapEntry.mk (Some v')) 3 false).
Proof.
  intros D.
  destruct (vc_shaped _ _ _ three_valid) as [p Hp].
  apply (advance_in_order (D := D) (Some Toy.TNodePtr) Toy.three_tree p
           0 2 3 3 (Toy.VPtr 12288) 12288).
  - exact Hp.
  - exact (vc_NoDup _ _ _ three_valid).
  - exact (vc_not_null _ _ _ three_valid).
  - reflexivity.
  - split_and!; reflexivity.
  - simpl. lia.
  - simpl. lia.
  - simpl. lia.
Defined.

Section Spine.
Context `{D : Debugger} (ty : option TypeHandle).

(** The loop of [tree_min] runs once for every node of the left spine
    below the node it starts from. *)
Lemma tree_min_loop_spine l :
  ∀ a r p fuel it v steps,
    shaped ty (Node l a r) p → 0 ∉ inorder l → points_to ty v a →
    0 ≤ steps →
    steps + Z.of_nat (left_spine l) ≤ MapIterator.m_max_depth it →
    MapIterator.m_max_depth it < 2 ^ 64 - 1 →
    (left_spine l ≤ fuel)%nat →
    ∃ v',
      MapIterator.tree_min_loop fuel it (MapEntry.mk (Some v))
        (MapEntry.mk (MapEntry.left (MapEntry.mk (Some v)))) steps
      = Some (MapEntry.mk (Some v'), it)
      ∧ points_to ty v' (leftmost (Node l a r)).
Proof.
  induction l as [|ll IHl b lr _];
    intros a r p fuel it v steps (Ha & Hl & Hr) H0 Hv Hs Hd Hmax Hf.
  - destruct (Ha v Hv) as (Hleft & _ & _). simpl in Hleft.
    exists v. split; [|done]. destruct fuel; simpl; by rewrite Hleft.
  - destruct (Ha v Hv) as (Hleft & _ & _). simpl in Hleft.
    assert (b ≠ 0) as Hb by (intros ->; apply H0; simpl; set_solver).
    destruct fuel as [|fuel]; [simpl in Hf; lia|]. simpl left_spine in *.
    destruct Hleft as (vb & Hvb & Hpb). simpl in Hvb.
    cbn [MapIterator.tree_min_loop].
    rewrite (entry_at_null ty _ b), (entry_at_error ty _ b)
      by (done || by exists vb).
    rewrite size_t_succ_small by lia.
    destruct (Z.gtb_spec (steps + 1) (MapIterator.m_max_depth it)); [lia|].
    rewrite Hvb. unfold MapEntry.SetEntry.
    destruct (IHl b lr a fuel it vb (steps + 1)) as (v' & Hv' & Hp');
      [done|set_solver|done|lia..|].
    exists v'. split; [done|]. by destruct ll.
Qed.

End Spine.

(** X4: [tree_min] finds the leftmost node.  When the memory holds the
    subtree with root [a] and the left spine below [a] fits the budget,
    whatever the size of the subtree, [tree_min] of a pointer to [a]
    answers a pointer to the leftmost node below [a] and sets no
    error. *)
Theorem tree_min_leftmost `{D : Debugger} ty l a r p fuel
    (it : MapIterator.t) v :
  shaped ty (Node l a r) p → 0 ∉ inorder (Node l a r) → points_to ty v a →
  Z.of_nat (left_spine l) ≤ MapIterator.m_max_depth it < 2 ^ 64 - 1 →
  (left_spine l ≤ fuel)%nat →
  ∃ v',
    MapIterator.tree_min fuel it (MapEntry.mk (Some v))
    = Some (MapEntry.mk (Some v'), it)
    ∧ points_to ty v' (leftmost (Node l a r)).
Proof.
  intros Hsh H0 Hv Hd Hfuel.
  assert (a ≠ 0) as Ha by (intros ->; apply H0; simpl; set_solver).
  unfold MapIterator.tree_min.
  rewrite (entry_at_null ty _ a) by (by try apply entry_at_mk).
  eapply tree_min_loop_spine; eauto; try lia.
  intros Hin. apply H0. simpl. set_solver.
Qed.

Lemma tree_min_leftmost_witness :
  let D := Toy.debugger Toy.three in
  let it := MapIterator.make (Some (Toy.VPtr 16384)) 1 in
  ∃ v',
    MapIterator.tree_min 1 it (MapEntry.mk (Some (Toy.VPtr 8192)))
    = Some (MapEntry.mk (Some v'), it)
    ∧ points_to (Some Toy.TNodePtr) v' 12288.
Proof.
  intros D it.
  destruct (vc_shaped _ _ _ three_valid) as [p Hp].
  apply (tree_min_leftmost (D := D) (Some Toy.TNodePtr)
           (Node Leaf 12288 Leaf) 8192 (Node Leaf 16384 Leaf) p 1 it
           (Toy.VPtr 8192)).
  - exact Hp.
  - exact (vc_not_null _ _ _ three_valid).
  - split_and!; reflexivity.
  - simpl. lia.
  - simpl. lia.
Defined.

(** X5: [is_left_child] decides whether a node is the left child of its
    parent: for a pointer to the node [b] whose parent pointer leads to
    the node [a], it answers whether [b] is the root of the left subtree
    of [a]. *)
Theorem is_left_child_decides `{D : Debugger} ty v b a l r p :
  points_to ty v b → b ≠ 0 →
  entry_at ty (MapEntry.mk (MapEntry.parent (MapEntry.mk (Some v)))) a →
  node_at ty a l r p →
  MapIterator.is_left_child (MapEntry.mk (Some v)) = (b =? root_addr l).
Proof. apply is_left_child_spec. Qed.

Lemma is_left_child_decides_witness :
  let D := Toy.debugger Toy.three in
  MapIterator.is_left_child (MapEntry.mk (Some (Toy.VPtr 12288))) = true
  ∧ MapIterator.is_left_child (MapEntry.mk (Some (Toy.VPtr 16384))) = false.
Proof.
  intros D.
  destruct (vc_shaped _ _ _ three_valid) as [p (Hn & _ & _)].
  split.
  - change true with (12288 =? root_addr (Node Leaf 12288 Leaf)).
    apply (is_left_child_decides (D := D) (Some Toy.TNodePtr)
             (Toy.VPtr 12288) 12288 8192 (Node Leaf 12288 Leaf)
             (Node Leaf 16384 Leaf) p);
      [split_and!; reflexivity|lia| |exact Hn].
    exists (Toy.VPtr 8192). repeat split.
  - change false with (16384 =? root_addr (Node Leaf 12288 Leaf)).
    apply (is_left_child_decides (D := D) (Some Toy.TNodePtr)
             (Toy.VPtr 16384) 16384 8192 (Node Leaf 12288 Leaf)
             (Node Leaf 16384 Leaf) p);
      [split_and!; reflexivity|lia| |exact Hn].
    exists (Toy.VPtr 8192). repeat split.
Defined.

(** X6: what a successful [advance] leaves.  When [advance] answers an
    entry, the cursor stands on that entry, its error flag is unset, as
    it was before the call, and its budget is unchanged. *)
Theorem advance_answers_its_entry `{D : Debugger} fuel
    (it it' : MapIterator.t) count v :
  MapIterator.advance fuel it count = Some (Some v, it') →
  MapIterator.value it' = Some v
  ∧ MapIterator.m_error it = false
  ∧ MapIterator.m_error it' = false
  ∧ MapIterator.m_max_depth it' = MapIterator.m_max_depth it
  ∧ (0 < count → MapEntry.null (MapIterator.m_entry it') = false).
Proof. apply advance_Some_spec. Qed.

Lemma advance_answers_its_entry_witness :
  let D := Toy.debugger Toy.three in
  let it := MapIterator.make (Some (Toy.VPtr 12288)) 3 in
  ∃ v it',
    MapIterator.advance 3 it 2 = Some (Some v, it')
    ∧ MapIterator.value it' = Some v
    ∧ MapIterator.m_error it = false
    ∧ MapIterator.m_error it' = false
    ∧ MapIterator.m_max_depth it' = MapIterator.m_max_depth it
    ∧ (0 < 2 → MapEntry.null (MapIterator.m_entry it') = false).
Proof.
  intros D it. do 2 eexists. split; [vm_compute; reflexivity|].
  apply (advance_answers_its_entry (D := D) 3 it _ 2).
  vm_compute. reflexivity.
Defined.

(** X7: a cursor built on no node never moves.  [advance], whatever the
    count, answers absent, sets no error and leaves the cursor as it
    is; one execution of the loop body is enough. *)
Theorem advance_of_no_node `{D : Debugger} fuel d count :
  (0 < fuel)%nat →
  MapIterator.advance fuel (MapIterator.make None d) count
  = Some (None, MapIterator.make None d).
Proof.
  intros Hfuel. unfold MapIterator.advance. simpl.
  destruct fuel as [|fuel]; [lia|]. simpl.
  by destruct (count >? 0).
Qed.

Lemma advance_of_no_node_witness :
  let D := Toy.debugger Toy.three in
  MapIterator.advance 1 (MapIterator.make None 3) 2
  = Some (None, MapIterator.make None 3).
Proof. intros D. apply (advance_of_no_node (D := D)). lia. Defined.

(** ** What a query changes *)

Section Frame.
Context `{D : Debugger}.

Implicit Types (s : FE.t).

Lemma counted_stable s s' :
  (FE.CalculateNumChildren s).2 = s →
  FE.m_count s' = FE.m_count s →
  FE.m_tree s' = FE.m_tree s ∨ FE.m_tree s' = None →
  (FE.CalculateNumChildren s').2 = s'.
Proof.
  intros Hs Hc [Ht|Ht].
  - by rewrite (CalculateNumChildren_stable s s').
  - unfold FE.CalculateNumChildren. rewrite Ht.
    by destruct (negb (FE.m_count s' =? UINT32_MAX)).
Qed.

Lemma query_frame_refl idx s :
  (FE.CalculateNumChildren s).2 = s → query_frame idx s s.
Proof. intros Hs. unfold query_frame. rewrite Hs. naive_solver. Qed.

Lemma query_frame_trans idx s1 s2 s3 :
  (FE.CalculateNumChildren s1).2 = s1 →
  query_frame idx s1 s2 → query_frame idx s2 s3 → query_frame idx s1 s3.
Proof.
  intros Hs (Hb & Hr & Hc & Ht & Hty & Hsk & Hit)
    (Hb' & Hr' & Hc' & Ht' & Hty' & Hsk' & Hit').
  rewrite Hs in Hc.
  rewrite (counted_stable s1 s2 Hs Hc Ht) in Hc'.
  unfold query_frame. rewrite Hs. split_and!; try congruence.
  - destruct Ht' as [->| ->]; [done|by right].
  - intros H. rewrite Hty', Hty; [done..|]. by rewrite Hty.
  - intros H. rewrite Hsk', Hsk; [done..|]. by rewrite Hsk.
  - intros k H1 H2. by rewrite Hit', Hit.
Qed.

Lemma query_frame_weaken idx s s' : query_frame 0 s s' → query_frame idx s s'.
Proof.
  intros (Hb & Hr & Hc & Ht & Hty & Hsk & Hit). split_and!; try done.
  intros k _ Hk. by apply Hit.
Qed.

Lemma query_frame_counted idx s s' :
  (FE.CalculateNumChildren s).2 = s → query_frame idx s s' →
  (FE.CalculateNumChildren s').2 = s'.
Proof.
  intros Hs (_ & _ & Hc & Ht & _). rewrite Hs in Hc.
  by apply (counted_stable s s').
Qed.

Lemma GetDataType_query_frame idx s :
  (FE.CalculateNumChildren s).2 = s → query_frame idx s (FE.GetDataType s).2.
Proof.
  intros Hs. pose proof (GetDataType_valid s) as Hval.
  unfold query_frame. rewrite Hs, GetDataType_frame. simpl.
  split_and!; auto. intros H. by rewrite (Hval H).
Qed.

Lemma GetValueOffset_query_frame idx node s :
  (FE.CalculateNumChildren s).2 = s →
  query_frame idx s (FE.GetValueOffset node s).
Proof.
  intros Hs. pose proof (GetValueOffset_resolved node s) as Hres.
  unfold query_frame. rewrite Hs, GetValueOffset_frame. simpl.
  split_and!; auto. intros H. by rewrite (Hres H).
Qed.

Lemma insert_query_frame idx it s :
  (FE.CalculateNumChildren s).2 = s →
  query_frame idx s (FE.set_iterators s (<[idx := it]> (FE.m_iterators s))).
Proof.
  intros Hs. unfold query_frame. rewrite Hs. simpl. split_and!; auto.
  intros k Hk _. by rewrite lookup_insert_ne.
Qed.

Lemma set_tree_query_frame idx s :
  (FE.CalculateNumChildren s).2 = s → query_frame idx s (FE.set_tree s None).
Proof. intros Hs. unfold query_frame. rewrite Hs. simpl. naive_solver. Qed.

Lemma GetKeyValuePair_with_frame child0 fuel idx n s r s1 :
  (∀ sa sb, (FE.CalculateNumChildren sa).2 = sa → child0 sa = Some sb →
            query_frame 0 sa sb) →
  (FE.CalculateNumChildren s).2 = s →
  FE.GetKeyValuePair_with child0 fuel idx n s = Some (r, s1) →
  query_frame idx s s1.
Proof.
  intros Hchild Hs. unfold FE.GetKeyValuePair_with.
  match goal with
  | |- (let '(_, _) := ?st in _) = _ → _ => destruct st as [it0 adv]
  end.
  destruct (MapIterator.advance fuel it0 adv) as [[[v|] it']|]; simpl;
    [|intros [= _ <-]; by apply query_frame_refl|done].
  pose proof (GetDataType_query_frame idx s Hs) as Hfa.
  pose proof (query_frame_counted idx _ _ Hs Hfa) as Hsa.
  destruct (FE.GetDataType s) as [ok sa]. simpl in Hfa, Hsa.
  destruct ok; simpl; [|by intros [= _ <-]].
  destruct (idx >? 0); simpl.
  - assert (∀ sb, query_frame idx s sb →
      (if FE.m_skip_size sb =? UINT32_MAX then Some (None, sb)
       else match
              GetSyntheticChildAtOffset v (FE.m_skip_size sb)
                (FE.m_element_type sb)
            with
            | Some iterated =>
                Some (Some iterated,
                      FE.set_iterators sb (<[idx:=it']> (FE.m_iterators sb)))
            | None => Some (None, sb)
            end) = Some (r, s1) →
      query_frame idx s s1) as Htail.
    { intros sb Hfb.
      pose proof (query_frame_counted idx _ _ Hs Hfb) as Hsb.
      destruct (FE.m_skip_size sb =? UINT32_MAX); [by intros [= _ <-]|].
      destruct (GetSyntheticChildAtOffset v _ _); intros [= _ <-]; [|done].
      eapply query_frame_trans; [done..|]. by apply insert_query_frame. }
    destruct (FE.m_skip_size sa =? UINT32_MAX).
    + destruct (child0 sa) as [sb|] eqn:Ec; simpl; [|done].
      apply Htail. eapply query_frame_trans; [done..|].
      apply query_frame_weaken. by apply Hchild.
    + simpl. by apply Htail.
  - destruct (Dereference v) as [[d|] [|]]; try (by intros [= _ <-]).
    pose proof (GetValueOffset_query_frame idx (Some d) sa Hsa) as Hfb.
    pose proof (query_frame_trans idx _ _ _ Hs Hfa Hfb) as Hfb'.
    pose proof (query_frame_counted idx _ _ Hs Hfb') as Hsb.
    destruct (GetSyntheticChildAtOffset d _ _); intros [= _ <-]; [|done].
    eapply query_frame_trans; [done..|]. by apply insert_query_frame.
Qed.

Lemma GetChildAtIndex_with_frame child0 fuel idx s r s' :
  (∀ sa sb, (FE.CalculateNumChildren sa).2 = sa → child0 sa = Some sb →
            query_frame 0 sa sb) →
  FE.GetChildAtIndex_with (FE.GetKeyValuePair_with child0) fuel idx s
  = Some (r, s') →
  query_frame idx s s'.
Proof.
  intros Hchild.
  pose proof (CalculateNumChildren_idem s) as Hidem.
  pose proof (CalculateNumChildren_frame s) as Hfr.
  assert (∀ s1, query_frame idx (FE.CalculateNumChildren s).2 s1 →
                query_frame idx s s1) as Hstep.
  { intros s1 (Hb & Hr & Hc & Ht & Hty & Hsk & Hit). rewrite Hidem in Hc.
    rewrite Hfr in Hb, Hr, Ht, Hty, Hsk, Hit. simpl in *. by split_and!. }
  unfold FE.GetChildAtIndex_with, FE.CalculateNumChildrenIgnoringErrors.
  destruct (FE.CalculateNumChildren s) as [n s0]. simpl in *.
  assert ((FE.CalculateNumChildren s0).2 = s0) as Hs0 by (by rewrite Hidem).
  destruct (idx >=? n).
  { intros [= _ <-]. by apply Hstep, query_frame_refl. }
  destruct (FE.m_tree s0); [|intros [= _ <-]; by apply Hstep, query_frame_refl].
  destruct (FE.m_root_node s0);
    [|intros [= _ <-]; by apply Hstep, query_frame_refl].
  destruct (FE.GetKeyValuePair_with child0 fuel idx n s0) as [[kv s1]|] eqn:Ek;
    [|done].
  pose proof (GetKeyValuePair_with_frame _ _ _ _ _ _ _ Hchild Hs0 Ek) as Hf1.
  simpl. destruct kv; intros [= _ <-]; apply Hstep; [done|].
  eapply query_frame_trans; [done..|].
  apply set_tree_query_frame. by eapply query_frame_counted.
Qed.

Lemma GetChildAtIndex_first_frame fuel s s' :
  FE.GetChildAtIndex_first fuel s = Some s' → query_frame 0 s s'.
Proof.
  unfold FE.GetChildAtIndex_first.
  destruct (FE.GetChildAtIndex_with _ fuel 0 s) as [[r s1]|] eqn:E; [|done].
  intros [= <-]. eapply GetChildAtIndex_with_frame; [|exact E].
  intros sa sb Hsa [= <-]. by apply query_frame_refl.
Qed.

Lemma GetChildAtIndex_frame fuel idx s r s' :
  FE.GetChildAtIndex fuel idx s = Some (r, s') → query_frame idx s s'.
Proof.
  apply GetChildAtIndex_with_frame.
  intros sa sb _. apply GetChildAtIndex_first_frame.
Qed.

End Frame.

Section ViewMore.
Context `{D : Debugger}.

Implicit Types (s : FE.t) (b : ValueObject).

(** The count a view answers after a query. *)
Lemma CalculateNumChildren_after s s' :
  FE.m_count s' = FE.m_count (FE.CalculateNumChildren s).2 →
  FE.m_tree s' = FE.m_tree s ∨ FE.m_tree s' = None →
  (FE.CalculateNumChildren s).1 ≠ UINT32_MAX →
  (FE.CalculateNumChildren s').1 = (FE.CalculateNumChildren s).1.
Proof.
  unfold FE.CalculateNumChildren.
  destruct (negb (FE.m_count s =? UINT32_MAX)) eqn:E; simpl.
  { intros -> _ _. by rewrite E. }
  apply negb_false_iff, Z.eqb_eq in E.
  assert (∀ s1, FE.m_count s1 = UINT32_MAX → FE.m_tree s1 = None →
    (if negb (FE.m_count s1 =? UINT32_MAX) then (to_uint32 (FE.m_count s1), s1)
     else match FE.m_tree s1 with
          | Some tree =>
              match GetChildMemberWithName tree "__pair3_" with
              | Some size_node =>
                  match GetFirstValueOfLibCXXCompressedPair size_node with
                  | Some size_node =>
                      (to_uint32
                         (FE.m_count
                            (FE.set_count s1 (GetValueAsUnsigned size_node 0))),
                       FE.set_count s1 (GetValueAsUnsigned size_node 0))
                  | None => (0, s1)
                  end
              | None => (0, s1)
              end
          | None => (0, s1)
          end).1 = 0) as Hnone.
  { intros s1 -> ->. done. }
  destruct (FE.m_tree s) as [tree|] eqn:Et.
  2:{ simpl. intros Hc Ht _. apply Hnone; [congruence|by destruct Ht]. }
  destruct (GetChildMemberWithName tree "__pair3_") as [n1|] eqn:E1.
  2:{ simpl. intros Hc [Ht|Ht] _; [|apply Hnone; congruence].
      rewrite Hc, E, Ht, E1. done. }
  destruct (GetFirstValueOfLibCXXCompressedPair n1) as [n2|] eqn:E2.
  2:{ simpl. intros Hc [Ht|Ht] _; [|apply Hnone; congruence].
      rewrite Hc, E, Ht, E1, E2. done. }
  simpl. intros Hc _ Hn. rewrite Hc.
  destruct (Z.eqb_spec (GetValueAsUnsigned n2 0) UINT32_MAX) as [Heq|Hne];
    [|done].
  rewrite Heq in Hn. by vm_compute in Hn.
Qed.

End ViewMore.

(** ** The view *)

(** X8: the count is computed once.  [CalculateNumChildren] answers a
    [uint32_t], changes nothing of the view but [m_count], and asked
    again answers the same count and leaves the view as the first call
    left it. *)
Theorem count_asked_twice `{D : Debugger} (s : FE.t) :
  0 ≤ (FE.CalculateNumChildren s).1 < 2 ^ 32
  ∧ (FE.CalculateNumChildren s).2
    = FE.set_count s (FE.m_count (FE.CalculateNumChildren s).2)
  ∧ FE.CalculateNumChildren (FE.CalculateNumChildren s).2
    = FE.CalculateNumChildren s.
Proof.
  split; [|split].
  - apply CalculateNumChildren_range.
  - apply CalculateNumChildren_frame.
  - apply CalculateNumChildren_idem.
Qed.

(** X9: what a query may change.  [GetChildAtIndex(idx)] never changes
    the backend or the first-element reference; it changes the count
    only by computing it, the tree pointer only by clearing it, the
    element type and the offset of the payload only while they are
    unresolved, and of the cached cursors only those of [idx] and of
    0. *)
Theorem query_changes_little `{D : Debugger} fuel idx (s s' : FE.t) r :
  FE.GetChildAtIndex fuel idx s = Some (r, s') → query_frame idx s s'.
Proof. apply GetChildAtIndex_frame. Qed.

Lemma query_changes_little_witness :
  let D := Toy.debugger Toy.three in
  let s := state_after 4 [1] (FE.create Toy.VMap) in
  ∃ r s', FE.GetChildAtIndex 4 2 s = Some (r, s')
          ∧ FE.m_iterators s !! 1 = FE.m_iterators s' !! 1
          ∧ query_frame 2 s s'.
Proof.
  intros D s. do 2 eexists. split; [vm_compute; reflexivity|].
  split; [vm_compute; reflexivity|].
  apply (query_changes_little (D := D) 4 2 s _ (Some (Toy.VPair 16416 "[2]"))).
  vm_compute. reflexivity.
Defined.

(** X10: a query does not change the count.  Unless the count is
    [UINT32_MAX], the value that stands for a count not yet known, the
    view answers after [GetChildAtIndex] the count it answered before,
    also when the query has invalidated it. *)
Theorem queries_keep_count `{D : Debugger} fuel idx (s s' : FE.t) r :
  FE.GetChildAtIndex fuel idx s = Some (r, s') →
  (FE.CalculateNumChildren s).1 ≠ UINT32_MAX →
  (FE.CalculateNumChildren s').1 = (FE.CalculateNumChildren s).1.
Proof.
  intros H Hn.
  destruct (GetChildAtIndex_frame _ _ _ _ _ H) as (_ & _ & Hc & Ht & _).
  by apply CalculateNumChildren_after.
Qed.

Lemma queries_keep_count_witness :
  let D := Toy.debugger Toy.cyclic in
  let s := FE.create Toy.VMap in
  ∃ s', FE.GetChildAtIndex 3 1 s = Some (None, s')
        ∧ FE.m_tree s' = None
        ∧ (FE.CalculateNumChildren s).1 = 2
        ∧ (FE.CalculateNumChildren s').1 = (FE.CalculateNumChildren s).1.
Proof.
  intros D s. eexists. split; [vm_compute; reflexivity|].
  split; [reflexivity|]. split; [reflexivity|].
  apply (queries_keep_count (D := D) 3 1 s _ None);
    [vm_compute; reflexivity|vm_compute; discriminate].
Defined.

(** X11: a refresh keeps the layout.  Once the element type and the
    offset of the payload are resolved, neither [GetChildAtIndex] nor
    the [Update] that follows changes them: [Update] forgets the count
    and the cursors, and reads the tree again, but not the layout. *)
Theorem refresh_keeps_layout `{D : Debugger} fuel idx (s s' : FE.t) r :
  is_Some (FE.m_element_type s) → FE.m_skip_size s ≠ UINT32_MAX →
  FE.GetChildAtIndex fuel idx s = Some (r, s') →
  FE.m_element_type (FE.Update s') = FE.m_element_type s
  ∧ FE.m_skip_size (FE.Update s') = FE.m_skip_size s
  ∧ FE.m_count (FE.Update s') = UINT32_MAX
  ∧ FE.m_iterators (FE.Update s') = ∅
  ∧ FE.m_tree (FE.Update s')
    = GetChildMemberWithName (FE.m_backend s) "__tree_".
Proof.
  intros Hty Hsk H.
  destruct (GetChildAtIndex_frame _ _ _ _ _ H)
    as (Hb & _ & _ & _ & Hty' & Hsk' & _).
  rewrite <- (Hty' Hty), <- (Hsk' Hsk), <- Hb.
  unfold FE.Update. simpl. by case_match.
Qed.

Lemma refresh_keeps_layout_witness :
  let D := Toy.debugger Toy.three in
  let s := state_after 4 [0] (FE.create Toy.VMap) in
  ∃ r s',
    FE.GetChildAtIndex 4 1 s = Some (r, s')
    ∧ FE.m_element_type (FE.Update s') = Some Toy.TElem
    ∧ FE.m_skip_size (FE.Update s') = 32
    ∧ FE.m_count (FE.Update s') = UINT32_MAX
    ∧ FE.m_iterators (FE.Update s') = ∅
    ∧ FE.m_tree (FE.Update s') = Some Toy.VTree.
Proof.
  intros D s. do 2 eexists. split; [vm_compute; reflexivity|].
  apply (refresh_keeps_layout (D := D) 4 1 s _ (Some (Toy.VPair 8224 "[1]")));
    [vm_compute; eauto|vm_compute; discriminate|vm_compute; reflexivity].
Defined.

Section ViewRefresh.
Context `{D : Debugger}.

Implicit Types (s : FE.t) (b : ValueObject).

Lemma Update_idem s : FE.Update (FE.Update s) = FE.Update s.
Proof.
  unfold FE.Update. simpl.
  destruct (GetChildMemberWithName (FE.m_backend s) "__tree_") as [tree|] eqn:E;
    simpl; by rewrite E.
Qed.

Lemma GetChildAtIndex_refreshed b fuel idx s :
  reachable b s → 0 ≤ idx → count_of b < Z.of_nat fuel →
  ∃ r s1 s2,
    FE.GetChildAtIndex fuel idx (FE.create b) = Some (r, s1)
    ∧ FE.GetChildAtIndex fuel idx (FE.Update s) = Some (r, s2).
Proof.
  intros Hs Hidx Hfuel.
  pose proof (reachable_view_inv b _ (reachable_create b)) as Hinv0.
  pose proof (reachable_view_inv b _ (reachable_Update b s Hs)) as Hinv1.
  assert (FE.m_tree (FE.Update s) = FE.m_tree (FE.create b)) as Ht.
  { rewrite Update_tree. by rewrite (inv_backend b s (reachable_view_inv b s Hs)). }
  destruct (FE.m_tree (FE.create b)) as [tree|] eqn:Et.
  - destruct (GetChildAtIndex_total b fuel idx (FE.create b) Hinv0)
      as [[r1 s1] H1]; [done|].
    destruct (GetChildAtIndex_total b fuel idx (FE.Update s) Hinv1)
      as [[r2 s2] H2].
    { destruct (view_inv_CalculateNumChildren b _ Hinv1) as [_ Hn].
      rewrite Hn by (by rewrite Ht). done. }
    exists r1, s1, s2. split; [done|]. rewrite H2. do 2 f_equal.
    symmetry.
    eapply (GetChildAtIndex_history b (FE.create b) (FE.Update s));
      try done; by rewrite ?Ht, Et.
  - exists None, (FE.create b), (FE.Update s).
    by rewrite !GetChildAtIndex_invalidated.
Qed.

Lemma cached_cursor_sound b s k it :
  view_inv b s → is_Some (FE.m_tree s) →
  FE.m_iterators s !! k = Some it →
  0 ≤ k < (FE.CalculateNumChildren s).1
  ∧ MapIterator.m_error it = false
  ∧ MapIterator.m_max_depth it = (FE.CalculateNumChildren s).1
  ∧ is_Some (MapIterator.value it)
  ∧ ∃ fuel v,
      MapIterator.advance fuel
        (MapIterator.make (FE.m_root_node s) (FE.CalculateNumChildren s).1) k
      = Some (Some v, it).
Proof.
  intros Hinv Htree Hit.
  destruct (view_inv_CalculateNumChildren b s Hinv) as [_ Hn].
  rewrite Hn, (inv_root b s Hinv) by done. fold (fresh_cursor b).
  destruct (inv_cache b s Hinv Htree k it Hit) as (Hk & f & v & Hf).
  destruct (advance_Some_spec _ _ _ _ _ Hf) as (Hv & _ & He & Hd & _).
  split; [lia|]. split; [done|]. split; [done|].
  split; [by rewrite Hv|]. by exists f, v.
Qed.

End ViewRefresh.

(** X12: a refresh recovers the view.  Whatever queries a view has
    answered and whether or not one of them has invalidated it, after
    [Update] it answers [GetChildAtIndex] as a view created anew does. *)
Theorem refresh_recovers `{D : Debugger} b fuel idx (s : FE.t) :
  reachable b s → 0 ≤ idx → count_of b < Z.of_nat fuel →
  ∃ r s1 s2,
    FE.GetChildAtIndex fuel idx (FE.create b) = Some (r, s1)
    ∧ FE.GetChildAtIndex fuel idx (FE.Update s) = Some (r, s2).
Proof. apply GetChildAtIndex_refreshed. Qed.

Lemma refresh_recovers_witness :
  let D := Toy.debugger Toy.cyclic in
  let s := state_after 3 [0; 1] (FE.create Toy.VMap) in
  FE.m_tree s = None
  ∧ FE.GetChildAtIndex 3 0 s = Some (None, s)
  ∧ ∃ r s1 s2,
      FE.GetChildAtIndex 3 0 (FE.create Toy.VMap) = Some (r, s1)
      ∧ FE.GetChildAtIndex 3 0 (FE.Update s) = Some (r, s2).
Proof.
  intros D s. split; [reflexivity|]. split; [vm_compute; reflexivity|].
  apply (refresh_recovers (D := D) Toy.VMap 3 0 s).
  - apply reachable_state_after; [apply reachable_create|].
    constructor; [lia|]. constructor; [lia|constructor].
  - lia.
  - vm_compute. reflexivity.
Defined.

(** X13: a failed lookup silences the view.  When [GetKeyValuePair]
    answers no pair for an index below the count, [GetChildAtIndex]
    answers absent and clears the tree pointer, and every query made
    after it, whatever the index, answers absent and leaves the view as
    it is. *)
Theorem failed_lookup_silences_view `{D : Debugger} fuel idx (s s1 : FE.t)
    idxs :
  idx < (FE.CalculateNumChildren s).1 →
  is_Some (FE.m_tree s) → is_Some (FE.m_root_node s) →
  FE.GetKeyValuePair fuel idx (FE.CalculateNumChildren s).1
    (FE.CalculateNumChildren s).2 = Some (None, s1) →
  ∃ s',
    FE.GetChildAtIndex fuel idx s = Some (None, s')
    ∧ FE.m_tree s' = None
    ∧ consume fuel idxs s' = Some (replicate (length idxs) None, s').
Proof.
  intros Hidx Ht Hr Hk. exists (FE.set_tree s1 None). split_and!.
  - by apply GetChildAtIndex_failure.
  - done.
  - by apply consume_invalidated.
Qed.

Lemma failed_lookup_silences_view_witness :
  let D := Toy.debugger Toy.cyclic in
  let s := FE.create Toy.VMap in
  ∃ s',
    FE.GetChildAtIndex 3 1 s = Some (None, s')
    ∧ FE.m_tree s' = None
    ∧ consume 3 [0; 1; 0] s' = Some (replicate (length [0; 1; 0]) None, s').
Proof.
  intros D s.
  destruct (FE.GetKeyValuePair 3 1 (FE.CalculateNumChildren s).1
              (FE.CalculateNumChildren s).2) as [[[kv|] s1]|] eqn:E;
    [vm_compute in E; discriminate| |vm_compute in E; discriminate].
  apply (failed_lookup_silences_view (D := D) 3 1 s s1 [0; 1; 0]);
    [vm_compute; reflexivity|vm_compute; eauto|vm_compute; eauto|exact E].
Defined.

(** X15: the cached cursors are sound.  In every state of a view that
    has not been invalidated, a cursor cached for the index [k] belongs
    to an index below the count, stands on an entry, has its error flag
    unset and the count as budget, and is where a fresh cursor on the
    first-element reference arrives after [k] steps. *)
Theorem cached_cursors_are_sound `{D : Debugger} b (s : FE.t) k it :
  reachable b s → is_Some (FE.m_tree s) →
  FE.m_iterators s !! k = Some it →
  0 ≤ k < (FE.CalculateNumChildren s).1
  ∧ MapIterator.m_error it = false
  ∧ MapIterator.m_max_depth it = (FE.CalculateNumChildren s).1
  ∧ is_Some (MapIterator.value it)
  ∧ ∃ fuel v,
      MapIterator.advance fuel
        (MapIterator.make (FE.m_root_node s) (FE.CalculateNumChildren s).1) k
      = Some (Some v, it).
Proof.
  intros Hs. apply (cached_cursor_sound b). by apply reachable_view_inv.
Qed.

Lemma cached_cursors_are_sound_witness :
  let D := Toy.debugger Toy.three in
  let s := state_after 4 [2] (FE.create Toy.VMap) in
  let it := MapIterator.mk (MapEntry.mk (Some (Toy.VPtr 16384))) 3 false in
  FE.m_iterators s !! 2 = Some it
  ∧ 0 ≤ 2 < (FE.CalculateNumChildren s).1
  ∧ MapIterator.m_error it = false
  ∧ MapIterator.m_max_depth it = (FE.CalculateNumChildren s).1
  ∧ is_Some (MapIterator.value it)
  ∧ ∃ fuel v,
      MapIterator.advance fuel
        (MapIterator.make (FE.m_root_node s) (FE.CalculateNumChildren s).1) 2
      = Some (Some v, it).
Proof.
  intros D s it. split; [vm_compute; reflexivity|].
  apply (cached_cursors_are_sound (D := D) Toy.VMap s 2 it).
  - apply reachable_state_after; [apply reachable_create|].
    constructor; [lia|constructor].
  - vm_compute. eauto.
  - vm_compute. reflexivity.
Defined.

(** X16: [Update] is idempotent, and the front end the creator builds is
    already refreshed: a second [Update] changes nothing. *)
Theorem Update_idempotent `{D : Debugger} (s : FE.t) valobj_sp :
  FE.Update (FE.Update s) = FE.Update s
  ∧ match LibcxxStdMapSyntheticFrontEndCreator valobj_sp with
    | Some s0 => FE.Update s0 = s0 ∧ valobj_sp = Some (FE.m_backend s0)
    | None => valobj_sp = None
    end.
Proof.
  split; [apply Update_idem|].
  destruct valobj_sp as [b|]; simpl; [|done].
  split; [apply Update_idem|]. by rewrite create_backend.
Qed.

(** X17: random access answers the pair of the right node.  For a valid
    container holding the tree [t], in every state of the view and
    whatever was asked before, [GetChildAtIndex(i)] for [i] below the
    size answers the payload read from the node at position [i] of the
    in-order sequence (the pair at the resolved offset, cloned under the
    name [[i]]), and leaves the view valid. *)
Theorem element_at_is_ith_node `{D : Debugger} ty b t (s : FE.t) fuel
    (i : nat) :
  valid_container ty b t → reachable b s →
  (i < tree_size t)%nat → (tree_size t < fuel)%nat →
  ∃ a v p s',
    inorder t !! i = Some a ∧ points_to ty v a
    ∧ payload_at b (Z.of_nat i) v = Some p
    ∧ FE.GetChildAtIndex fuel (Z.of_nat i) s = Some (Some p, s')
    ∧ is_Some (FE.m_tree s').
Proof.
  intros Hvalid Hs Hi Hfuel.
  destruct (valid_element_at ty b t s fuel i Hvalid Hs Hi Hfuel)
    as (a & v & p & s' & Ha & Hv & Hp & Hq).
  exists a, v, p, s'. split_and!; try done.
  apply (valid_reachable ty b t); [done|].
  eapply reachable_GetChildAtIndex; [exact Hs| |exact Hq]. lia.
Qed.

Lemma element_at_is_ith_node_witness :
  let D := Toy.debugger Toy.three in
  let s := state_after 4 [2] (FE.create Toy.VMap) in
  ∃ a v p s',
    inorder Toy.three_tree !! 0%nat = Some a
    ∧ points_to (Some Toy.TNodePtr) v a
    ∧ payload_at Toy.VMap (Z.of_nat 0) v = Some p
    ∧ FE.GetChildAtIndex 4 (Z.of_nat 0) s = Some (Some p, s')
    ∧ is_Some (FE.m_tree s').
Proof.
  intros D s.
  apply (element_at_is_ith_node (D := D) (Some Toy.TNodePtr) Toy.VMap
           Toy.three_tree s 4 0).
  - apply three_valid.
  - apply reachable_state_after; [apply reachable_create|].
    constructor; [lia|constructor].
  - simpl. lia.
  - simpl. lia.
Defined.

(** ** The iterator front end *)

Section IteratorMore.
Context `{D : Debugger}.

Implicit Types (s : IFE.t).

Lemma IFE_Update_backend s : IFE.m_backend (IFE.Update s) = IFE.m_backend s.
Proof. unfold IFE.Update. simpl. by repeat case_match. Qed.

Lemma IFE_Update_create s : IFE.Update s = IFE.create (IFE.m_backend s).
Proof. done. Qed.

Lemma IFE_Update_pair_ptr s v :
  IFE.m_pair_ptr (IFE.Update s) = Some v →
  IFE.m_pair_sp (IFE.Update s) = None
  ∧ ∃ valobj target,
      GetSP (IFE.m_backend s) = Some valobj
      ∧ GetTargetSP valobj = Some target
      ∧ GetValueForExpressionPath valobj ".__i_.__ptr_->__value_" = Some v.
Proof.
  unfold IFE.Update. simpl.
  destruct (GetSP (IFE.m_backend s)) as [valobj|] eqn:Esp; [|done].
  destruct (GetTargetSP valobj) as [target|] eqn:Et; [|done]. simpl.
  destruct (GetValueForExpressionPath valobj ".__i_.__ptr_->__value_")
    as [v'|] eqn:Ef; simpl.
  { intros [= <-]. split; [done|]. by exists valobj, target. }
  repeat case_match; simpl; intros; simplify_eq.
Qed.

Lemma IFE_Update_pair_sp s pair :
  IFE.m_pair_sp (IFE.Update s) = Some pair →
  IFE.m_pair_ptr (IFE.Update s) = None
  ∧ ∃ valobj target p i_ ty ast size buffer obj,
      GetSP (IFE.m_backend s) = Some valobj
      ∧ GetTargetSP valobj = Some target
      ∧ GetValueForExpressionPath valobj ".__i_.__ptr_->__value_" = None
      ∧ GetValueForExpressionPath valobj ".__i_.__ptr_" = Some p
      ∧ GetChildMemberWithName valobj "__i_" = Some i_
      ∧ CompilerType_GetFieldAtIndex
          (CompilerType_GetTypeTemplateArgument (GetCompilerType i_) 0) 0
        = Some ty
      ∧ GetValueAsUnsigned p LLDB_INVALID_ADDRESS ≠ 0
      ∧ GetValueAsUnsigned p LLDB_INVALID_ADDRESS ≠ LLDB_INVALID_ADDRESS
      ∧ GetClangTypeSystem ty = Some ast
      ∧ CompilerType_GetByteSize (tree_node_struct ast (Some ty)) = Some size
      ∧ ReadMemory target (GetValueAsUnsigned p LLDB_INVALID_ADDRESS) size
        = Some buffer
      ∧ CreateValueObjectFromData "pair" buffer target valobj
          (tree_node_struct ast (Some ty)) = Some obj
      ∧ ValueObject_GetChildAtIndex obj 4 = Some pair.
Proof.
  unfold IFE.Update. simpl.
  destruct (GetSP (IFE.m_backend s)) as [valobj|] eqn:Esp; [|done].
  destruct (GetTargetSP valobj) as [target|] eqn:Et; [|done]. simpl.
  destruct (GetValueForExpressionPath valobj ".__i_.__ptr_->__value_")
    as [v'|] eqn:Ef; simpl; [done|].
  destruct (GetValueForExpressionPath valobj ".__i_.__ptr_")
    as [p|] eqn:Ep; simpl; [|done].
  destruct (GetChildMemberWithName valobj "__i_") as [i_|] eqn:Ei; [|done].
  destruct (CompilerType_GetFieldAtIndex _ _) as [ty|] eqn:Ety; [|done].
  destruct (Z.eqb_spec (GetValueAsUnsigned p LLDB_INVALID_ADDRESS) 0);
    simpl; [done|].
  destruct (Z.eqb_spec (GetValueAsUnsigned p LLDB_INVALID_ADDRESS)
              LLDB_INVALID_ADDRESS); simpl; [done|].
  destruct (GetClangTypeSystem ty) as [ast|] eqn:Ea; [|done].
  destruct (CompilerType_GetByteSize _) as [size|] eqn:Es; [|done].
  destruct (ReadMemory target _ size) as [buffer|] eqn:Er; [|done].
  destruct (CreateValueObjectFromData _ _ _ _ _) as [obj|] eqn:Ec; [|done].
  simpl. intros Hp. split; [done|].
  by exists valobj, target, p, i_, ty, ast, size, buffer, obj.
Qed.

End IteratorMore.

(** X18: the fast path of the iterator.  When the iterator object and
    its target exist and the path [.__i_.__ptr_->__value_] resolves,
    [Update] keeps the object it resolves to as the pair, reads no
    memory, and [GetChildAtIndex] answers the children of that object. *)
Theorem iterator_fast_path `{D : Debugger} (s : IFE.t) valobj target v :
  GetSP (IFE.m_backend s) = Some valobj →
  GetTargetSP valobj = Some target →
  GetValueForExpressionPath valobj ".__i_.__ptr_->__value_" = Some v →
  IFE.m_pair_ptr (IFE.Update s) = Some v
  ∧ IFE.m_pair_sp (IFE.Update s) = None
  ∧ ∀ idx,
      IFE.GetChildAtIndex idx (IFE.Update s)
      = ValueObject_GetChildAtIndex v idx.
Proof.
  intros Hsp Ht Hf.
  assert (IFE.Update s = IFE.mk (IFE.m_backend s) (Some v) None) as ->.
  { unfold IFE.Update. simpl. rewrite Hsp, Ht. simpl. by rewrite Hf. }
  done.
Qed.

Lemma iterator_fast_path_witness :
  let D := Toy.debugger symbolic_iterator in
  let s := IFE.mk Toy.VIter None None in
  IFE.m_pair_ptr (IFE.Update s) = Some (Toy.VPair 8224 "__value_")
  ∧ IFE.m_pair_sp (IFE.Update s) = None
  ∧ ∀ idx,
      IFE.GetChildAtIndex idx (IFE.Update s)
      = ValueObject_GetChildAtIndex (Toy.VPair 8224 "__value_") idx.
Proof.
  intros D s.
  apply (iterator_fast_path (D := D) s Toy.VIter tt); reflexivity.
Defined.

(** X19: the pair recovered from memory.  When [Update] leaves a pair in
    [m_pair_sp], the fast path had resolved to nothing, the pointer of
    the iterator read as an address that is neither 0 nor
    [LLDB_INVALID_ADDRESS], as many bytes as the synthesized node
    struct has were read at that address, and the pair is child 4, the
    payload, of the object made of those bytes; [m_pair_ptr] is null and
    [GetChildAtIndex] answers the children of the pair. *)
Theorem iterator_pair_from_memory `{D : Debugger} (s : IFE.t) pair :
  IFE.m_pair_sp (IFE.Update s) = Some pair →
  IFE.m_pair_ptr (IFE.Update s) = None
  ∧ (∀ idx,
       IFE.GetChildAtIndex idx (IFE.Update s)
       = ValueObject_GetChildAtIndex pair idx)
  ∧ ∃ valobj target p i_ ty ast size buffer obj,
      GetSP (IFE.m_backend s) = Some valobj
      ∧ GetTargetSP valobj = Some target
      ∧ GetValueForExpressionPath valobj ".__i_.__ptr_->__value_" = None
      ∧ GetValueForExpressionPath valobj ".__i_.__ptr_" = Some p
      ∧ GetChildMemberWithName valobj "__i_" = Some i_
      ∧ CompilerType_GetFieldAtIndex
          (CompilerType_GetTypeTemplateArgument (GetCompilerType i_) 0) 0
        = Some ty
      ∧ GetValueAsUnsigned p LLDB_INVALID_ADDRESS ≠ 0
      ∧ GetValueAsUnsigned p LLDB_INVALID_ADDRESS ≠ LLDB_INVALID_ADDRESS
      ∧ GetClangTypeSystem ty = Some ast
      ∧ CompilerType_GetByteSize (tree_node_struct ast (Some ty)) = Some size
      ∧ ReadMemory target (GetValueAsUnsigned p LLDB_INVALID_ADDRESS) size
        = Some buffer
      ∧ CreateValueObjectFromData "pair" buffer target valobj
          (tree_node_struct ast (Some ty)) = Some obj
      ∧ ValueObject_GetChildAtIndex obj 4 = Some pair.
Proof.
  intros H. destruct (IFE_Update_pair_sp s pair H) as [Hp Hex].
  split_and!; [done| |done].
  intros idx. unfold IFE.GetChildAtIndex. by rewrite Hp, H.
Qed.

Lemma iterator_pair_from_memory_witness :
  let D := Toy.debugger Toy.root_iterator in
  let s := IFE.mk Toy.VIter None None in
  IFE.m_pair_sp (IFE.Update s) = Some (Toy.VBlock [2])
  ∧ IFE.m_pair_ptr (IFE.Update s) = None
  ∧ ∃ p size buffer,
      GetValueForExpressionPath Toy.VIter ".__i_.__ptr_" = Some p
      ∧ GetValueAsUnsigned p LLDB_INVALID_ADDRESS = 8192
      ∧ ReadMemory tt 8192 size = Some buffer.
Proof.
  intros D s. split; [reflexivity|].
  destruct (iterator_pair_from_memory (D := D) s (Toy.VBlock [2]) eq_refl)
    as (Hp & _ & _).
  split; [exact Hp|].
  exists Toy.VIterPtr, 40, [12288; 16384; 4096; 0; 2]. by vm_compute.
Defined.

(** X20: the pointer of the iterator is never kept as the pair.  When
    [Update] leaves an object in [m_pair_ptr], that object is what the
    path [.__i_.__ptr_->__value_] resolves to, never the [__ptr_] the
    fallback reads the address from, and [m_pair_sp] is empty: at most
    one of the two holds a pair. *)
Theorem iterator_pair_pointer `{D : Debugger} (s : IFE.t) v :
  IFE.m_pair_ptr (IFE.Update s) = Some v →
  IFE.m_pair_sp (IFE.Update s) = None
  ∧ ∃ valobj target,
      GetSP (IFE.m_backend s) = Some valobj
      ∧ GetTargetSP valobj = Some target
      ∧ GetValueForExpressionPath valobj ".__i_.__ptr_->__value_" = Some v.
Proof. apply IFE_Update_pair_ptr. Qed.

Lemma iterator_pair_pointer_witness :
  let D := Toy.debugger symbolic_iterator in
  let s := IFE.mk Toy.VIter (Some Toy.VIterPtr) (Some (Toy.VBlock [])) in
  IFE.m_pair_ptr (IFE.Update s) = Some (Toy.VPair 8224 "__value_")
  ∧ IFE.m_pair_sp (IFE.Update s) = None
  ∧ ∃ valobj target,
      GetSP (IFE.m_backend s) = Some valobj
      ∧ GetTargetSP valobj = Some target
      ∧ GetValueForExpressionPath valobj ".__i_.__ptr_->__value_"
        = Some (Toy.VPair 8224 "__value_").
Proof.
  intros D s. split; [reflexivity|].
  apply (iterator_pair_pointer (D := D) s). reflexivity.
Defined.

(** X21: a refresh of the iterator forgets what was recovered before.
    [Update] depends on the iterator object alone: it leaves the front
    end as the constructor leaves one built on that object, so that a
    second [Update] changes nothing. *)
Theorem iterator_Update_idempotent `{D : Debugger} (s : IFE.t) :
  IFE.Update s = IFE.create (IFE.m_backend s)
  ∧ IFE.Update (IFE.Update s) = IFE.Update s.
Proof.
  split; [done|].
  by rewrite (IFE_Update_create (IFE.Update s)), IFE_Update_backend.
Qed.

(** ** The cache *)

Section CacheMore.
Context `{D : Debugger}.

Implicit Types (s : FE.t).

Lemma GetKeyValuePair_with_cached child0 fuel idx n s kv s1 :
  FE.GetKeyValuePair_with child0 fuel idx n s = Some (Some kv, s1) →
  is_Some (FE.m_iterators s1 !! idx).
Proof.
  unfold FE.GetKeyValuePair_with.
  match goal with
  | |- (let '(_, _) := ?st in _) = _ → _ => destruct st as [it0 adv]
  end.
  destruct (MapIterator.advance fuel it0 adv) as [[[v|] it']|]; simpl;
    [|done..].
  destruct (FE.GetDataType s) as [ok sa]. destruct ok; simpl; [|done].
  destruct (idx >? 0); simpl.
  - destruct (if FE.m_skip_size sa =? UINT32_MAX then child0 sa else Some sa)
      as [sb|]; simpl; [|done].
    destruct (FE.m_skip_size sb =? UINT32_MAX); [done|].
    destruct (GetSyntheticChildAtOffset v _ _); [|done].
    intros [= _ <-]. simpl. rewrite lookup_insert_eq. by eexists.
  - destruct (Dereference v) as [[d|] [|]]; try done.
    destruct (GetSyntheticChildAtOffset d _ _); [|done].
    intros [= _ <-]. simpl. rewrite lookup_insert_eq. by eexists.
Qed.

Lemma GetChildAtIndex_cached fuel idx s c s' :
  FE.GetChildAtIndex fuel idx s = Some (Some c, s') →
  is_Some (FE.m_iterators s' !! idx).
Proof.
  unfold FE.GetChildAtIndex, FE.GetChildAtIndex_with,
    FE.CalculateNumChildrenIgnoringErrors.
  destruct (FE.CalculateNumChildren s) as [n s0]. simpl.
  destruct (idx >=? n); [done|].
  destruct (FE.m_tree s0); [|done]. destruct (FE.m_root_node s0); [|done].
  destruct (FE.GetKeyValuePair _ _ _ _) as [[[kv|] s1]|] eqn:E; simpl;
    [|done..].
  intros [= _ <-]. by eapply GetKeyValuePair_with_cached.
Qed.

End CacheMore.

(** X23: a query that answers a child caches its cursor.  After
    [GetChildAtIndex(idx)] has answered a child, [m_iterators] holds a
    cursor for [idx], from which the query for [idx + 1] starts. *)
Theorem answered_query_caches_cursor `{D : Debugger} fuel idx (s s' : FE.t)
    c :
  FE.GetChildAtIndex fuel idx s = Some (Some c, s') →
  is_Some (FE.m_iterators s' !! idx).
Proof. apply GetChildAtIndex_cached. Qed.

Lemma answered_query_caches_cursor_witness :
  let D := Toy.debugger Toy.three in
  ∃ c s',
    FE.m_iterators (FE.create Toy.VMap) !! 1 = None
    ∧ FE.GetChildAtIndex 4 1 (FE.create Toy.VMap) = Some (Some c, s')
    ∧ is_Some (FE.m_iterators s' !! 1).
Proof.
  intros D. do 2 eexists. split; [reflexivity|].
  split; [vm_compute; reflexivity|].
  eapply (answered_query_caches_cursor (D := D) 4 1 (@FE.create D Toy.VMap)).
  vm_compute. reflexivity.
Defined.
